(** * parseq: tokenizer, parser and the two renderers of [parseq.py]

    A shallow embedding of [src/bak/parseq.py].  Python objects live in an
    object store (a list of nodes, a reference is an index), because both
    renderers assign to the [args] field of a [Function] node that heads a
    [List].  Loops and recursion take a fuel argument; running out of fuel
    is an outcome of its own, distinct from every Python exception. *)

From Stdlib Require Import String Ascii ZArith Lia DecimalString.
From Stdlib Require DecimalPos.
From stdpp Require Import base list.

Open Scope string_scope.

(** ** Outcomes of a computation *)

(** The exceptions the code can raise.  A message written in the source is
    kept whole; the message of an exception raised by a builtin is kept up
    to the operand it quotes. *)
Inductive exn :=
| ValueError (msg : string)
| TypeError (msg : string)
| AttributeError (msg : string).

(** What a call comes to: a value, an exception, the end of the fuel, or a
    reference to no object (which no Python program can hold). *)
Inductive result (A : Type) :=
| Ok (a : A)
| Raise (e : exn)
| OutOfFuel
| Dangling.

Arguments Ok {A} a.
Arguments Raise {A} e.
Arguments OutOfFuel {A}.
Arguments Dangling {A}.

#[global] Instance result_ret : MRet result := fun A a => Ok a.
#[global] Instance result_bind : MBind result := fun A B f m =>
  match m with
  | Ok a => f a
  | Raise e => Raise e
  | OutOfFuel => OutOfFuel
  | Dangling => Dangling
  end.

Definition returns {A} (m : result A) : bool :=
  match m with Ok _ => true | _ => false end.

(** ** Python [str] over the code points 0..255

    A character is an [ascii], read as the Unicode code point of the same
    number; the predicates below are Python's on that range. *)

Definition ord (c : ascii) : nat := nat_of_ascii c.

Definition between (lo hi n : nat) : bool := (lo <=? n)%nat && (n <=? hi)%nat.

(** [c.isspace()] *)
Definition char_isspace (c : ascii) : bool :=
  let n := ord c in
  between 9 13 n || between 28 32 n || (n =? 133)%nat || (n =? 160)%nat.

(** the decimal digits [0]..[9], the only ones [int] and [float] read *)
Definition char_isdecimal (c : ascii) : bool := between 48 57 (ord c).

(** [c.isdigit()]: the decimal digits and the superscripts 1, 2, 3 *)
Definition char_isdigit (c : ascii) : bool :=
  let n := ord c in
  between 48 57 n || (n =? 178)%nat || (n =? 179)%nat || (n =? 185)%nat.

(** [c.isupper()] *)
Definition char_isupper (c : ascii) : bool :=
  let n := ord c in
  between 65 90 n || between 192 214 n || between 216 222 n.

Fixpoint str_all (p : ascii -> bool) (s : string) : bool :=
  match s with
  | EmptyString => true
  | String c s' => p c && str_all p s'
  end.

(** [s.isdigit()] *)
Definition isdigit (s : string) : bool :=
  match s with
  | EmptyString => false
  | _ => str_all char_isdigit s
  end.

(** [c in s] for a one-character [c] *)
Fixpoint char_in (c : ascii) (s : string) : bool :=
  match s with
  | EmptyString => false
  | String d s' => Ascii.eqb c d || char_in c s'
  end.

(** [s.replace(c, '')] *)
Fixpoint remove_char (c : ascii) (s : string) : string :=
  match s with
  | EmptyString => EmptyString
  | String d s' => if Ascii.eqb d c then remove_char c s' else String d (remove_char c s')
  end.

(** [sep.join(items)] on strings *)
Fixpoint join (sep : string) (items : list string) : string :=
  match items with
  | [] => ""
  | [x] => x
  | x :: rest => x ++ sep ++ join sep rest
  end.

(** [str(x)] for a value that is a string or [None], as an f-string prints it *)
Definition str_opt (x : option string) : string :=
  match x with
  | Some s => s
  | None => "None"
  end.

(** [x == s] *)
Definition tok_eqb (x : option string) (s : string) : bool :=
  match x with
  | Some t => String.eqb t s
  | None => false
  end.

(** [str(n)] for integers *)
Definition str_int (z : Z) : string := NilZero.string_of_int (Z.to_int z).
Definition str_nat (n : nat) : string := NilZero.string_of_uint (Nat.to_uint n).

(** *** Reading numbers: [int(s)] and the grammar of [float(s)] *)

(** the blanks that [int] and [float] strip at both ends *)
Definition char_isblank (c : ascii) : bool :=
  let n := ord c in
  between 9 13 n || (n =? 32)%nat || (n =? 133)%nat || (n =? 160)%nat.

Fixpoint lstrip (s : list ascii) : list ascii :=
  match s with
  | c :: s' => if char_isblank c then lstrip s' else s
  | [] => []
  end.

Definition strip (s : list ascii) : list ascii :=
  rev (lstrip (rev (lstrip s))).

Definition skip_sign (s : list ascii) : bool * list ascii :=
  match s with
  | "-"%char :: r => (true, r)
  | "+"%char :: r => (false, r)
  | _ => (false, s)
  end.

(** [(["_"] digit)*]: the digits read and what follows them *)
Fixpoint scan_digits (s : list ascii) : list ascii * list ascii :=
  match s with
  | c :: s' =>
      if char_isdecimal c then
        let '(ds, r) := scan_digits s' in (c :: ds, r)
      else if Ascii.eqb c "_" then
        match s' with
        | d :: s'' =>
            if char_isdecimal d then
              let '(ds, r) := scan_digits s'' in (d :: ds, r)
            else ([], s)
        | [] => ([], s)
        end
      else ([], s)
  | [] => ([], [])
  end.

(** [digit (["_"] digit)*] *)
Definition digitpart (s : list ascii) : option (list ascii * list ascii) :=
  match s with
  | c :: s' =>
      if char_isdecimal c then
        let '(ds, r) := scan_digits s' in Some (c :: ds, r)
      else None
  | [] => None
  end.

Definition digit_value (c : ascii) : Z := Z.of_nat (ord c - 48).

Definition digits_value (ds : list ascii) : Z :=
  fold_left (fun acc c => (10 * acc + digit_value c)%Z) ds 0%Z.

(** [int(x)], base 10; the interpreter's limit on the number of digits is
    not modelled *)
Definition py_int (x : option string) : result Z :=
  match x with
  | None =>
      Raise (TypeError "int() argument must be a string, a bytes-like object or a real number, not 'NoneType'")
  | Some s =>
      let '(neg, cs) := skip_sign (strip (list_ascii_of_string s)) in
      match digitpart cs with
      | Some (ds, []) =>
          Ok (if neg then (- digits_value ds)%Z else digits_value ds)
      | _ => Raise (ValueError "invalid literal for int() with base 10")
      end
  end.

Definition lower (c : ascii) : ascii :=
  if between 65 90 (ord c) then ascii_of_nat (ord c + 32) else c.

(** [[digitpart] "." digitpart | digitpart ["."]]: what follows the number *)
Definition scan_number (s : list ascii) : option (list ascii) :=
  match digitpart s with
  | Some (_, "."%char :: r) =>
      match digitpart r with
      | Some (_, r') => Some r'
      | None => Some r
      end
  | Some (_, r) => Some r
  | None =>
      match s with
      | "."%char :: r =>
          match digitpart r with
          | Some (_, r') => Some r'
          | None => None
          end
      | _ => None
      end
  end.

Definition scan_exponent (s : list ascii) : bool :=
  match s with
  | [] => true
  | e :: r =>
      if Ascii.eqb (lower e) "e" then
        match digitpart (snd (skip_sign r)) with
        | Some (_, []) => true
        | _ => false
        end
      else false
  end.

(** the strings [float] accepts *)
Definition float_literal (s : string) : bool :=
  let cs := snd (skip_sign (strip (list_ascii_of_string s))) in
  let word := string_of_list_ascii (map lower cs) in
  if String.eqb word "inf" || String.eqb word "infinity" || String.eqb word "nan" then true
  else
    match scan_number cs with
    | Some r => scan_exponent r
    | None => false
    end.

(** Python's binary64 numbers.  Rounding a decimal literal to the nearest
    double and printing the shortest decimal that reads back are outside
    this development: the type of values, the value of an accepted literal
    and [str] of a value are taken as given. *)
Class PyFloat := {
  pyfloat : Type;
  float_value : string -> pyfloat;
  float_str : pyfloat -> string
}.

(** [float(x)] *)
Definition py_float `{PyFloat} (x : option string) : result pyfloat :=
  match x with
  | None => Raise (TypeError "float() argument must be a string or a real number, not 'NoneType'")
  | Some s =>
      if float_literal s then Ok (float_value s)
      else Raise (ValueError "could not convert string to float")
  end.

(** ** Tokenizer *)

(** the inner [while] of [tokenize]: the index after the word starting at [i] *)
Fixpoint scan_word (fuel : nat) (text : string) (i : nat) : nat :=
  match fuel with
  | 0 => i
  | S fuel' =>
      match String.get i text with
      | Some c =>
          if negb (char_in c "[](){},:") && negb (char_isspace c)
          then scan_word fuel' text (i + 1)
          else i
      | None => i
      end
  end.

Fixpoint tokenize_loop (fuel : nat) (text : string) (i : nat) (tokens : list string)
  : result (list string) :=
  match fuel with
  | 0 => OutOfFuel
  | S fuel' =>
      match String.get i text with
      | None => Ok tokens
      | Some char =>
          if char_isspace char then tokenize_loop fuel' text (i + 1) tokens
          else if char_in char "[](),{}" then
            tokenize_loop fuel' text (i + 1) (tokens ++ [String char ""])%list
          else if Ascii.eqb char ":" then
            tokenize_loop fuel' text (i + 1) (tokens ++ [String char ""])%list
          else
            let start := i in
            let i := scan_word (String.length text - i) text i in
            tokenize_loop fuel' text i (tokens ++ [substring start (i - start) text])%list
      end
  end.

(** every turn of the outer loop advances [i], so [len(text) + 1] turns are enough *)
Definition tokenize (text : string) : result (list string) :=
  tokenize_loop (S (String.length text)) text 0 [].

(** the newline character of ['\n'.join] *)
Definition nl : string := String (ascii_of_nat 10) "".

(** [token and token[0].isupper()] *)
Definition starts_upper (token : option string) : bool :=
  match token with
  | Some (String c _) => char_isupper c
  | _ => false
  end.

(** [sep.join(items)] where an item may be [None]: every item has to be a [str] *)
Fixpoint all_str (items : list (option string)) : option (list string) :=
  match items with
  | [] => Some []
  | Some s :: items' =>
      match all_str items' with
      | Some strs => Some (s :: strs)
      | None => None
      end
  | None :: _ => None
  end.

Definition py_join (sep : string) (items : list (option string)) : result string :=
  match all_str items with
  | Some strs => Ok (join sep strs)
  | None => Raise (TypeError "sequence item: expected str instance, NoneType found")
  end.

(** [s + x] where [x] may be [None] *)
Definition py_concat (s : string) (x : option string) : result string :=
  match x with
  | Some t => Ok (s ++ t)
  | None => Raise (TypeError "can only concatenate str (not 'NoneType') to str")
  end.

(** [d.get(key, default)] on a dict literal with string keys *)
Fixpoint dict_find (d : list (string * string)) (key : string) : option string :=
  match d with
  | [] => None
  | (k, v) :: d' => if String.eqb k key then Some v else dict_find d' key
  end.

Definition dict_get (d : list (string * string)) (key default : option string) : option string :=
  match key with
  | None => default
  | Some k =>
      match dict_find d k with
      | Some v => Some v
      | None => default
      end
  end.

Section parseq.

Context {F : PyFloat}.

(** ** AST nodes and the object store *)

(** a reference to an object: its index in the store *)
Abbreviation ref := nat.

(** The node classes, read as the dataclasses they declare (the class
    block of [Symbol] also carries an unfinished [def __init__] line, which
    is not part of any of them).  A child is a reference to the child's
    object; a name or token that ran off the end of the input is [None]. *)
Inductive ASTNode :=
| Symbol (name : option string)
| Integer (value : Z)
| Float (value : pyfloat)
| Boolean (value : bool)
| String (value : option string)
| Function (name : option string) (args : list ref)
| List (elements : list ref)
| Dict (keys values : ref).

(** the object store: [h !! r] is the object behind the reference [r] *)
Abbreviation heap := (list ASTNode).

(** a constructor call: the new object gets the next reference *)
Definition alloc (h : heap) (node : ASTNode) : ref * heap :=
  (length h, (h ++ [node])%list).

(** ** Parser *)

Record Parser := mkParser { tokens : list string; pos : nat }.

Definition current_token (self : Parser) : option string :=
  if (length (tokens self) <=? pos self)%nat then None
  else tokens self !! pos self.

Definition consume (self : Parser) : option string * Parser :=
  let token := current_token self in
  (token, {| tokens := tokens self; pos := pos self + 1 |}).

Definition parse_simple_token (token : option string) (h : heap)
  : result (ref * heap) :=
  match token with
  | None => Raise (AttributeError "'NoneType' object has no attribute 'isdigit'")
  | Some token =>
      if isdigit token then
        value ← py_int (Some token);
        Ok (alloc h (Integer value))
      else if isdigit (remove_char "." token) && char_in "." token then
        value ← py_float (Some token);
        Ok (alloc h (Float value))
      else Ok (alloc h (String (Some token)))
  end.

(** the [while] loop of the [LSymbol] constructor *)
Fixpoint lsymbol_loop (fuel : nat) (self : Parser) (h : heap) (symbols : list ref)
  : result (list ref * Parser * heap) :=
  match fuel with
  | 0 => OutOfFuel
  | S fuel' =>
      if negb (tok_eqb (current_token self) "]") then
        if tok_eqb (current_token self) "," then
          let '(_, self) := consume self in
          lsymbol_loop fuel' self h symbols
        else
          let '(name, self) := consume self in
          let '(r, h) := alloc h (Symbol name) in
          lsymbol_loop fuel' self h (symbols ++ [r])%list
      else Ok (symbols, self, h)
  end.

Definition parse_type_constructor (fuel : nat) (self : Parser) (h : heap)
  : result (ref * Parser * heap) :=
  let '(type_name, self) := consume self in
  if negb (tok_eqb (current_token self) "[") then
    let '(r, h) := alloc h (String type_name) in Ok (r, self, h)
  else
    let '(_, self) := consume self in
    if tok_eqb type_name "Symbol" then
      let '(name, self) := consume self in
      let '(_, self) := consume self in
      let '(r, h) := alloc h (Symbol name) in Ok (r, self, h)
    else if tok_eqb type_name "Int" || tok_eqb type_name "Long" then
      let '(token, self) := consume self in
      value ← py_int token;
      let '(_, self) := consume self in
      let '(r, h) := alloc h (Integer value) in Ok (r, self, h)
    else if tok_eqb type_name "Real" || tok_eqb type_name "Float" then
      let '(token, self) := consume self in
      value ← py_float token;
      let '(_, self) := consume self in
      let '(r, h) := alloc h (Float value) in Ok (r, self, h)
    else if tok_eqb type_name "Bool" then
      let '(token, self) := consume self in
      let value := tok_eqb token "1" in
      let '(_, self) := consume self in
      let '(r, h) := alloc h (Boolean value) in Ok (r, self, h)
    else if tok_eqb type_name "Func" then
      let '(func_name, self) := consume self in
      let '(_, self) := consume self in
      let '(r, h) := alloc h (Function func_name []) in Ok (r, self, h)
    else if tok_eqb type_name "LSymbol" then
      '(symbols, self, h) ← lsymbol_loop fuel self h [];
      let '(_, self) := consume self in
      let '(r, h) := alloc h (List symbols) in Ok (r, self, h)
    else
      let '(content, self) := consume self in
      let '(_, self) := consume self in
      let '(r, h) := alloc h (String (Some (str_opt type_name ++ "[" ++ str_opt content ++ "]"))) in
      Ok (r, self, h).

(** [parse_expression], [parse_list] with its [while] loop, and
    [parse_dict]; [idx] and [eager] are passed along as in the source and
    never read. *)
Fixpoint parse_expression (fuel : nat) (idx : nat) (eager : bool) (self : Parser) (h : heap)
  {struct fuel} : result (ref * Parser * heap) :=
  match fuel with
  | 0 => OutOfFuel
  | S fuel' =>
      let token := current_token self in
      if tok_eqb token "[" then parse_list fuel' eager self h
      else if tok_eqb token "{" then parse_dict fuel' self h
      else if starts_upper token then parse_type_constructor fuel' self h
      else
        let '(token, self) := consume self in
        '(r, h) ← parse_simple_token token h;
        Ok (r, self, h)
  end
with parse_list (fuel : nat) (eager : bool) (self : Parser) (h : heap)
  {struct fuel} : result (ref * Parser * heap) :=
  match fuel with
  | 0 => OutOfFuel
  | S fuel' =>
      let '(_, self) := consume self in
      '(elements, self, h) ← parse_list_loop fuel' eager self h [] 0;
      let '(_, self) := consume self in
      let '(r, h) := alloc h (List elements) in Ok (r, self, h)
  end
with parse_list_loop (fuel : nat) (eager : bool) (self : Parser) (h : heap)
       (elements : list ref) (idx : nat)
  {struct fuel} : result (list ref * Parser * heap) :=
  match fuel with
  | 0 => OutOfFuel
  | S fuel' =>
      if negb (tok_eqb (current_token self) "]") then
        if tok_eqb (current_token self) "," then
          let '(_, self) := consume self in
          parse_list_loop fuel' eager self h elements idx
        else
          '(r, self, h) ← parse_expression fuel' idx eager self h;
          parse_list_loop fuel' eager self h (elements ++ [r])%list (idx + 1)
      else Ok (elements, self, h)
  end
with parse_dict (fuel : nat) (self : Parser) (h : heap)
  {struct fuel} : result (ref * Parser * heap) :=
  match fuel with
  | 0 => OutOfFuel
  | S fuel' =>
      let '(_, self) := consume self in
      '(keys, self, h) ← parse_expression fuel' 0 false self h;
      if negb (tok_eqb (current_token self) ",") then
        Raise (ValueError ("Expected ',' in dict, got " ++ str_opt (current_token self)))
      else
        let '(_, self) := consume self in
        '(values, self, h) ← parse_expression fuel' 0 false self h;
        if negb (tok_eqb (current_token self) "}") then
          Raise (ValueError ("Expected '}' in dict, got " ++ str_opt (current_token self)))
        else
          let '(_, self) := consume self in
          let '(r, h) := alloc h (Dict keys values) in Ok (r, self, h)
  end.

(** [Parser(tokens).parse()], the objects built so far being [h] *)
Definition parse (fuel : nat) (tokens : list string) (h : heap)
  : result (ref * Parser * heap) :=
  parse_expression fuel 0 true {| tokens := tokens; pos := 0 |} h.

(** ** Direct renderer *)

Definition glyph_map_direct : list (string * string) :=
  [("@", "at"); ("!", "bang"); (":", "colon"); ("::", "colon_colon");
   ("-", "dash"); (".", "dot"); ("$", "dollar"); ("#", "hash"); ("?", "query")].

(** [str(node.value)] of a [Float], with [.0] appended when it has no point *)
Definition float_text (value : pyfloat) : string :=
  let value_str := float_str value in
  if negb (char_in "." value_str) then value_str ++ ".0" else value_str.

(** [transform_ast(x) for x in items], run to the end in order, each call
    seeing the store the previous one left *)
Fixpoint transform_each (f : heap -> ref -> result (option string * heap))
    (h : heap) (items : list ref) : result (list (option string) * heap) :=
  match items with
  | [] => Ok ([], h)
  | x :: items' =>
      '(s, h) ← f h x;
      '(strs, h) ← transform_each f h items';
      Ok (s :: strs, h)
  end.

Fixpoint transform_ast (fuel : nat) (h : heap) (node : ref)
  : result (option string * heap) :=
  match fuel with
  | 0 => OutOfFuel
  | S fuel' =>
      match h !! node with
      | None => Dangling
      | Some (Symbol name) => Ok (Some ("`" ++ str_opt name), h)
      | Some (Integer value) => Ok (Some (str_int value), h)
      | Some (Float value) => Ok (Some (float_text value), h)
      | Some (Boolean value) => Ok (Some (if value then "True" else "False"), h)
      | Some (String value) => Ok (value, h)
      | Some (Function name args) =>
          let func_name := dict_get glyph_map_direct name name in
          '(strs, h) ← transform_each (transform_ast fuel') h args;
          args_str ← py_join ", " strs;
          Ok (Some (str_opt func_name ++ "(" ++ args_str ++ ")"), h)
      | Some (List elements) =>
          let regular :=
            '(strs, h) ← transform_each (transform_ast fuel') h elements;
            elements_str ← py_join ", " strs;
            Ok (Some ("[" ++ elements_str ++ "]"), h) in
          match elements with
          | func :: args =>
              match h !! func with
              | None => Dangling
              | Some (Function name _) =>
                  let h := <[func := Function name args]> h in
                  transform_ast fuel' h func
              | Some _ => regular
              end
          | [] => regular
          end
      | Some (Dict keys values) =>
          '(k_str, h) ← transform_ast fuel' h keys;
          '(v_str, h) ← transform_ast fuel' h values;
          Ok (Some ("{" ++ str_opt k_str ++ ": " ++ str_opt v_str ++ "}"), h)
      end
  end.

(** ** Flattening renderer *)

Definition glyph_map_flat : list (string * string) :=
  [("@", "at"); ("!", "bang"); (":", "colon"); ("::", "colon_colon");
   ("-", "dash"); (".", "dot"); ("$", "dollar"); ("#", "hash"); ("?", "query");
   ("_", "underscore")].

(** the state of a [Flattener] run: [temp_counter] and the object store *)
Record Flattener := mkFlattener { temp_counter : nat; store : heap }.

(** the [for] loops of [flatten_ast]: statements are extended and the
    expressions collected, in order *)
Fixpoint flatten_each
    (f : Flattener -> ref -> result (list string * option string * Flattener))
    (self : Flattener) (items : list ref)
  : result (list string * list (option string) * Flattener) :=
  match items with
  | [] => Ok ([], [], self)
  | x :: items' =>
      '(x_stmts, x_expr, self) ← f self x;
      '(stmts, exprs, self) ← flatten_each f self items';
      Ok ((x_stmts ++ stmts)%list, x_expr :: exprs, self)
  end.

Fixpoint flatten_ast (fuel : nat) (self : Flattener) (node : ref)
  : result (list string * option string * Flattener) :=
  match fuel with
  | 0 => OutOfFuel
  | S fuel' =>
      match store self !! node with
      | None => Dangling
      | Some (Symbol name) => Ok ([], Some ("`" ++ str_opt name), self)
      | Some (Integer value) => Ok ([], Some (str_int value), self)
      | Some (Float value) => Ok ([], Some (float_text value), self)
      | Some (Boolean value) => Ok ([], Some (if value then "True" else "False"), self)
      | Some (String value) => Ok ([], value, self)
      | Some (Function name args) =>
          let func_name := dict_get glyph_map_flat name name in
          '(statements, arg_exprs, self) ← flatten_each (flatten_ast fuel') self args;
          args_str ← py_join ", " arg_exprs;
          let self := {| temp_counter := temp_counter self + 1; store := store self |} in
          let temp_name := "temp" ++ str_nat (temp_counter self) in
          let statement := temp_name ++ " = " ++ str_opt func_name ++ "(" ++ args_str ++ ")" in
          Ok ((statements ++ [statement])%list, Some temp_name, self)
      | Some (List elements) =>
          let regular :=
            '(statements, elem_exprs, self) ← flatten_each (flatten_ast fuel') self elements;
            elements_str ← py_join ", " elem_exprs;
            Ok (statements, Some ("[" ++ elements_str ++ "]"), self) in
          match elements with
          | func :: args =>
              match store self !! func with
              | None => Dangling
              | Some (Function name _) =>
                  let self := {| temp_counter := temp_counter self;
                                 store := <[func := Function name args]> (store self) |} in
                  flatten_ast fuel' self func
              | Some _ => regular
              end
          | [] => regular
          end
      | Some (Dict keys values) =>
          '(k_stmts, k_expr, self) ← flatten_ast fuel' self keys;
          '(v_stmts, v_expr, self) ← flatten_ast fuel' self values;
          Ok ((k_stmts ++ v_stmts)%list,
              Some ("{" ++ str_opt k_expr ++ ": " ++ str_opt v_expr ++ "}"), self)
      end
  end.

(** [Flattener.flatten]: the counter starts from zero *)
Definition flatten (fuel : nat) (h : heap) (node : ref)
  : result (list string * option string * Flattener) :=
  flatten_ast fuel {| temp_counter := 0; store := h |} node.

(** ** The two conversions

    [parsed_str] is a [str]; the [bytes] branch only decodes it first. *)

Definition convert_lisp_to_function_calls (fuel : nat) (parsed_str : string)
  : result (option string) :=
  tokens ← tokenize parsed_str;
  '(ast, _, h) ← parse fuel tokens [];
  '(out, _) ← transform_ast fuel h ast;
  Ok out.

(** the layout of the flattened output *)
Definition format_output (statements : list string) (final_expr : option string)
  : result string :=
  match statements with
  | _ :: _ => py_concat (join nl statements ++ nl ++ "result = ") final_expr
  | [] => py_concat "result = " final_expr
  end.

Definition convert_lisp_to_flat_statements (fuel : nat) (parsed_str : string)
  : result string :=
  tokens ← tokenize parsed_str;
  '(ast, _, h) ← parse fuel tokens [];
  '(statements, final_expr, _) ← flatten fuel h ast;
  format_output statements final_expr.

(** ** The tree a store holds

    The parser builds every node once and hands it to one parent, so what
    it leaves in the store is a tree.  [tree] is that tree as a value;
    [render] and [flat] are the two renderers read off it, a [List] headed
    by a [Function] being a call of the head on the other elements. *)

#[warnings="-register-all"]
Inductive tree :=
| TSymbol (name : option string)
| TInteger (value : Z)
| TFloat (value : pyfloat)
| TBoolean (value : bool)
| TString (value : string)
| TFunction (name : option string)
| TList (elements : list tree)
| TDict (keys values : tree).

Definition call_text (glyph_map : list (string * string)) (name : option string)
    (args : list string) : string :=
  str_opt (dict_get glyph_map name name) ++ "(" ++ join ", " args ++ ")".

Fixpoint render (t : tree) : string :=
  match t with
  | TSymbol name => "`" ++ str_opt name
  | TInteger value => str_int value
  | TFloat value => float_text value
  | TBoolean value => if value then "True" else "False"
  | TString value => value
  | TFunction name => call_text glyph_map_direct name []
  | TList (TFunction name :: args) => call_text glyph_map_direct name (map render args)
  | TList elements => "[" ++ join ", " (map render elements) ++ "]"
  | TDict keys values => "{" ++ render keys ++ ": " ++ render values ++ "}"
  end.

Definition flat_each (f : tree -> nat -> list string * string * nat)
  : list tree -> nat -> list string * list string * nat :=
  fix go (items : list tree) (c : nat) :=
    match items with
    | [] => ([], [], c)
    | x :: items' =>
        let '(x_stmts, x_expr, c) := f x c in
        let '(stmts, exprs, c) := go items' c in
        ((x_stmts ++ stmts)%list, x_expr :: exprs, c)
    end.

(** the statement a call appends and the temporary it returns *)
Definition flat_call (name : option string) (r : list string * list string * nat)
  : list string * string * nat :=
  let '(stmts, exprs, c) := r in
  let temp_name := "temp" ++ str_nat (c + 1) in
  let statement := temp_name ++ " = " ++ call_text glyph_map_flat name exprs in
  ((stmts ++ [statement])%list, temp_name, c + 1).

Fixpoint flat (t : tree) (c : nat) : list string * string * nat :=
  match t with
  | TSymbol name => ([], "`" ++ str_opt name, c)
  | TInteger value => ([], str_int value, c)
  | TFloat value => ([], float_text value, c)
  | TBoolean value => ([], if value then "True" else "False", c)
  | TString value => ([], value, c)
  | TFunction name => flat_call name ([], [], c)
  | TList (TFunction name :: args) => flat_call name (flat_each flat args c)
  | TList elements =>
      let '(stmts, exprs, c) := flat_each flat elements c in
      (stmts, "[" ++ join ", " exprs ++ "]", c)
  | TDict keys values =>
      let '(k_stmts, k_expr, c) := flat keys c in
      let '(v_stmts, v_expr, c) := flat values c in
      ((k_stmts ++ v_stmts)%list, "{" ++ k_expr ++ ": " ++ v_expr ++ "}", c)
  end.

(** the number of calls in a tree: one per [Function] node *)
Fixpoint calls (t : tree) : nat :=
  match t with
  | TFunction _ => 1
  | TList elements => list_sum (map calls elements)
  | TDict keys values => calls keys + calls values
  | _ => 0
  end.

(** fuel that is enough to render a tree *)
Fixpoint size (t : tree) : nat :=
  match t with
  | TList elements => S (S (list_sum (map size elements)))
  | TDict keys values => S (size keys + size values)
  | _ => 1
  end.

(** [holds h ctx lo r t]: the objects [lo..r] of [h] are the tree [t],
    rooted at [r], children before parents.  The [args] of a [Function]
    are empty, or the list [ctx] its enclosing [List] has after it once a
    renderer has assigned them. *)
Inductive holds (h : heap) : list ref -> ref -> ref -> tree -> Prop :=
| holds_Symbol ctx r name :
    h !! r = Some (Symbol name) -> holds h ctx r r (TSymbol name)
| holds_Integer ctx r value :
    h !! r = Some (Integer value) -> holds h ctx r r (TInteger value)
| holds_Float ctx r value :
    h !! r = Some (Float value) -> holds h ctx r r (TFloat value)
| holds_Boolean ctx r value :
    h !! r = Some (Boolean value) -> holds h ctx r r (TBoolean value)
| holds_String ctx r value :
    h !! r = Some (String (Some value)) -> holds h ctx r r (TString value)
| holds_Function ctx r name args :
    h !! r = Some (Function name args) -> args = [] \/ args = ctx ->
    holds h ctx r r (TFunction name)
| holds_List ctx lo r elements ts :
    h !! r = Some (List elements) ->
    holds_chain h (tail elements) lo elements ts r ->
    holds h ctx lo r (TList ts)
| holds_Dict ctx lo r keys values tk tv :
    h !! r = Some (Dict keys values) ->
    holds h [] lo keys tk -> holds h [] (S keys) values tv -> r = S values ->
    holds h ctx lo r (TDict tk tv)
with holds_chain (h : heap) : list ref -> ref -> list ref -> list tree -> ref -> Prop :=
| chain_nil ctx lo : holds_chain h ctx lo [] [] lo
| chain_cons ctx lo e es t ts hi :
    holds h ctx lo e t -> holds_chain h [] (S e) es ts hi ->
    holds_chain h ctx lo (e :: es) (t :: ts) hi.

(** two stores that differ only inside [lo..hi-1] *)
Definition agree_outside (lo hi : nat) (h h' : heap) : Prop :=
  length h' = length h /\ forall i, i < lo \/ hi <= i -> h' !! i = h !! i.

(** ** Vocabulary of the statements *)

(** a [Function] node, which makes the list it heads a call *)
Definition is_call_head (t : tree) : bool :=
  match t with TFunction _ => true | _ => false end.

(** the direct renderer on a store that holds [t]: it returns [render t]
    and leaves a store that still holds [t] *)
Definition transform_spec (t : tree) : Prop :=
  forall h lo r fuel, holds h [] lo r t -> size t <= fuel ->
  exists h', transform_ast fuel h r = Ok (Some (render t), h')
    /\ holds h' [] lo r t /\ agree_outside lo (S r) h h'.

(** the flattening renderer on a store that holds [t]: it returns what
    [flat t] gives from the same counter *)
Definition flatten_spec (t : tree) : Prop :=
  forall c h lo r fuel stmts e c',
  holds h [] lo r t -> size t <= fuel -> flat t c = (stmts, e, c') ->
  exists h', flatten_ast fuel {| temp_counter := c; store := h |} r
             = Ok (stmts, Some e, {| temp_counter := c'; store := h' |})
    /\ holds h' [] lo r t /\ agree_outside lo (S r) h h'.

(** [built h h' r t]: going from [h] to [h'] only added objects, the last
    of them is [r], and the added objects are the tree [t], unrendered *)
Definition built (h h' : heap) (r : ref) (t : tree) : Prop :=
  (exists new, h' = (h ++ new)%list) /\ S r = length h' /\
  forall ctx, holds h' ctx (length h) r t.

(** the [k]-th statement, counted from 1, binds [temp<c+k>] *)
Definition numbered (c : nat) (stmts : list string) : Prop :=
  forall k, k < length stmts ->
  exists rhs, stmts !! k = Some ("temp" ++ str_nat (c + k + 1) ++ " = " ++ rhs).

(** a tree that is flattened into a temporary: a [Function], or a list
    headed by one *)
Definition is_call (t : tree) : bool :=
  match t with
  | TFunction _ | TList (TFunction _ :: _) => true
  | _ => false
  end.

(** the statements of [flat t]: one per call, numbered from the counter *)
Definition mints_spec (t : tree) : Prop :=
  forall c stmts e c', flat t c = (stmts, e, c') ->
  length stmts = calls t /\ c' = c + length stmts /\ numbered c stmts /\
  (is_call t = true -> e = "temp" ++ str_nat c' /\ 0 < length stmts).

(** the parser never rewrites its tokens and never moves backwards *)
Definition keeps (self self' : Parser) : Prop :=
  tokens self' = tokens self /\ pos self <= pos self'.

(** the node and the store of a parse, without the parser state *)
Definition ast_of (m : result (ref * Parser * heap)) : result (ref * heap) :=
  '(r, _, h) ← m; Ok (r, h).

(** the parser standing after the tokens [pre], with [rest] still to read *)
Definition at_pos (pre rest : list string) : Parser :=
  {| tokens := (pre ++ rest)%list; pos := length pre |}.

(** what can follow an element of a list *)
Definition ends_item (post : list string) : Prop :=
  exists x rest, post = x :: rest /\ (x = "," \/ x = "]").

(** [e] is the token sequence of one expression: wherever it stands before
    a comma or a closing bracket, [parse_expression] reads exactly [e] and
    builds the tree [t] *)
Definition element (e : list string) (t : tree) : Prop :=
  (exists x e', e = x :: e' /\ x <> "," /\ x <> "]") /\
  forall pre post (h : heap) idx eager, ends_item post ->
    exists fuel r h',
      parse_expression fuel idx eager (at_pos pre (e ++ post)%list) h
      = Ok (r, at_pos (pre ++ e)%list post, h')
      /\ built h h' r t.

(** the tokens between the brackets: every element is followed by one
    comma and [n] more, the last one by [n] commas *)
Fixpoint body (items : list (list string * nat)) : list string :=
  match items with
  | [] => []
  | (e, n) :: rest =>
      (e ++ match rest with
            | [] => replicate n ","
            | _ => "," :: replicate n ","
            end ++ body rest)%list
  end.

(** the tokens between the brackets of an [LSymbol]: every name is followed
    by [n] commas *)
Fixpoint symbol_body (syms : list (string * nat)) : list string :=
  match syms with
  | [] => []
  | (w, n) :: rest => (w :: replicate n "," ++ symbol_body rest)%list
  end.

(** a non-empty run of the digits [0]..[9] *)
Definition decimal_str (s : string) : bool :=
  match s with
  | EmptyString => false
  | _ => str_all char_isdecimal s
  end.

(** [s.count(c)] *)
Fixpoint count_char (c : ascii) (s : string) : nat :=
  match s with
  | EmptyString => 0
  | String.String d s' => (if Ascii.eqb d c then 1 else 0) + count_char c s'
  end.

(** exactly one point, and digits [0]..[9] besides, at least one *)
Definition float_shape (s : string) : bool :=
  (count_char "." s =? 1)%nat && decimal_str (remove_char "." s).

(** a token that passes the digit tests of [parse_simple_token] and is
    neither of the two shapes above: digits with two points or more, or
    with a superscript digit *)
Definition off_shape (s : string) : bool :=
  isdigit (remove_char "." s) && negb (decimal_str s) && negb (float_shape s).

(** ** Vocabulary of the further properties *)

(** a character of a word: no bracket, brace, parenthesis, comma or colon,
    and no blank *)
Definition word_char (c : ascii) : bool :=
  negb (char_in c "[](){},:") && negb (char_isspace c).

(** the word read so far, as a token if there is one *)
Definition flush (cur : string) : list string :=
  match cur with
  | EmptyString => []
  | _ => [cur]
  end.

(** the tokens of [s], character by character, [cur] being the word read
    so far *)
Fixpoint lex (s cur : string) : list string :=
  match s with
  | EmptyString => flush cur
  | String.String c s' =>
      if word_char c then lex s' (cur ++ String.String c "")
      else if char_isspace c then (flush cur ++ lex s' "")%list
      else (flush cur ++ String.String c "" :: lex s' "")%list
  end.

(** the longest run of word characters [s] starts with, and what follows *)
Fixpoint take_word (s : string) : string :=
  match s with
  | EmptyString => ""
  | String.String c s' => if word_char c then String.String c (take_word s') else ""
  end.

Fixpoint drop_word (s : string) : string :=
  match s with
  | EmptyString => ""
  | String.String c s' => if word_char c then drop_word s' else s
  end.

(** [s] without its blanks *)
Fixpoint remove_blanks (s : string) : string :=
  match s with
  | EmptyString => ""
  | String.String c s' =>
      if char_isspace c then remove_blanks s' else String.String c (remove_blanks s')
  end.

(** a token as [tokenize] makes them: one structural character, or a
    non-empty word *)
Definition token_shape (t : string) : Prop :=
  (exists c, t = String.String c "" /\ word_char c = false /\ char_isspace c = false) \/
  (t <> "" /\ str_all word_char t = true).

(** an object as the parser leaves it: the references of a [List] or a
    [Dict] are to objects made before it and not before [lo], and a
    [Function] has no argument *)
Definition fresh_node (h : heap) (lo i : nat) : Prop :=
  match h !! i with
  | Some (Function _ args) => args = []
  | Some (List elements) => Forall (fun e => lo <= e < i) elements
  | Some (Dict keys values) => lo <= keys /\ keys < values /\ values < i
  | Some _ => True
  | None => False
  end.

Definition fresh_from (lo : nat) (h : heap) : Prop :=
  forall i, lo <= i < length h -> fresh_node h lo i.

(** two token lists that are the same up to the index [n], included *)
Definition same_to (n : nat) (ts ts' : list string) : Prop :=
  forall q, q <= n -> ts' !! q = ts !! q.

(** what a renderer may do to a store: give a [Function] object the
    elements that follow it in a [List] it heads; the number of objects
    and every other object stay as they are *)
Definition args_only (h h' : heap) : Prop :=
  length h' = length h /\
  forall i,
    match h !! i with
    | Some (Function name args) =>
        exists args', h' !! i = Some (Function name args') /\
          (args' = args \/ exists j, h !! j = Some (List (i :: args')))
    | other => h' !! i = other
    end.

(** a store without a [Function] object *)
Definition no_function (h : heap) : Prop :=
  forall i name args, h !! i <> Some (Function name args).

(** the names [parse_type_constructor] knows *)
Definition known_constructor (name : string) : bool :=
  existsb (String.eqb name)
    ["Symbol"; "Int"; "Long"; "Real"; "Float"; "Bool"; "Func"; "LSymbol"].

End parseq.

Abbreviation heap := (list ASTNode).
Abbreviation ref := nat.

(** For closed examples the float operations need an interpretation; the
    examples below contain no float, and this one keeps a value as the
    text of its literal. *)
Definition float_as_text : PyFloat :=
  {| pyfloat := string; float_value := fun s => s; float_str := fun s => s |}.

(** the tokens of [[Func[min], a]], the store they parse to and the parser
    after them *)
Definition sample_tokens : list string := ["["; "Func"; "["; "min"; "]"; ","; "a"; "]"].

Definition sample_store : list (ASTNode (F := float_as_text)) :=
  [Function (Some "min") []; String (Some "a"); List [0; 1]].

Definition sample_parser : Parser := {| tokens := sample_tokens; pos := 8 |}.

(** * Proofs *)

Section proofs.

Context {F : PyFloat}.

Scheme holds_mut := Minimality for holds Sort Prop
  with holds_chain_mut := Minimality for holds_chain Sort Prop.
Combined Scheme holds_mutind from holds_mut, holds_chain_mut.

Lemma tree_nested_ind (P : tree -> Prop) :
  (forall name, P (TSymbol name)) ->
  (forall value, P (TInteger value)) ->
  (forall value, P (TFloat value)) ->
  (forall value, P (TBoolean value)) ->
  (forall value, P (TString value)) ->
  (forall name, P (TFunction name)) ->
  (forall elements, Forall P elements -> P (TList elements)) ->
  (forall keys values, P keys -> P values -> P (TDict keys values)) ->
  forall t, P t.
Proof.
  intros HSy HI HFl HB HSt HFu HL HD.
  fix IH 1. intros [name|v|v|v|v|name|elements|k v].
  - apply HSy.
  - apply HI.
  - apply HFl.
  - apply HB.
  - apply HSt.
  - apply HFu.
  - apply HL. induction elements as [|x xs IHxs]; constructor; [apply IH|exact IHxs].
  - apply HD; apply IH.
Qed.

Lemma all_str_Some (g : tree -> string) (ts : list tree) :
  all_str (map (fun t => Some (g t)) ts) = Some (map g ts).
Proof. induction ts as [|t ts IH]; simpl; [done|]. by rewrite IH. Qed.

Lemma py_join_Some sep (g : tree -> string) (ts : list tree) :
  py_join sep (map (fun t => Some (g t)) ts) = Ok (join sep (map g ts)).
Proof. unfold py_join. by rewrite all_str_Some. Qed.

Lemma holds_bounds (h : heap) :
  (forall ctx lo r t, holds h ctx lo r t -> lo <= r) /\
  (forall ctx lo es ts hi, holds_chain h ctx lo es ts hi -> lo <= hi).
Proof. apply holds_mutind; intros; lia. Qed.

Lemma holds_frame (h : heap) :
  (forall ctx lo r t, holds h ctx lo r t ->
     forall h', (forall i, lo <= i <= r -> h' !! i = h !! i) -> holds h' ctx lo r t) /\
  (forall ctx lo es ts hi, holds_chain h ctx lo es ts hi ->
     forall h', (forall i, lo <= i < hi -> h' !! i = h !! i) -> holds_chain h' ctx lo es ts hi).
Proof.
  apply holds_mutind.
  - intros ctx r name Hr h' Hh. constructor. rewrite Hh; [done|lia].
  - intros ctx r v Hr h' Hh. constructor. rewrite Hh; [done|lia].
  - intros ctx r v Hr h' Hh. constructor. rewrite Hh; [done|lia].
  - intros ctx r v Hr h' Hh. constructor. rewrite Hh; [done|lia].
  - intros ctx r v Hr h' Hh. constructor. rewrite Hh; [done|lia].
  - intros ctx r name args Hr Hargs h' Hh. econstructor; [|exact Hargs]. rewrite Hh; [done|lia].
  - intros ctx lo r es ts Hr Hch IH h' Hh.
    pose proof (proj2 (holds_bounds h) _ _ _ _ _ Hch).
    econstructor.
    + rewrite Hh; [exact Hr|lia].
    + apply IH. intros i Hi. apply Hh. lia.
  - intros ctx lo r k v tk tv Hr Hk IHk Hv IHv -> h' Hh.
    pose proof (proj1 (holds_bounds h) _ _ _ _ Hk).
    pose proof (proj1 (holds_bounds h) _ _ _ _ Hv).
    econstructor; [rewrite Hh; [exact Hr|lia]| | |done].
    + apply IHk. intros i Hi. apply Hh. lia.
    + apply IHv. intros i Hi. apply Hh. lia.
  - intros ctx lo h' Hh. constructor.
  - intros ctx lo e es t ts hi He IHe Hes IHes h' Hh.
    pose proof (proj1 (holds_bounds h) _ _ _ _ He).
    pose proof (proj2 (holds_bounds h) _ _ _ _ _ Hes).
    constructor.
    + apply IHe. intros i Hi. apply Hh. lia.
    + apply IHes. intros i Hi. apply Hh. lia.
Qed.

Lemma holds_ctx h ctx ctx' lo r t :
  holds h ctx lo r t -> is_call_head t = false -> holds h ctx' lo r t.
Proof.
  intros H Hne. destruct H; try discriminate; econstructor; eauto.
Qed.

Lemma agree_outside_refl lo hi (h : heap) : agree_outside lo hi h h.
Proof. by split. Qed.

Lemma agree_outside_trans lo hi lo1 hi1 lo2 hi2 (h1 h2 h3 : heap) :
  agree_outside lo1 hi1 h1 h2 -> agree_outside lo2 hi2 h2 h3 ->
  lo <= lo1 -> lo <= lo2 -> hi1 <= hi -> hi2 <= hi ->
  agree_outside lo hi h1 h3.
Proof.
  intros [L1 A1] [L2 A2] ????. split; [congruence|].
  intros i Hi. rewrite A2, A1; [done|lia|lia].
Qed.

(** ** The tokenizer ends *)

Lemma get_lt i (text : string) c : String.get i text = Some c -> i < String.length text.
Proof.
  revert i. induction text as [|d text IH]; intros [|i]; simpl; try done; try lia.
  intros H. apply IH in H. lia.
Qed.

Lemma scan_word_ge fuel : forall text i, i <= scan_word fuel text i.
Proof.
  induction fuel as [|fuel IH]; intros text i; cbn [scan_word]; [lia|].
  destruct (String.get i text) as [c|]; [|lia].
  destruct (negb (char_in c "[](){},:") && negb (char_isspace c)); [|lia].
  pose proof (IH text (i + 1)). lia.
Qed.

Lemma scan_word_advances (text : string) i c :
  String.get i text = Some c ->
  char_isspace c = false -> char_in c "[](),{}" = false -> Ascii.eqb c ":" = false ->
  i < scan_word (String.length text - i) text i.
Proof.
  intros Hget Hs Hb Hc. pose proof (get_lt _ _ _ Hget) as Hlt.
  destruct (String.length text - i) as [|n] eqn:Hn; [lia|].
  cbn [scan_word]. rewrite Hget.
  replace (char_in c "[](){},:") with false.
  - rewrite Hs. cbn [negb andb]. pose proof (scan_word_ge n text (i + 1)). lia.
  - cbn [char_in] in *.
    repeat match goal with
           | H : _ || _ = false |- _ => apply orb_false_elim in H as [? ?]
           end.
    repeat match goal with
           | H : Ascii.eqb c _ = false |- _ => rewrite H; clear H
           end.
    done.
Qed.

(** [tokenize] returns its tokens for every text: the lexer cannot fail *)
Lemma tokenize_loop_total fuel : forall text i tokens,
  String.length text - i < fuel ->
  exists r, tokenize_loop fuel text i tokens = Ok r.
Proof.
  induction fuel as [|fuel IH]; intros text i tokens Hfuel; [lia|].
  cbn [tokenize_loop]. destruct (String.get i text) as [c|] eqn:Hget; [|by eexists].
  pose proof (get_lt _ _ _ Hget) as Hlt.
  destruct (char_isspace c) eqn:Hs; [apply IH; lia|].
  destruct (char_in c "[](),{}") eqn:Hb; [apply IH; lia|].
  destruct (Ascii.eqb c ":") eqn:Hc; [apply IH; lia|].
  pose proof (scan_word_advances text i c Hget Hs Hb Hc).
  apply IH. lia.
Qed.

Lemma tokenize_total (text : string) : exists tokens, tokenize text = Ok tokens.
Proof. apply tokenize_loop_total. lia. Qed.

(** ** The direct renderer follows [render] *)

Lemma transform_each_chain (ts : list tree) :
  Forall transform_spec ts ->
  forall es h lo hi fuel, holds_chain h [] lo es ts hi ->
  list_sum (map size ts) <= fuel ->
  exists h', transform_each (transform_ast fuel) h es
             = Ok (map (fun t => Some (render t)) ts, h')
    /\ holds_chain h' [] lo es ts hi /\ agree_outside lo hi h h'.
Proof.
  induction 1 as [|t ts Ht Hts IH]; intros es h lo hi fuel Hch Hfuel.
  - inversion Hch; subst. exists h. simpl. repeat split; [constructor|apply agree_outside_refl..].
  - inversion Hch as [|? ? e es' ? ? ? He Hes]; subst. simpl in Hfuel.
    destruct (Ht h lo e fuel He ltac:(lia)) as (h1 & E1 & He1 & A1).
    pose proof (proj1 (holds_bounds h) _ _ _ _ He) as Ble.
    pose proof (proj2 (holds_bounds h) _ _ _ _ _ Hes) as Bes.
    assert (Hes1 : holds_chain h1 [] (S e) es' ts hi).
    { apply (proj2 (holds_frame h) _ _ _ _ _ Hes). intros i Hi. apply A1. lia. }
    destruct (IH es' h1 (S e) hi fuel Hes1 ltac:(lia)) as (h2 & E2 & Hes2 & A2).
    exists h2. simpl. rewrite E1. simpl. rewrite E2. simpl. split; [done|]. split.
    + constructor; [|done].
      apply (proj1 (holds_frame h1) _ _ _ _ He1). intros i Hi. apply A2. lia.
    + eapply agree_outside_trans; eauto; lia.
Qed.

Lemma render_list_regular (t : tree) (ts : list tree) :
  is_call_head t = false ->
  render (TList (t :: ts)) = "[" ++ join ", " (map render (t :: ts)) ++ "]".
Proof. by destruct t. Qed.

Lemma holds_lookup h ctx lo r t :
  holds h ctx lo r t -> exists node, h !! r = Some node /\
    match node with Function _ _ => is_call_head t = true | _ => is_call_head t = false end.
Proof. destruct 1; eexists; (split; [eassumption|done]). Qed.

Lemma transform_ast_render (t : tree) : transform_spec t.
Proof.
  induction t as [name|v|v|v|v|name|ts IH|tk tv IHk IHv] using tree_nested_ind;
    intros h lo r fuel Hh Hfuel; simpl in Hfuel;
    (destruct fuel as [|fuel]; [lia|]).
  - inversion Hh; subst. exists h. simpl.
    match goal with H : h !! _ = Some _ |- _ => rewrite H end.
    split; [done|]. split; [done|]. apply agree_outside_refl.
  - inversion Hh; subst. exists h. simpl.
    match goal with H : h !! _ = Some _ |- _ => rewrite H end.
    split; [done|]. split; [done|]. apply agree_outside_refl.
  - inversion Hh; subst. exists h. simpl.
    match goal with H : h !! _ = Some _ |- _ => rewrite H end.
    split; [done|]. split; [done|]. apply agree_outside_refl.
  - inversion Hh; subst. exists h. simpl.
    match goal with H : h !! _ = Some _ |- _ => rewrite H end.
    split; [done|]. split; [done|]. apply agree_outside_refl.
  - inversion Hh; subst. exists h. simpl.
    match goal with H : h !! _ = Some _ |- _ => rewrite H end.
    split; [done|]. split; [done|]. apply agree_outside_refl.
  - inversion Hh as [| | | | |? ? ? args Hr Hargs| |]; subst.
    assert (args = []) as -> by (by destruct Hargs).
    exists h. simpl. rewrite Hr. simpl.
    split; [done|]. split; [done|]. apply agree_outside_refl.
  - inversion Hh as [| | | | | |? ? ? es ? Hr Hch|]; subst.
    destruct Hch as [ctx lo|ctx lo e es t ts hi He Hes].
    + exists h. simpl. rewrite Hr. simpl.
      split; [done|]. split; [done|]. apply agree_outside_refl.
    + simpl in Hfuel. simpl tail in He.
      pose proof (proj1 (holds_bounds h) _ _ _ _ He) as Ble.
      pose proof (proj2 (holds_bounds h) _ _ _ _ _ Hes) as Bes.
      destruct (holds_lookup _ _ _ _ _ He) as (node & He0 & Hkind).
      inversion IH as [|? ? IHt IHts]; subst.
      destruct (is_call_head t) eqn:Hhead.
      * destruct t; try discriminate.
        inversion He as [| | | | |? ? ? args0 He1 _| |]; subst.
        destruct fuel as [|fuel]; [lia|].
        set (h1 := <[e := Function name es]> h).
        assert (Le : e < length h) by (eapply lookup_lt_Some; eauto).
        assert (Hes1 : holds_chain h1 [] (S e) es ts hi).
        { apply (proj2 (holds_frame h) _ _ _ _ _ Hes). intros i Hi.
          unfold h1. apply list_lookup_insert_ne. lia. }
        destruct (transform_each_chain ts IHts es h1 (S e) hi fuel Hes1 ltac:(simpl in Hfuel; lia))
          as (h2 & E2 & Hes2 & A2).
        exists h2. split; [|split].
        -- cbn [transform_ast]. rewrite Hr, He1. fold h1.
           cbn [transform_ast].
           replace (h1 !! e) with (Some (Function name es))
             by (symmetry; apply list_lookup_insert_eq; lia).
           rewrite E2. simpl. rewrite py_join_Some. done.
        -- destruct A2 as [L2 A2].
           econstructor.
           ++ rewrite A2 by lia. subst h1. rewrite list_lookup_insert_ne by lia. exact Hr.
           ++ constructor; [|exact Hes2].
              econstructor; [|right; reflexivity].
              rewrite A2 by lia. unfold h1. apply list_lookup_insert_eq. lia.
        -- destruct A2 as [L2 A2]. split.
           ++ rewrite L2. unfold h1. apply length_insert.
           ++ intros i Hi. rewrite A2 by lia. unfold h1.
              apply list_lookup_insert_ne. lia.
      * assert (Hch : holds_chain h [] lo (e :: es) (t :: ts) hi).
        { constructor; [|done]. eapply holds_ctx; eauto. }
        destruct (transform_each_chain (t :: ts) IH (e :: es) h lo hi fuel Hch ltac:(simpl; lia))
          as (h2 & E2 & Hes2 & A2).
        exists h2. split; [|split].
        -- cbn [transform_ast]. rewrite Hr, He0.
           rewrite E2. cbn [mbind result_bind]. rewrite py_join_Some.
           rewrite render_list_regular by done.
           destruct node; try done.
        -- destruct A2 as [L2 A2].
           inversion Hes2; subst.
           econstructor; [rewrite A2 by lia; exact Hr|].
           constructor; [|done]. eapply holds_ctx; eauto.
        -- destruct A2 as [L2 A2]. split; [done|]. intros i Hi. apply A2. lia.
  - inversion Hh as [| | | | | | |? ? ? k v ? ? Hr Hk Hv Hrv]; subst.
    pose proof (proj1 (holds_bounds h) _ _ _ _ Hk) as Bk.
    pose proof (proj1 (holds_bounds h) _ _ _ _ Hv) as Bv.
    destruct (IHk h lo k fuel Hk ltac:(lia)) as (h1 & E1 & Hk1 & A1).
    assert (Hv1 : holds h1 [] (S k) v tv).
    { apply (proj1 (holds_frame h) _ _ _ _ Hv). intros i Hi. apply A1. lia. }
    destruct (IHv h1 (S k) v fuel Hv1 ltac:(lia)) as (h2 & E2 & Hv2 & A2).
    exists h2. split; [|split].
    + cbn [transform_ast]. rewrite Hr, E1. cbn [mbind result_bind]. rewrite E2. done.
    + econstructor; [| |exact Hv2|done].
      * destruct A1 as [_ A1], A2 as [_ A2]. rewrite A2, A1 by lia. exact Hr.
      * apply (proj1 (holds_frame h1) _ _ _ _ Hk1). intros i Hi. apply A2. lia.
    + eapply agree_outside_trans; eauto; lia.
Qed.

(** ** The flattening renderer follows [flat] *)

Lemma py_join_map_Some sep (strs : list string) :
  py_join sep (map Some strs) = Ok (join sep strs).
Proof.
  unfold py_join. replace (all_str (map Some strs)) with (Some strs); [done|].
  induction strs as [|x xs IH]; simpl; [done|]. by rewrite <- IH.
Qed.

Lemma flatten_each_chain (ts : list tree) :
  Forall flatten_spec ts ->
  forall es c h lo hi fuel stmts exprs c', holds_chain h [] lo es ts hi ->
  list_sum (map size ts) <= fuel ->
  flat_each flat ts c = (stmts, exprs, c') ->
  exists h', flatten_each (flatten_ast fuel) {| temp_counter := c; store := h |} es
             = Ok (stmts, map Some exprs, {| temp_counter := c'; store := h' |})
    /\ holds_chain h' [] lo es ts hi /\ agree_outside lo hi h h'.
Proof.
  induction 1 as [|t ts Ht Hts IH]; intros es c h lo hi fuel stmts exprs c' Hch Hfuel Hflat.
  - inversion Hch; subst. simpl in Hflat. injection Hflat as <- <- <-.
    exists h. simpl. split; [done|]. split; [constructor|apply agree_outside_refl].
  - inversion Hch as [|? ? e es' ? ? ? He Hes]; subst. simpl in Hfuel.
    simpl in Hflat.
    destruct (flat t c) as [[s1 e1] c1] eqn:Ft.
    destruct (flat_each flat ts c1) as [[s2 e2] c2] eqn:Fts.
    injection Hflat as <- <- <-.
    destruct (Ht c h lo e fuel s1 e1 c1 He ltac:(lia) Ft) as (h1 & E1 & He1 & A1).
    pose proof (proj1 (holds_bounds h) _ _ _ _ He) as Ble.
    pose proof (proj2 (holds_bounds h) _ _ _ _ _ Hes) as Bes.
    assert (Hes1 : holds_chain h1 [] (S e) es' ts hi).
    { apply (proj2 (holds_frame h) _ _ _ _ _ Hes). intros i Hi. apply A1. lia. }
    destruct (IH es' c1 h1 (S e) hi fuel s2 e2 c2 Hes1 ltac:(lia) Fts) as (h2 & E2 & Hes2 & A2).
    exists h2. cbn [flatten_each]. rewrite E1. cbn [mbind result_bind]. rewrite E2.
    split; [done|]. split.
    + constructor; [|done].
      apply (proj1 (holds_frame h1) _ _ _ _ He1). intros i Hi. apply A2. lia.
    + eapply agree_outside_trans; eauto; lia.
Qed.

Lemma flat_list_regular (t : tree) (ts : list tree) (c : nat) :
  is_call_head t = false ->
  flat (TList (t :: ts)) c =
    let '(stmts, exprs, c) := flat_each flat (t :: ts) c in
    (stmts, "[" ++ join ", " exprs ++ "]", c).
Proof. by destruct t. Qed.

Lemma flatten_ast_flat (t : tree) : flatten_spec t.
Proof.
  induction t as [name|v|v|v|v|name|ts IH|tk tv IHk IHv] using tree_nested_ind;
    intros c h lo r fuel stmts ex c' Hh Hfuel Hflat; simpl in Hfuel;
    (destruct fuel as [|fuel]; [lia|]).
  - inversion Hh; subst. injection Hflat as <- <- <-. exists h. simpl.
    match goal with H : h !! _ = Some _ |- _ => rewrite H end.
    split; [done|]. split; [done|]. apply agree_outside_refl.
  - inversion Hh; subst. injection Hflat as <- <- <-. exists h. simpl.
    match goal with H : h !! _ = Some _ |- _ => rewrite H end.
    split; [done|]. split; [done|]. apply agree_outside_refl.
  - inversion Hh; subst. injection Hflat as <- <- <-. exists h. simpl.
    match goal with H : h !! _ = Some _ |- _ => rewrite H end.
    split; [done|]. split; [done|]. apply agree_outside_refl.
  - inversion Hh; subst. injection Hflat as <- <- <-. exists h. simpl.
    match goal with H : h !! _ = Some _ |- _ => rewrite H end.
    split; [done|]. split; [done|]. apply agree_outside_refl.
  - inversion Hh; subst. injection Hflat as <- <- <-. exists h. simpl.
    match goal with H : h !! _ = Some _ |- _ => rewrite H end.
    split; [done|]. split; [done|]. apply agree_outside_refl.
  - inversion Hh as [| | | | |? ? ? args Hr Hargs| |]; subst.
    assert (args = []) as -> by (by destruct Hargs).
    injection Hflat as <- <- <-.
    exists h. cbn [flatten_ast store]. rewrite Hr. simpl.
    split; [done|]. split; [done|]. apply agree_outside_refl.
  - inversion Hh as [| | | | | |? ? ? es ? Hr Hch|]; subst.
    destruct Hch as [ctx lo|ctx lo e es t ts hi He Hes].
    + injection Hflat as <- <- <-. exists h. cbn [flatten_ast store]. rewrite Hr. simpl.
      split; [done|]. split; [done|]. apply agree_outside_refl.
    + simpl in Hfuel. simpl tail in He.
      pose proof (proj1 (holds_bounds h) _ _ _ _ He) as Ble.
      pose proof (proj2 (holds_bounds h) _ _ _ _ _ Hes) as Bes.
      destruct (holds_lookup _ _ _ _ _ He) as (node & He0 & Hkind).
      inversion IH as [|? ? IHt IHts]; subst.
      destruct (is_call_head t) eqn:Hhead.
      * destruct t; try discriminate.
        inversion He as [| | | | |? ? ? args0 He1 _| |]; subst.
        destruct fuel as [|fuel]; [lia|].
        set (h1 := <[e := Function name es]> h).
        assert (Le : e < length h) by (eapply lookup_lt_Some; eauto).
        assert (Hes1 : holds_chain h1 [] (S e) es ts hi).
        { apply (proj2 (holds_frame h) _ _ _ _ _ Hes). intros i Hi.
          unfold h1. apply list_lookup_insert_ne. lia. }
        cbn [flat flat_call] in Hflat.
        destruct (flat_each flat ts c) as [[s2 e2] c2] eqn:Fts.
        injection Hflat as <- <- <-.
        destruct (flatten_each_chain ts IHts es c h1 (S e) hi fuel s2 e2 c2 Hes1
                    ltac:(simpl in Hfuel; lia) Fts) as (h2 & E2 & Hes2 & A2).
        exists h2. split; [|split].
        -- cbn [flatten_ast store]. rewrite Hr, He1. fold h1.
           cbn [flatten_ast store temp_counter].
           replace (h1 !! e) with (Some (Function name es))
             by (symmetry; apply list_lookup_insert_eq; lia).
           rewrite E2. cbn [mbind result_bind]. rewrite py_join_map_Some.
           cbn [mbind result_bind store temp_counter]. done.
        -- destruct A2 as [L2 A2].
           econstructor.
           ++ rewrite A2 by lia. subst h1. rewrite list_lookup_insert_ne by lia. exact Hr.
           ++ constructor; [|exact Hes2].
              econstructor; [|right; reflexivity].
              rewrite A2 by lia. unfold h1. apply list_lookup_insert_eq. lia.
        -- destruct A2 as [L2 A2]. split.
           ++ rewrite L2. unfold h1. apply length_insert.
           ++ intros i Hi. rewrite A2 by lia. unfold h1.
              apply list_lookup_insert_ne. lia.
      * assert (Hch : holds_chain h [] lo (e :: es) (t :: ts) hi).
        { constructor; [|done]. eapply holds_ctx; eauto. }
        rewrite flat_list_regular in Hflat by done.
        destruct (flat_each flat (t :: ts) c) as [[s2 e2] c2] eqn:Fts.
        injection Hflat as <- <- <-.
        destruct (flatten_each_chain (t :: ts) IH (e :: es) c h lo hi fuel s2 e2 c2 Hch
                    ltac:(simpl; lia) Fts) as (h2 & E2 & Hes2 & A2).
        exists h2. split; [|split].
        -- cbn [flatten_ast store]. rewrite Hr, He0.
           rewrite E2. cbn [mbind result_bind]. rewrite py_join_map_Some.
           destruct node; try done.
        -- destruct A2 as [L2 A2].
           inversion Hes2; subst.
           econstructor; [rewrite A2 by lia; exact Hr|].
           constructor; [|done]. eapply holds_ctx; eauto.
        -- destruct A2 as [L2 A2]. split; [done|]. intros i Hi. apply A2. lia.
  - inversion Hh as [| | | | | | |? ? ? k v ? ? Hr Hk Hv Hrv]; subst.
    pose proof (proj1 (holds_bounds h) _ _ _ _ Hk) as Bk.
    pose proof (proj1 (holds_bounds h) _ _ _ _ Hv) as Bv.
    cbn [flat] in Hflat.
    destruct (flat tk c) as [[s1 e1] c1] eqn:Fk.
    destruct (flat tv c1) as [[s2 e2] c2] eqn:Fv.
    injection Hflat as <- <- <-.
    destruct (IHk c h lo k fuel s1 e1 c1 Hk ltac:(lia) Fk) as (h1 & E1 & Hk1 & A1).
    assert (Hv1 : holds h1 [] (S k) v tv).
    { apply (proj1 (holds_frame h) _ _ _ _ Hv). intros i Hi. apply A1. lia. }
    destruct (IHv c1 h1 (S k) v fuel s2 e2 c2 Hv1 ltac:(lia) Fv) as (h2 & E2 & Hv2 & A2).
    exists h2. split; [|split].
    + cbn [flatten_ast store]. rewrite Hr, E1. cbn [mbind result_bind]. rewrite E2. done.
    + econstructor; [| |exact Hv2|done].
      * destruct A1 as [_ A1], A2 as [_ A2]. rewrite A2, A1 by lia. exact Hr.
      * apply (proj1 (holds_frame h1) _ _ _ _ Hk1). intros i Hi. apply A2. lia.
    + eapply agree_outside_trans; eauto; lia.
Qed.

(** ** What the parser leaves in the store *)

Lemma holds_root_lt h ctx lo r t : holds h ctx lo r t -> r < length h.
Proof.
  intros H. destruct (holds_lookup _ _ _ _ _ H) as (node & Hn & _).
  eapply lookup_lt_Some; eauto.
Qed.

Lemma holds_app h new ctx lo r t :
  holds h ctx lo r t -> holds (h ++ new)%list ctx lo r t.
Proof.
  intros H. pose proof (holds_root_lt _ _ _ _ _ H).
  apply (proj1 (holds_frame h) _ _ _ _ H). intros i Hi.
  apply lookup_app_l. lia.
Qed.

Lemma holds_chain_app h new ctx lo es ts hi :
  holds_chain h ctx lo es ts hi -> hi <= length h ->
  holds_chain (h ++ new)%list ctx lo es ts hi.
Proof.
  intros H Hhi. apply (proj2 (holds_frame h) _ _ _ _ _ H). intros i Hi.
  apply lookup_app_l. lia.
Qed.

Lemma holds_chain_snoc h ctx lo es ts hi e t :
  holds_chain h ctx lo es ts hi ->
  (forall c, holds h c hi e t) ->
  holds_chain h ctx lo (es ++ [e])%list (ts ++ [t])%list (S e).
Proof.
  intros H He. induction H as [ctx lo|ctx lo e0 es t0 ts hi H0 Hes IH].
  - simpl. constructor; [apply He|constructor].
  - simpl. constructor; [done|]. apply IH. done.
Qed.

Lemma built_leaf (h : heap) (node : ASTNode) (t : tree) :
  (forall h' ctx r, h' !! r = Some node -> holds h' ctx r r t) ->
  built h (h ++ [node])%list (length h) t.
Proof.
  intros Hleaf. split; [by eexists|]. split.
  - rewrite length_app. simpl. lia.
  - intros ctx. apply Hleaf. by apply list_lookup_middle.
Qed.

Lemma extends_trans (h h1 h2 : heap) :
  (exists new, h1 = (h ++ new)%list) -> (exists new, h2 = (h1 ++ new)%list) ->
  exists new, h2 = (h ++ new)%list.
Proof. intros [n1 ->] [n2 ->]. exists (n1 ++ n2)%list. by rewrite <- app_assoc. Qed.

Lemma parse_simple_token_built token h r h' :
  parse_simple_token token h = Ok (r, h') -> exists t, built h h' r t.
Proof.
  unfold parse_simple_token. destruct token as [token|]; [|discriminate].
  destruct (isdigit token).
  - destruct (py_int (Some token)) as [v| | |]; simpl; try discriminate.
    intros [= <- <-]. exists (TInteger v). apply built_leaf. by constructor.
  - destruct (isdigit (remove_char "." token) && char_in "." token).
    + destruct (py_float (Some token)) as [v| | |]; simpl; try discriminate.
      intros [= <- <-]. exists (TFloat v). apply built_leaf. by constructor.
    + intros [= <- <-]. exists (TString token). apply built_leaf. by constructor.
Qed.

Lemma lsymbol_loop_built fuel : forall self h symbols ts lo symbols' self' h',
  (forall ctx, holds_chain h ctx lo symbols ts (length h)) ->
  lsymbol_loop fuel self h symbols = Ok (symbols', self', h') ->
  exists ts', (exists new, h' = (h ++ new)%list) /\
    forall ctx, holds_chain h' ctx lo symbols' ts' (length h').
Proof.
  induction fuel as [|fuel IH]; intros self h symbols ts lo symbols' self' h' Hinv; [discriminate|].
  simpl. destruct (tok_eqb (current_token self) "]"); simpl.
  - intros [= <- <- <-]. exists ts. split; [by exists []; rewrite app_nil_r|done].
  - destruct (tok_eqb (current_token self) ",").
    + intros H. eapply IH; [exact Hinv|exact H].
    + intros H.
      assert (Hinv' : forall ctx, holds_chain (h ++ [Symbol (current_token self)])%list ctx lo
                 (symbols ++ [length h])%list (ts ++ [TSymbol (current_token self)])%list
                 (length (h ++ [Symbol (current_token self)])%list)).
      { intros ctx. rewrite length_app. simpl.
        replace (length h + 1) with (S (length h)) by lia.
        apply (holds_chain_snoc _ _ _ _ _ (length h)).
        - apply holds_chain_app; [apply Hinv|done].
        - intros c. constructor. by apply list_lookup_middle. }
      destruct (IH _ _ _ _ _ _ _ _ Hinv' H) as (ts' & [new ->] & Hch).
      exists ts'. split; [|done]. eexists. by rewrite <- app_assoc.
Qed.

Lemma built_list (h h' : heap) (elements : list ref) (ts : list tree) :
  (exists new, h' = (h ++ new)%list) ->
  (forall ctx, holds_chain h' ctx (length h) elements ts (length h')) ->
  built h (h' ++ [List elements])%list (length h') (TList ts).
Proof.
  intros Hext Hch. split; [|split].
  - eapply extends_trans; [exact Hext|by eexists].
  - rewrite length_app. simpl. lia.
  - intros ctx. econstructor; [by apply list_lookup_middle|].
    apply holds_chain_app; [apply Hch|done].
Qed.

Lemma parse_type_constructor_built fuel self h r self' h' :
  starts_upper (current_token self) = true ->
  parse_type_constructor fuel self h = Ok (r, self', h') ->
  exists t, built h h' r t.
Proof.
  intros Hup. unfold parse_type_constructor. cbn [consume alloc].
  destruct (current_token self) as [[|c name]|] eqn:Htok; try discriminate.
  set (self1 := {| tokens := tokens self; pos := pos self + 1 |}).
  destruct (tok_eqb (current_token self1) "["); cbn [negb].
  2:{ intros [= <- <- <-]. eexists. apply built_leaf. intros. by constructor. }
  set (self2 := {| tokens := tokens self1; pos := pos self1 + 1 |}).
  set (self3 := {| tokens := tokens self2; pos := pos self2 + 1 |}).
  destruct (tok_eqb _ "Symbol").
  { intros [= <- <- <-]. eexists. apply built_leaf. intros. by constructor. }
  destruct (tok_eqb _ "Int" || tok_eqb _ "Long").
  { destruct (py_int _) as [v| | |]; cbn [mbind result_bind]; try discriminate.
    intros [= <- <- <-]. eexists. apply built_leaf. intros. by constructor. }
  destruct (tok_eqb _ "Real" || tok_eqb _ "Float").
  { destruct (py_float _) as [v| | |]; cbn [mbind result_bind]; try discriminate.
    intros [= <- <- <-]. eexists. apply built_leaf. intros. by constructor. }
  destruct (tok_eqb _ "Bool").
  { intros [= <- <- <-]. eexists. apply built_leaf. intros. by constructor. }
  destruct (tok_eqb _ "Func").
  { intros [= <- <- <-]. eexists. apply built_leaf. intros. eapply holds_Function; eauto. }
  destruct (tok_eqb _ "LSymbol").
  { destruct (lsymbol_loop fuel self2 h []) as [[[symbols self4] h4]| | |] eqn:Hloop;
      cbn [mbind result_bind]; try discriminate.
    intros [= <- <- <-].
    eapply (lsymbol_loop_built _ _ _ _ [] (length h)) in Hloop as (ts & Hext & Hch);
      [|intros; constructor].
    exists (TList ts). by apply built_list. }
  intros [= <- <- <-]. eexists. apply built_leaf. intros. by constructor.
Qed.

Lemma parse_built fuel :
  (forall idx eager self h r self' h',
     parse_expression fuel idx eager self h = Ok (r, self', h') ->
     exists t, built h h' r t) /\
  (forall eager self h r self' h',
     parse_list fuel eager self h = Ok (r, self', h') ->
     exists t, built h h' r t) /\
  (forall eager self h elements idx ts lo elements' self' h',
     (forall ctx, holds_chain h ctx lo elements ts (length h)) ->
     parse_list_loop fuel eager self h elements idx = Ok (elements', self', h') ->
     exists ts', (exists new, h' = (h ++ new)%list) /\
       forall ctx, holds_chain h' ctx lo elements' ts' (length h')) /\
  (forall self h r self' h',
     parse_dict fuel self h = Ok (r, self', h') ->
     exists t, built h h' r t).
Proof.
  induction fuel as [|fuel (IHe & IHl & IHloop & IHd)].
  { repeat split; intros; discriminate. }
  split; [|split; [|split]].
  - intros idx eager self h r self' h'. cbn [parse_expression].
    destruct (tok_eqb (current_token self) "["); [apply IHl|].
    destruct (tok_eqb (current_token self) "{"); [apply IHd|].
    destruct (starts_upper (current_token self)) eqn:Hup.
    { by apply parse_type_constructor_built. }
    cbn [consume].
    destruct (parse_simple_token _ h) as [[r1 h1]| | |] eqn:Hs;
      cbn [mbind result_bind]; try discriminate.
    intros [= <- <- <-]. by eapply parse_simple_token_built.
  - intros eager self h r self' h'. cbn [parse_list consume].
    destruct (parse_list_loop fuel eager _ h [] 0) as [[[elements self1] h1]| | |] eqn:Hloop;
      cbn [mbind result_bind alloc]; try discriminate.
    intros [= <- <- <-].
    eapply (IHloop _ _ _ _ _ [] (length h)) in Hloop as (ts & Hext & Hch);
      [|intros; constructor].
    exists (TList ts). by apply built_list.
  - intros eager self h elements idx ts lo elements' self' h' Hinv.
    cbn [parse_list_loop].
    destruct (tok_eqb (current_token self) "]"); cbn [negb].
    { intros [= <- <- <-]. exists ts. split; [by exists []; rewrite app_nil_r|done]. }
    destruct (tok_eqb (current_token self) ",").
    { cbn [consume]. intros H. eapply IHloop; [exact Hinv|exact H]. }
    destruct (parse_expression fuel idx eager self h) as [[[r1 self1] h1]| | |] eqn:He;
      cbn [mbind result_bind]; try discriminate.
    intros H. apply IHe in He as (t & [new ->] & Hlen & Ht).
    assert (Hinv' : forall ctx, holds_chain (h ++ new)%list ctx lo
               (elements ++ [r1])%list (ts ++ [t])%list (length (h ++ new)%list)).
    { intros ctx. rewrite <- Hlen.
      apply (holds_chain_snoc _ _ _ _ _ (length h)); [|done].
      apply holds_chain_app; [apply Hinv|done]. }
    destruct (IHloop _ _ _ _ _ _ _ _ _ _ Hinv' H) as (ts' & [new' ->] & Hch).
    exists ts'. split; [|done]. eexists. by rewrite <- app_assoc.
  - intros self h r self' h'. cbn [parse_dict consume].
    destruct (parse_expression fuel 0 false _ h) as [[[k self1] h1]| | |] eqn:Hk;
      cbn [mbind result_bind]; try discriminate.
    destruct (tok_eqb (current_token self1) ","); cbn [negb]; [|discriminate].
    destruct (parse_expression fuel 0 false _ h1) as [[[v self2] h2]| | |] eqn:Hv;
      cbn [mbind result_bind]; try discriminate.
    destruct (tok_eqb (current_token self2) "}"); cbn [negb alloc]; [|discriminate].
    intros [= <- <- <-].
    apply IHe in Hk as (tk & [n1 ->] & Lk & Hk).
    apply IHe in Hv as (tv & [n2 ->] & Lv & Hv).
    exists (TDict tk tv). split; [|split].
    + eexists. rewrite <- !app_assoc. reflexivity.
    + rewrite !length_app. simpl. lia.
    + intros ctx. econstructor.
      * by apply list_lookup_middle.
      * apply holds_app, holds_app, Hk.
      * apply holds_app. rewrite Lk. apply Hv.
      * lia.
Qed.

(** ** More fuel does not change a finished parse *)

Lemma bind_finished {A B} (m : result A) (k : A -> result B) :
  m ≫= k <> OutOfFuel -> m <> OutOfFuel.
Proof. intros H E. apply H. by rewrite E. Qed.

Lemma lsymbol_loop_mono fuel : forall fuel' self h symbols,
  fuel <= fuel' -> lsymbol_loop fuel self h symbols <> OutOfFuel ->
  lsymbol_loop fuel' self h symbols = lsymbol_loop fuel self h symbols.
Proof.
  induction fuel as [|fuel IH]; intros fuel' self h symbols Hle Hne; [done|].
  destruct fuel' as [|fuel']; [lia|]. revert Hne. simpl.
  destruct (tok_eqb (current_token self) "]"); [done|]. simpl.
  destruct (tok_eqb (current_token self) ","); intros Hne; apply IH; (lia || done).
Qed.

Lemma parse_type_constructor_mono fuel fuel' self h :
  fuel <= fuel' -> parse_type_constructor fuel self h <> OutOfFuel ->
  parse_type_constructor fuel' self h = parse_type_constructor fuel self h.
Proof.
  intros Hle. unfold parse_type_constructor. cbn [consume alloc].
  destruct (tok_eqb _ "["); [|done]. cbn [negb].
  destruct (tok_eqb _ "Symbol"); [done|].
  destruct (tok_eqb _ "Int" || tok_eqb _ "Long"); [done|].
  destruct (tok_eqb _ "Real" || tok_eqb _ "Float"); [done|].
  destruct (tok_eqb _ "Bool"); [done|].
  destruct (tok_eqb _ "Func"); [done|].
  destruct (tok_eqb _ "LSymbol"); [|done].
  intros Hne. apply bind_finished in Hne. by rewrite (lsymbol_loop_mono _ _ _ _ _ Hle Hne).
Qed.

Lemma parse_mono fuel :
  (forall fuel' idx eager self h, fuel <= fuel' ->
     parse_expression fuel idx eager self h <> OutOfFuel ->
     parse_expression fuel' idx eager self h = parse_expression fuel idx eager self h) /\
  (forall fuel' eager self h, fuel <= fuel' ->
     parse_list fuel eager self h <> OutOfFuel ->
     parse_list fuel' eager self h = parse_list fuel eager self h) /\
  (forall fuel' eager self h elements idx, fuel <= fuel' ->
     parse_list_loop fuel eager self h elements idx <> OutOfFuel ->
     parse_list_loop fuel' eager self h elements idx
     = parse_list_loop fuel eager self h elements idx) /\
  (forall fuel' self h, fuel <= fuel' ->
     parse_dict fuel self h <> OutOfFuel ->
     parse_dict fuel' self h = parse_dict fuel self h).
Proof.
  induction fuel as [|fuel (IHe & IHl & IHloop & IHd)]; [done|].
  split; [|split; [|split]].
  - intros [|fuel'] idx eager self h Hle; [lia|]. cbn [parse_expression].
    destruct (tok_eqb (current_token self) "["); [apply IHl; lia|].
    destruct (tok_eqb (current_token self) "{"); [apply IHd; lia|].
    destruct (starts_upper (current_token self)); [|done].
    apply parse_type_constructor_mono. lia.
  - intros [|fuel'] eager self h Hle; [lia|]. cbn [parse_list consume].
    intros Hne. apply bind_finished in Hne. rewrite IHloop; [done|lia|done].
  - intros [|fuel'] eager self h elements idx Hle; [lia|]. cbn [parse_list_loop].
    destruct (tok_eqb (current_token self) "]"); [done|]. cbn [negb].
    destruct (tok_eqb (current_token self) ","); [apply IHloop; lia|].
    intros Hne. pose proof (bind_finished _ _ Hne) as Hne1.
    rewrite (IHe fuel') by (lia || done).
    destruct (parse_expression fuel idx eager self h) as [[[r1 self1] h1]| | |]; try done.
    apply IHloop; [lia|exact Hne].
  - intros [|fuel'] self h Hle; [lia|]. cbn [parse_dict consume].
    intros Hne. pose proof (bind_finished _ _ Hne) as Hne1.
    rewrite (IHe fuel') by (lia || done).
    destruct (parse_expression fuel 0 false _ h) as [[[k self1] h1]| | |]; try done.
    cbn [mbind result_bind] in *.
    destruct (tok_eqb (current_token self1) ","); [|done]. cbn [negb] in *.
    pose proof (bind_finished _ _ Hne) as Hne2.
    rewrite (IHe fuel') by (lia || done). done.
Qed.

Lemma parse_expression_mono fuel fuel' idx eager self h r :
  parse_expression fuel idx eager self h = Ok r -> fuel <= fuel' ->
  parse_expression fuel' idx eager self h = Ok r.
Proof.
  intros H Hle. rewrite <- H. apply (proj1 (parse_mono fuel)); [done|]. by rewrite H.
Qed.

(** ** A parsed tree renders *)

Lemma parse_holds fuel tokens h0 r self h :
  parse fuel tokens h0 = Ok (r, self, h) ->
  exists t, holds h [] (length h0) r t.
Proof.
  intros H. apply (proj1 (parse_built fuel)) in H as (t & _ & _ & Ht).
  exists t. apply Ht.
Qed.

(** C3: for every tree the parser produces, the direct renderer returns a
    string and the flattening renderer returns a statement list and a final
    expression, whatever fuel above the size of the tree they are given:
    neither raises, neither meets a missing object, neither returns [None]. *)
Theorem renderers_total fuel tokens h0 r self h :
  parse fuel tokens h0 = Ok (r, self, h) ->
  exists n s stmts e, forall fuel', n <= fuel' ->
    (exists h', transform_ast fuel' h r = Ok (Some s, h')) /\
    (exists self', flatten fuel' h r = Ok (stmts, Some e, self')).
Proof.
  intros H. apply parse_holds in H as (t & Ht).
  destruct (flat t 0) as [[stmts e] c'] eqn:Hflat.
  exists (size t), (render t), stmts, e. intros fuel' Hfuel. split.
  - destruct (transform_ast_render t h _ r fuel' Ht Hfuel) as (h' & E & _). eauto.
  - destruct (flatten_ast_flat t 0 h _ r fuel' stmts e c' Ht Hfuel Hflat) as (h' & E & _).
    eauto.
Qed.

(** C4: rendering a parsed tree twice gives the same output both times,
    with the direct renderer, with the flattening renderer, or with one
    after the other, the second run starting from the store the first one
    left, in which the [args] of the heads of calls have been assigned. *)
Theorem render_twice fuel tokens h0 r self h :
  parse fuel tokens h0 = Ok (r, self, h) ->
  exists n s stmts e, forall f1 f2, n <= f1 -> n <= f2 ->
    exists h1 g1,
      transform_ast f1 h r = Ok (Some s, h1) /\
      flatten f1 h r = Ok (stmts, Some e, g1) /\
      (exists h2, transform_ast f2 h1 r = Ok (Some s, h2)) /\
      (exists g2, flatten f2 (store g1) r = Ok (stmts, Some e, g2)) /\
      (exists g3, flatten f2 h1 r = Ok (stmts, Some e, g3)) /\
      (exists h3, transform_ast f2 (store g1) r = Ok (Some s, h3)).
Proof.
  intros H. apply parse_holds in H as (t & Ht).
  destruct (flat t 0) as [[stmts e] c'] eqn:Hflat.
  exists (size t), (render t), stmts, e. intros f1 f2 Hf1 Hf2.
  destruct (transform_ast_render t h _ r f1 Ht Hf1) as (h1 & E1 & Ht1 & _).
  destruct (flatten_ast_flat t 0 h _ r f1 stmts e c' Ht Hf1 Hflat) as (g1 & E2 & Ht2 & _).
  exists h1, {| temp_counter := c'; store := g1 |}. cbn [store].
  split; [exact E1|]. split; [exact E2|].
  destruct (transform_ast_render t h1 _ r f2 Ht1 Hf2) as (h2 & E3 & _).
  destruct (flatten_ast_flat t 0 g1 _ r f2 stmts e c' Ht2 Hf2 Hflat) as (g2 & E4 & _).
  destruct (flatten_ast_flat t 0 h1 _ r f2 stmts e c' Ht1 Hf2 Hflat) as (g3 & E5 & _).
  destruct (transform_ast_render t g1 _ r f2 Ht2 Hf2) as (h3 & E6 & _).
  eauto 10.
Qed.

(** C3, end to end: a text whose tokens parse is converted by both
    conversions, whatever fuel above a bound they are given *)
Lemma conversions_total text tokens fuel r self h :
  tokenize text = Ok tokens ->
  parse fuel tokens [] = Ok (r, self, h) ->
  exists n s out, forall fuel', n <= fuel' ->
    convert_lisp_to_function_calls fuel' text = Ok (Some s) /\
    convert_lisp_to_flat_statements fuel' text = Ok out.
Proof.
  intros Htok Hparse. destruct (parse_holds _ _ _ _ _ _ Hparse) as (t & Ht).
  destruct (flat t 0) as [[stmts e] c'] eqn:Hflat.
  destruct (format_output stmts (Some e)) as [out| | |] eqn:Hout;
    try (by destruct stmts).
  exists (fuel + size t), (render t), out. intros fuel' Hfuel.
  unfold convert_lisp_to_function_calls, convert_lisp_to_flat_statements, parse in *.
  rewrite Htok. cbn [mbind result_bind].
  rewrite (parse_expression_mono _ fuel' _ _ _ _ _ Hparse) by lia.
  cbn [mbind result_bind].
  destruct (transform_ast_render t h _ r fuel' Ht ltac:(lia)) as (h1 & -> & _).
  destruct (flatten_ast_flat t 0 h _ r fuel' stmts e c' Ht ltac:(lia) Hflat) as (h2 & E & _).
  unfold flatten. rewrite E. done.
Qed.

(** ** Temporaries are minted in order *)

Lemma numbered_nil c : numbered c [].
Proof. intros k Hk. simpl in Hk. lia. Qed.

Lemma numbered_app c s1 s2 :
  numbered c s1 -> numbered (c + length s1) s2 -> numbered c (s1 ++ s2)%list.
Proof.
  intros H1 H2 k Hk. rewrite length_app in Hk.
  destruct (decide (k < length s1)) as [Hlt|Hge].
  - rewrite lookup_app_l by done. by apply H1.
  - rewrite lookup_app_r by lia.
    destruct (H2 (k - length s1) ltac:(lia)) as (rhs & ->).
    exists rhs. do 4 f_equal. lia.
Qed.

Lemma flat_each_mints (ts : list tree) :
  Forall mints_spec ts ->
  forall c stmts exprs c', flat_each flat ts c = (stmts, exprs, c') ->
  length stmts = list_sum (map calls ts) /\ c' = c + length stmts /\ numbered c stmts.
Proof.
  induction 1 as [|t ts Ht Hts IH]; intros c stmts exprs c'; simpl.
  - intros [= <- <- <-]. split; [done|]. split; [simpl; lia|apply numbered_nil].
  - destruct (flat t c) as [[s1 e1] c1] eqn:Ft.
    destruct (flat_each flat ts c1) as [[s2 e2] c2] eqn:Fts.
    intros [= <- <- <-].
    destruct (Ht _ _ _ _ Ft) as (L1 & C1 & N1 & _).
    destruct (IH _ _ _ _ Fts) as (L2 & C2 & N2).
    rewrite length_app. split; [lia|]. split; [lia|].
    apply numbered_app; [done|]. by rewrite <- C1.
Qed.

Lemma flat_call_mints name stmts exprs c n :
  length stmts = n -> numbered c stmts ->
  forall c0 stmts' e c', c0 = c + n ->
  flat_call name (stmts, exprs, c0) = (stmts', e, c') ->
  length stmts' = S n /\ c' = c + length stmts' /\ numbered c stmts' /\
  e = "temp" ++ str_nat c' /\ 0 < length stmts'.
Proof.
  intros L N c0 stmts' e c' -> [= <- <- <-].
  rewrite length_app. simpl. repeat split; try lia.
  - apply numbered_app; [done|]. intros [|k] Hk; simpl in Hk; [|lia].
    exists (call_text glyph_map_flat name exprs).
    replace (c + length stmts + 0 + 1) with (c + n + 1) by lia. reflexivity.
Qed.

Lemma flat_mints (t : tree) : mints_spec t.
Proof.
  induction t as [name|v|v|v|v|name|ts IH|tk tv IHk IHv] using tree_nested_ind;
    intros c stmts e c'.
  1-5: intros [= <- <- <-]; (split; [done|]); (split; [simpl; lia|]);
       (split; [apply numbered_nil|done]).
  - cbn [flat]. intros H.
    destruct (flat_call_mints name [] [] c 0 eq_refl (numbered_nil c) c _ _ _ ltac:(lia) H)
      as (L & C & N & E & P).
    cbn [calls]. done.
  - destruct ts as [|t ts].
    + intros [= <- <- <-]. split; [done|]. split; [simpl; lia|].
      split; [apply numbered_nil|done].
    + destruct (is_call_head t) eqn:Hhead.
      * destruct t; try discriminate. cbn [flat]. intros H.
        inversion IH as [|? ? _ IHts]; subst.
        destruct (flat_each flat ts c) as [[s2 e2] c2] eqn:Fts.
        destruct (flat_each_mints ts IHts _ _ _ _ Fts) as (L2 & C2 & N2).
        destruct (flat_call_mints name s2 e2 c _ eq_refl N2 c2 _ _ _ C2 H)
          as (L & C & N & E & P).
        split; [|done].
        change (calls (TList (TFunction name :: ts))) with (S (list_sum (map calls ts))).
        lia.
      * rewrite flat_list_regular by done.
        destruct (flat_each flat (t :: ts) c) as [[s2 e2] c2] eqn:Fts.
        intros [= <- <- <-].
        destruct (flat_each_mints (t :: ts) IH _ _ _ _ Fts) as (L2 & C2 & N2).
        split; [done|]. split; [done|]. split; [done|].
        by destruct t.
  - cbn [flat].
    destruct (flat tk c) as [[s1 e1] c1] eqn:Fk.
    destruct (flat tv c1) as [[s2 e2] c2] eqn:Fv.
    intros [= <- <- <-].
    destruct (IHk _ _ _ _ Fk) as (L1 & C1 & N1 & _).
    destruct (IHv _ _ _ _ Fv) as (L2 & C2 & N2 & _).
    rewrite length_app. cbn [calls]. split; [lia|]. split; [lia|].
    split; [|done]. apply numbered_app; [done|]. by rewrite <- C1.
Qed.

(** C9: for every tree [t] a store holds, [Flattener.flatten] returns; the
    statement list has one assignment per [Function] node of [t], the
    counter ends at their number, the [k]-th statement (from 1) binds
    [temp<k>], and for a call the final expression is the temporary minted
    last. *)
Theorem flatten_mints_in_order (h : heap) lo r t fuel :
  holds h [] lo r t -> size t <= fuel ->
  exists stmts e self',
    flatten fuel h r = Ok (stmts, Some e, self') /\
    length stmts = calls t /\
    temp_counter self' = length stmts /\
    (forall k, k < length stmts ->
       exists rhs, stmts !! k = Some ("temp" ++ str_nat (k + 1) ++ " = " ++ rhs)) /\
    (is_call t = true -> e = "temp" ++ str_nat (length stmts) /\ 0 < length stmts).
Proof.
  intros Ht Hfuel.
  destruct (flat t 0) as [[stmts e] c'] eqn:Hflat.
  destruct (flatten_ast_flat t 0 h lo r fuel stmts e c' Ht Hfuel Hflat) as (h' & E & _).
  destruct (flat_mints t _ _ _ _ Hflat) as (L & C & N & P).
  exists stmts, e, {| temp_counter := c'; store := h' |}.
  split; [exact E|]. split; [exact L|]. split; [simpl; lia|]. split.
  - intros k Hk. destruct (N k Hk) as (rhs & ->). by exists rhs.
  - intros Hc. destruct (P Hc) as [-> ?]. split; [|done]. do 2 f_equal. lia.
Qed.

(** ** The constructor [Bool] *)

(** C8: for every token [t], [Bool[t]] parses to a [Boolean] whose value is
    true exactly when [t] is the one-character string [1]; the node renders
    as [True] in that case and as [False] in every other, with both
    renderers. *)
Theorem bool_constructor (t : string) (rest : list string) (h : heap) (fuel : nat) :
  (String.eqb t "1" = true <-> t = "1") /\
  parse (S fuel) ("Bool" :: "[" :: t :: "]" :: rest) h
    = Ok (length h, {| tokens := "Bool" :: "[" :: t :: "]" :: rest; pos := 4 |},
          (h ++ [Boolean (String.eqb t "1")])%list) /\
  transform_ast (S fuel) (h ++ [Boolean (String.eqb t "1")])%list (length h)
    = Ok (Some (if String.eqb t "1" then "True" else "False"),
          (h ++ [Boolean (String.eqb t "1")])%list) /\
  flatten (S fuel) (h ++ [Boolean (String.eqb t "1")])%list (length h)
    = Ok ([], Some (if String.eqb t "1" then "True" else "False"),
          {| temp_counter := 0; store := (h ++ [Boolean (String.eqb t "1")])%list |}).
Proof.
  split; [apply String.eqb_eq|]. split; [reflexivity|].
  unfold flatten. cbn [transform_ast flatten_ast store].
  rewrite list_lookup_middle by done. done.
Qed.

(** ** The two glyph tables *)

Lemma glyph_maps_agree (name : option string) :
  name <> Some "_" ->
  dict_get glyph_map_flat name name = dict_get glyph_map_direct name name.
Proof.
  intros Hne. destruct name as [k|]; [|done].
  unfold dict_get, glyph_map_flat, glyph_map_direct. cbn [dict_find].
  repeat match goal with
         | |- context [if String.eqb ?a k then _ else _] =>
             destruct (String.eqb_spec a k) as [<-|?]; [try done|]
         end.
  all: try done.
Qed.

(** C5: the table of the flattening renderer maps [_] to [underscore] and
    the table of the direct renderer does not; on every other name the two
    tables give the same word.  A [Function] node named [_] is therefore
    printed as [_(...)] by the direct renderer and as [underscore(...)] in
    the statement of the flattening renderer. *)
Theorem underscore_glyph (h : heap) (c : nat) (r : ref) (args : list ref) (fuel : nat) :
  h !! r = Some (Function (Some "_") args) ->
  dict_get glyph_map_flat (Some "_") (Some "_") = Some "underscore" /\
  dict_get glyph_map_direct (Some "_") (Some "_") = Some "_" /\
  (forall name, name <> Some "_" ->
     dict_get glyph_map_flat name name = dict_get glyph_map_direct name name) /\
  transform_ast (S fuel) h r =
    ('(strs, h') ← transform_each (transform_ast fuel) h args;
     args_str ← py_join ", " strs;
     Ok (Some ("_(" ++ args_str ++ ")"), h')) /\
  flatten_ast (S fuel) {| temp_counter := c; store := h |} r =
    ('(statements, arg_exprs, self) ←
        flatten_each (flatten_ast fuel) {| temp_counter := c; store := h |} args;
     args_str ← py_join ", " arg_exprs;
     let temp_name := "temp" ++ str_nat (temp_counter self + 1) in
     let statement := temp_name ++ " = underscore(" ++ args_str ++ ")" in
     Ok ((statements ++ [statement])%list, Some temp_name,
         {| temp_counter := temp_counter self + 1; store := store self |})).
Proof.
  intros Hr. split; [done|]. split; [done|]. split; [apply glyph_maps_agree|].
  cbn [transform_ast flatten_ast store]. rewrite Hr. done.
Qed.

(** ** The layout of the flattened output *)

Lemma append_assoc (a b c : string) : (a ++ b) ++ c = a ++ b ++ c.
Proof. induction a as [|x a IH]; simpl; [done|]. by rewrite IH. Qed.

Lemma join_snoc sep x (items : list string) (y : string) :
  join sep ((x :: items) ++ [y])%list = join sep (x :: items) ++ sep ++ y.
Proof.
  revert x. induction items as [|z items IH]; intros x; [done|].
  change (join sep ((x :: z :: items) ++ [y])%list)
    with (x ++ sep ++ join sep ((z :: items) ++ [y])%list).
  rewrite IH.
  change (join sep (x :: z :: items)) with (x ++ sep ++ join sep (z :: items)).
  by rewrite !append_assoc.
Qed.

(** C7: [[Func[min]]] renders directly as [min()] and flattens to the two
    lines [temp1 = min()] and [result = temp1]; in general the flattened
    output is the statements followed by the line [result = <final>],
    joined by newlines, which is that line alone when there is no
    statement. *)
Theorem flat_output_layout :
  (forall k, convert_lisp_to_function_calls (4 + k) "[Func[min]]" = Ok (Some "min()")) /\
  (forall k, convert_lisp_to_flat_statements (4 + k) "[Func[min]]"
             = Ok ("temp1 = min()" ++ nl ++ "result = temp1")) /\
  (forall stmts e,
     format_output stmts (Some e)
     = Ok (join nl (stmts ++ [("result = " ++ e)%string])%list)) /\
  (forall s stmts e,
     format_output (s :: stmts) (Some e)
     = Ok (join nl (s :: stmts) ++ nl ++ "result = " ++ e)) /\
  (forall e, format_output [] (Some e) = Ok ("result = " ++ e)) /\
  (forall fuel text,
     convert_lisp_to_flat_statements fuel text =
       (tokens ← tokenize text;
        '(ast, _, h) ← parse fuel tokens [];
        '(statements, final_expr, _) ← flatten fuel h ast;
        format_output statements final_expr)).
Proof.
  split; [intros k; reflexivity|]. split; [intros k; reflexivity|].
  split; [|split; [|split]]; try done.
  - intros [|s stmts] e; [done|].
    rewrite join_snoc. unfold format_output, py_concat.
    by rewrite !append_assoc.
  - intros s stmts e. unfold format_output, py_concat.
    by rewrite !append_assoc.
Qed.

(** ** The parser and the end of the input *)

Lemma current_token_Some self x :
  current_token self = Some x <->
  pos self < length (tokens self) /\ tokens self !! pos self = Some x.
Proof.
  unfold current_token. destruct (Nat.leb_spec (length (tokens self)) (pos self)).
  - split; [done|]. intros [? _]. lia.
  - split; [by intros ->|]. by intros [_ ->].
Qed.

Lemma current_token_None self :
  current_token self = None <-> length (tokens self) <= pos self.
Proof.
  unfold current_token. destruct (Nat.leb_spec (length (tokens self)) (pos self)).
  - done.
  - split; [|lia]. intros Hn. apply lookup_ge_None in Hn. lia.
Qed.

Lemma tok_eqb_true x s : tok_eqb x s = true <-> x = Some s.
Proof.
  destruct x as [t|]; simpl; [|done].
  rewrite String.eqb_eq. split; [by intros ->|by intros [= ->]].
Qed.

Lemma keeps_refl self : keeps self self.
Proof. by split. Qed.

Lemma keeps_consume self : keeps self (consume self).2.
Proof. split; simpl; [done|lia]. Qed.

Lemma keeps_trans s1 s2 s3 : keeps s1 s2 -> keeps s2 s3 -> keeps s1 s3.
Proof. intros [T1 P1] [T2 P2]. split; [congruence|lia]. Qed.

Lemma lsymbol_loop_exit fuel : forall self h symbols symbols' self' h',
  lsymbol_loop fuel self h symbols = Ok (symbols', self', h') ->
  keeps self self' /\ current_token self' = Some "]".
Proof.
  induction fuel as [|fuel IH]; intros self h symbols symbols' self' h'; [done|].
  simpl. destruct (tok_eqb (current_token self) "]") eqn:Hclose; simpl.
  - intros [= <- <- <-]. split; [apply keeps_refl|by apply tok_eqb_true].
  - destruct (tok_eqb (current_token self) ","); intros H; apply IH in H as [K C];
      (split; [|done]); (eapply keeps_trans; [apply keeps_consume|exact K]).
Qed.

Lemma parse_type_constructor_keeps fuel self h r self' h' :
  parse_type_constructor fuel self h = Ok (r, self', h') -> keeps self self'.
Proof.
  unfold parse_type_constructor. cbn [consume alloc].
  set (self1 := {| tokens := tokens self; pos := pos self + 1 |}).
  set (self2 := {| tokens := tokens self1; pos := pos self1 + 1 |}).
  set (self3 := {| tokens := tokens self2; pos := pos self2 + 1 |}).
  set (self4 := {| tokens := tokens self3; pos := pos self3 + 1 |}).
  assert (K1 : keeps self self1) by (split; simpl; [done|lia]).
  assert (K4 : keeps self self4) by (split; simpl; [done|lia]).
  destruct (tok_eqb _ "["); cbn [negb]; [|by intros [= <- <- <-]].
  destruct (tok_eqb _ "Symbol"); [by intros [= <- <- <-]|].
  destruct (tok_eqb _ "Int" || tok_eqb _ "Long").
  { destruct (py_int _); cbn [mbind result_bind]; try done. by intros [= <- <- <-]. }
  destruct (tok_eqb _ "Real" || tok_eqb _ "Float").
  { destruct (py_float _); cbn [mbind result_bind]; try done. by intros [= <- <- <-]. }
  destruct (tok_eqb _ "Bool"); [by intros [= <- <- <-]|].
  destruct (tok_eqb _ "Func"); [by intros [= <- <- <-]|].
  destruct (tok_eqb _ "LSymbol"); [|by intros [= <- <- <-]].
  destruct (lsymbol_loop fuel self2 h []) as [[[symbols self5] h5]| | |] eqn:Hloop;
    cbn [mbind result_bind]; try done.
  intros [= <- <- <-]. apply lsymbol_loop_exit in Hloop as [K _].
  eapply keeps_trans; [|apply keeps_consume].
  eapply keeps_trans; [|exact K]. split; simpl; [done|lia].
Qed.

Lemma parse_keeps fuel :
  (forall idx eager self h r self' h',
     parse_expression fuel idx eager self h = Ok (r, self', h') -> keeps self self') /\
  (forall eager self h r self' h',
     parse_list fuel eager self h = Ok (r, self', h') ->
     keeps self self' /\ 0 < pos self' /\ tokens self !! (pos self' - 1) = Some "]") /\
  (forall eager self h elements idx elements' self' h',
     parse_list_loop fuel eager self h elements idx = Ok (elements', self', h') ->
     keeps self self' /\ current_token self' = Some "]") /\
  (forall self h r self' h',
     parse_dict fuel self h = Ok (r, self', h') -> keeps self self').
Proof.
  induction fuel as [|fuel (IHe & IHl & IHloop & IHd)]; [done|].
  split; [|split; [|split]].
  - intros idx eager self h r self' h'. cbn [parse_expression].
    destruct (tok_eqb (current_token self) "["); [intros H; by apply IHl in H as [? _]|].
    destruct (tok_eqb (current_token self) "{"); [apply IHd|].
    destruct (starts_upper (current_token self)); [apply parse_type_constructor_keeps|].
    cbn [consume].
    destruct (parse_simple_token _ h) as [[r1 h1]| | |];
      cbn [mbind result_bind]; try done.
    intros [= <- <- <-]. split; simpl; [done|lia].
  - intros eager self h r self' h'. cbn [parse_list consume].
    destruct (parse_list_loop fuel eager _ h [] 0) as [[[elements self1] h1]| | |] eqn:Hloop;
      cbn [mbind result_bind alloc]; try done.
    intros [= <- <- <-]. apply IHloop in Hloop as [[T P] C]. simpl in T, P.
    apply current_token_Some in C as [C1 C2].
    split; [split; simpl; [done|lia]|]. simpl. split; [lia|].
    replace (pos self1 + 1 - 1) with (pos self1) by lia. by rewrite <- T.
  - intros eager self h elements idx elements' self' h'. cbn [parse_list_loop].
    destruct (tok_eqb (current_token self) "]") eqn:Hclose; cbn [negb].
    { intros [= <- <- <-]. split; [apply keeps_refl|by apply tok_eqb_true]. }
    destruct (tok_eqb (current_token self) ",").
    { cbn [consume]. intros H. apply IHloop in H as [K C]. split; [|done].
      eapply keeps_trans; [|exact K]. split; simpl; [done|lia]. }
    destruct (parse_expression fuel idx eager self h) as [[[r1 self1] h1]| | |] eqn:He;
      cbn [mbind result_bind]; try done.
    intros H. apply IHloop in H as [K C]. apply IHe in He. split; [|done].
    eapply keeps_trans; eauto.
  - intros self h r self' h'. cbn [parse_dict consume].
    destruct (parse_expression fuel 0 false _ h) as [[[k self1] h1]| | |] eqn:Hk;
      cbn [mbind result_bind]; try done.
    destruct (tok_eqb (current_token self1) ","); cbn [negb]; [|done].
    destruct (parse_expression fuel 0 false _ h1) as [[[v self2] h2]| | |] eqn:Hv;
      cbn [mbind result_bind]; try done.
    destruct (tok_eqb (current_token self2) "}"); cbn [negb alloc]; [|done].
    intros [= <- <- <-]. apply IHe in Hk, Hv.
    destruct Hk as [T1 P1], Hv as [T2 P2]. simpl in *. split; simpl; [congruence|lia].
Qed.

(** what [parse_dict] does once its first expression has been read *)
Lemma parse_dict_after_key fuel self h k self1 h1 :
  parse_expression fuel 0 false (consume self).2 h = Ok (k, self1, h1) ->
  parse_dict (S fuel) self h =
    if negb (tok_eqb (current_token self1) ",") then
      Raise (ValueError ("Expected ',' in dict, got " ++ str_opt (current_token self1)))
    else
      '(v, self2, h2) ← parse_expression fuel 0 false (consume self1).2 h1;
      if negb (tok_eqb (current_token self2) "}") then
        Raise (ValueError ("Expected '}' in dict, got " ++ str_opt (current_token self2)))
      else Ok (length h2, (consume self2).2, (h2 ++ [Dict k v])%list).
Proof.
  intros Hk. cbn [parse_dict consume snd] in *. rewrite Hk. cbn [mbind result_bind].
  destruct (tok_eqb (current_token self1) ","); cbn [negb]; [|done].
  destruct (parse_expression fuel 0 false _ h1) as [[[v self2] h2]| | |]; done.
Qed.

Lemma parse_expression_dict fuel idx eager self h :
  tok_eqb (current_token self) "{" = true ->
  parse_expression (S fuel) idx eager self h = parse_dict fuel self h.
Proof.
  intros Hb. cbn [parse_expression]. rewrite Hb.
  apply tok_eqb_true in Hb. by rewrite Hb.
Qed.

(** C6: once the first expression of a dict has been read, a next token
    other than [,] raises [ValueError] with the message [Expected ',' in
    dict, got <token>]; once the second has been read, a next token other
    than the closing brace raises [ValueError] with the message
    [Expected '}' in dict, got <token>]; and the dict is returned only when
    both were there. *)
Theorem dict_separator_errors fuel idx eager self h k self1 h1 :
  tok_eqb (current_token self) "{" = true ->
  parse_expression fuel 0 false (consume self).2 h = Ok (k, self1, h1) ->
  (tok_eqb (current_token self1) "," = false ->
   parse_expression (S (S fuel)) idx eager self h
   = Raise (ValueError ("Expected ',' in dict, got " ++ str_opt (current_token self1)))) /\
  (forall v self2 h2,
     tok_eqb (current_token self1) "," = true ->
     parse_expression fuel 0 false (consume self1).2 h1 = Ok (v, self2, h2) ->
     tok_eqb (current_token self2) "}" = false ->
     parse_expression (S (S fuel)) idx eager self h
     = Raise (ValueError ("Expected '}' in dict, got " ++ str_opt (current_token self2)))) /\
  (forall r self' h',
     parse_expression (S (S fuel)) idx eager self h = Ok (r, self', h') ->
     current_token self1 = Some "," /\
     exists v self2 h2,
       parse_expression fuel 0 false (consume self1).2 h1 = Ok (v, self2, h2) /\
       current_token self2 = Some "}" /\
       r = length h2 /\ h' = (h2 ++ [Dict k v])%list).
Proof.
  intros Hb Hk. rewrite (parse_expression_dict _ _ _ _ _ Hb).
  rewrite (parse_dict_after_key _ _ _ _ _ _ Hk). split; [|split].
  - by intros ->.
  - intros v self2 h2 -> -> Hc. cbn [negb mbind result_bind]. by rewrite Hc.
  - intros r self' h'.
    destruct (tok_eqb (current_token self1) ",") eqn:Hcomma; cbn [negb]; [|done].
    destruct (parse_expression fuel 0 false _ h1) as [[[v self2] h2]| | |];
      cbn [mbind result_bind]; try done.
    destruct (tok_eqb (current_token self2) "}") eqn:Hclose; cbn [negb]; [|done].
    intros [= <- <- <-]. split; [by apply tok_eqb_true|].
    exists v, self2, h2. split; [done|]. split; [by apply tok_eqb_true|done].
Qed.

Lemma starts_upper_not_bracket name :
  starts_upper (Some name) = true ->
  String.eqb name "[" = false /\ String.eqb name "{" = false.
Proof.
  intros Hup. split.
  - destruct (String.eqb_spec name "[") as [->|]; [discriminate|done].
  - destruct (String.eqb_spec name "{") as [->|]; [discriminate|done].
Qed.

Lemma constructor_without_bracket name t (h : heap) fuel :
  starts_upper (Some name) = true -> String.eqb name "LSymbol" = false ->
  ast_of (parse (S fuel) [name; "["; t] h) = ast_of (parse (S fuel) [name; "["; t; "]"] h).
Proof.
  intros Hup Hl. destruct (starts_upper_not_bracket _ Hup) as [H1 H2].
  unfold ast_of, parse. cbn [parse_expression].
  change (current_token {| tokens := [name; "["; t]; pos := 0 |}) with (Some name).
  change (current_token {| tokens := [name; "["; t; "]"]; pos := 0 |}) with (Some name).
  cbn [tok_eqb]. rewrite H1, H2, Hup.
  unfold parse_type_constructor. cbn [consume alloc].
  change (current_token {| tokens := [name; "["; t]; pos := 0 |}) with (Some name).
  change (current_token {| tokens := [name; "["; t; "]"]; pos := 0 |}) with (Some name).
  change (current_token {| tokens := tokens {| tokens := [name; "["; t]; pos := 0 |};
                           pos := pos {| tokens := [name; "["; t]; pos := 0 |} + 1 |})
    with (Some "[").
  change (current_token {| tokens := tokens {| tokens := [name; "["; t; "]"]; pos := 0 |};
                           pos := pos {| tokens := [name; "["; t; "]"]; pos := 0 |} + 1 |})
    with (Some "[").
  cbn [tok_eqb negb]. change (String.eqb "[" "[") with true. cbn [negb].
  rewrite Hl.
  destruct (String.eqb name "Symbol"); [done|].
  destruct (String.eqb name "Int" || String.eqb name "Long").
  { cbn -[py_int]. by destruct (py_int (Some t)). }
  destruct (String.eqb name "Real" || String.eqb name "Float").
  { cbn -[py_float]. by destruct (py_float (Some t)). }
  destruct (String.eqb name "Bool"); [done|].
  destruct (String.eqb name "Func"); [done|].
  done.
Qed.

Lemma constructor_without_bracket_returns name t (h : heap) fuel :
  starts_upper (Some name) = true ->
  String.eqb name "LSymbol" = false ->
  (String.eqb name "Int" || String.eqb name "Long"
   || String.eqb name "Real" || String.eqb name "Float") = false ->
  returns (parse (S fuel) [name; "["; t] h) = true.
Proof.
  intros Hup Hl Hn. destruct (starts_upper_not_bracket _ Hup) as [H1 H2].
  apply orb_false_elim in Hn as [Hn Hf]. apply orb_false_elim in Hn as [Hn Hr].
  apply orb_false_elim in Hn as [Hi Hlo].
  unfold parse. cbn [parse_expression].
  change (current_token {| tokens := [name; "["; t]; pos := 0 |}) with (Some name).
  cbn [tok_eqb]. rewrite H1, H2, Hup.
  unfold parse_type_constructor. cbn [consume alloc].
  change (current_token {| tokens := [name; "["; t]; pos := 0 |}) with (Some name).
  change (current_token {| tokens := tokens {| tokens := [name; "["; t]; pos := 0 |};
                           pos := pos {| tokens := [name; "["; t]; pos := 0 |} + 1 |})
    with (Some "[").
  cbn [tok_eqb negb]. change (String.eqb "[" "[") with true. cbn [negb].
  rewrite Hl, Hi, Hlo, Hr, Hf. cbn [orb].
  destruct (String.eqb name "Symbol"); [done|].
  destruct (String.eqb name "Bool"); [done|].
  destruct (String.eqb name "Func"); done.
Qed.

(** C1, as the code has it: when the tokens end before the closing
    bracket, a constructor other than [LSymbol] whose payload token is
    there gives the node it gives with the bracket, and returns it unless
    the number conversion of [Int], [Long], [Real] or [Float] fails; a dict
    whose tokens end where the comma or the closing brace is expected
    raises [ValueError] with [Expected ',' in dict, got None] or
    [Expected '}' in dict, got None]; and a list, or the loop of an
    [LSymbol], returns only after reading a closing bracket that is a token
    of the input. *)
Theorem input_exhausted :
  (forall name t (h : heap) fuel,
     starts_upper (Some name) = true -> String.eqb name "LSymbol" = false ->
     ast_of (parse (S fuel) [name; "["; t] h)
     = ast_of (parse (S fuel) [name; "["; t; "]"] h) /\
     ((String.eqb name "Int" || String.eqb name "Long"
       || String.eqb name "Real" || String.eqb name "Float") = false ->
      returns (parse (S fuel) [name; "["; t] h) = true)) /\
  (forall fuel idx eager self (h : heap) k self1 h1,
     tok_eqb (current_token self) "{" = true ->
     parse_expression fuel 0 false (consume self).2 h = Ok (k, self1, h1) ->
     (current_token self1 = None ->
      parse_expression (S (S fuel)) idx eager self h
      = Raise (ValueError "Expected ',' in dict, got None")) /\
     (forall v self2 h2,
        current_token self1 = Some "," ->
        parse_expression fuel 0 false (consume self1).2 h1 = Ok (v, self2, h2) ->
        current_token self2 = None ->
        parse_expression (S (S fuel)) idx eager self h
        = Raise (ValueError "Expected '}' in dict, got None"))) /\
  (forall fuel idx eager self (h : heap) r self' h',
     tok_eqb (current_token self) "[" = true ->
     parse_expression fuel idx eager self h = Ok (r, self', h') ->
     tokens self' = tokens self /\ pos self < pos self' - 1 /\
     pos self' <= length (tokens self) /\
     tokens self !! (pos self' - 1) = Some "]") /\
  (forall fuel self (h : heap) symbols symbols' self' h',
     lsymbol_loop fuel self h symbols = Ok (symbols', self', h') ->
     tokens self' = tokens self /\ pos self <= pos self' /\
     pos self' < length (tokens self) /\
     tokens self !! pos self' = Some "]").
Proof.
  split; [|split; [|split]].
  - intros name t h fuel Hup Hl. split.
    + by apply constructor_without_bracket.
    + by apply constructor_without_bracket_returns.
  - intros fuel idx eager self h k self1 h1 Hb Hk.
    rewrite (parse_expression_dict _ _ _ _ _ Hb).
    rewrite (parse_dict_after_key _ _ _ _ _ _ Hk). split.
    + by intros ->.
    + intros v self2 h2 -> -> Hc. cbn [mbind result_bind]. by rewrite Hc.
  - intros [|fuel] idx eager self h r self' h' Hb; [done|]. cbn [parse_expression].
    rewrite Hb. intros H.
    destruct fuel as [|fuel]; [done|]. revert H. cbn [parse_list consume].
    destruct (parse_list_loop fuel eager _ h [] 0) as [[[elements self1] h1]| | |] eqn:Hloop;
      cbn [mbind result_bind alloc]; try done.
    intros [= <- <- <-].
    apply (proj1 (proj2 (proj2 (parse_keeps fuel)))) in Hloop as [[T P] C].
    simpl in T, P. apply current_token_Some in C as [C1 C2]. simpl.
    replace (pos self1 + 1 - 1) with (pos self1) by lia.
    rewrite T in C1, C2. split; [done|]. split; [lia|]. split; [lia|done].
  - intros fuel self h symbols symbols' self' h' H.
    apply lsymbol_loop_exit in H as [[T P] C].
    apply current_token_Some in C as [C1 C2]. rewrite T in C1, C2. done.
Qed.

(** when the tokens are used up the loop of [LSymbol] appends [Symbol(None)]
    for ever *)
Lemma lsymbol_loop_at_end fuel : forall self (h : heap) symbols,
  current_token self = None -> lsymbol_loop fuel self h symbols = OutOfFuel.
Proof.
  induction fuel as [|fuel IH]; intros self h symbols Hend; [done|].
  simpl. rewrite Hend. simpl. apply IH.
  apply current_token_None. apply current_token_None in Hend. simpl. lia.
Qed.

(** when the tokens are used up the loop of a list calls
    [parse_simple_token(None)] *)
Lemma parse_list_loop_at_end fuel eager self (h : heap) elements idx :
  current_token self = None ->
  parse_list_loop (S (S fuel)) eager self h elements idx
  = Raise (AttributeError "'NoneType' object has no attribute 'isdigit'").
Proof. intros Hend. cbn [parse_list_loop parse_expression consume]. by rewrite Hend. Qed.

(** ** Commas in a list *)

Lemma current_token_at_pos pre x rest : current_token (at_pos pre (x :: rest)) = Some x.
Proof.
  apply current_token_Some. unfold at_pos. simpl. rewrite length_app. simpl.
  split; [lia|]. by apply list_lookup_middle.
Qed.

Lemma advance_at_pos pre x rest :
  (consume (at_pos pre (x :: rest))).2 = at_pos (pre ++ [x])%list rest.
Proof.
  unfold at_pos. simpl. f_equal.
  - by rewrite <- app_assoc.
  - rewrite length_app. simpl. lia.
Qed.

Lemma skip_commas n : forall fuel eager pre rest (h : heap) elements idx,
  parse_list_loop (n + fuel) eager (at_pos pre (replicate n "," ++ rest)%list) h elements idx
  = parse_list_loop fuel eager (at_pos (pre ++ replicate n ",")%list rest) h elements idx.
Proof.
  induction n as [|n IH]; intros fuel eager pre rest h elements idx.
  - simpl. by rewrite app_nil_r.
  - change (S n + fuel) with (S (n + fuel)). cbn [replicate app parse_list_loop].
    rewrite current_token_at_pos. cbn [tok_eqb negb].
    change (String.eqb "," "]") with false. change (String.eqb "," ",") with true.
    cbn [negb].
    pose proof (advance_at_pos pre "," (replicate n "," ++ rest)%list) as Hadv.
    cbn [consume snd] in Hadv. cbn [consume]. rewrite Hadv, IH.
    by rewrite <- app_assoc.
Qed.

Lemma parse_list_loop_mono fuel fuel' eager self (h : heap) elements idx r :
  parse_list_loop fuel eager self h elements idx = Ok r -> fuel <= fuel' ->
  parse_list_loop fuel' eager self h elements idx = Ok r.
Proof.
  intros H Hle. rewrite <- H.
  apply (proj1 (proj2 (proj2 (parse_mono fuel)))); [done|]. by rewrite H.
Qed.

Lemma list_loop_items items ts :
  Forall2 (fun it t => element it.1 t) items ts ->
  forall eager lead pre post (h : heap) els ets idx lo,
  (forall ctx, holds_chain h ctx lo els ets (length h)) ->
  exists fuel els' h',
    parse_list_loop fuel eager
      (at_pos pre (replicate lead "," ++ body items ++ "]" :: post)%list) h els idx
    = Ok (els', at_pos (pre ++ replicate lead "," ++ body items)%list ("]" :: post), h')
    /\ (exists new, h' = (h ++ new)%list)
    /\ forall ctx, holds_chain h' ctx lo els' (ets ++ ts)%list (length h').
Proof.
  induction 1 as [|[e n] t items ts [Hhead He] Hrest IH];
    intros eager lead pre post h els ets idx lo Hinv.
  - exists (lead + 1), els, h. split; [|split].
    + rewrite skip_commas. cbn [body app parse_list_loop].
      rewrite current_token_at_pos. cbn. by rewrite app_nil_r.
    + exists []. by rewrite app_nil_r.
    + intros ctx. rewrite app_nil_r. apply Hinv.
  - cbn [fst] in *. destruct Hhead as (x & e' & -> & Hx1 & Hx2).
    set (m := match items with [] => n | _ => S n end).
    assert (Hbody : body ((x :: e', n) :: items)
                    = ((x :: e') ++ replicate m "," ++ body items)%list).
    { cbn [body]. f_equal. subst m. by destruct items. }
    set (pre1 := (pre ++ replicate lead ",")%list).
    set (post1 := (replicate m "," ++ body items ++ "]" :: post)%list).
    assert (Hends : ends_item post1).
    { subst post1 m. destruct items as [|it items].
      - destruct n as [|n]; simpl; [exists "]", post|eexists _, _]; eauto.
      - simpl. eexists _, _. eauto. }
    destruct (He pre1 post1 h idx eager Hends) as (f2 & r & h1 & Hparse & Hbuilt).
    destruct Hbuilt as ([new1 ->] & Hlen & Ht).
    assert (Hinv1 : forall ctx, holds_chain (h ++ new1)%list ctx lo (els ++ [r])%list
                      (ets ++ [t])%list (length (h ++ new1)%list)).
    { intros ctx. rewrite <- Hlen.
      apply (holds_chain_snoc _ _ _ _ _ (length h)); [|done].
      apply holds_chain_app; [apply Hinv|done]. }
    destruct (IH eager m (pre1 ++ x :: e')%list post (h ++ new1)%list
                (els ++ [r])%list (ets ++ [t])%list (idx + 1) lo Hinv1)
      as (f1 & els' & h' & Hloop & [new' ->] & Hch).
    exists (lead + S (f1 + f2)), els', ((h ++ new1) ++ new')%list.
    split; [|split].
    + rewrite Hbody. rewrite skip_commas. fold pre1.
      rewrite <- !app_assoc. fold post1.
      cbn [parse_list_loop]. rewrite <- app_comm_cons, current_token_at_pos.
      cbn [tok_eqb negb].
      replace (String.eqb x "]") with false
        by (symmetry; by apply String.eqb_neq).
      replace (String.eqb x ",") with false
        by (symmetry; by apply String.eqb_neq).
      cbn [negb]. rewrite app_comm_cons.
      rewrite (parse_expression_mono _ (f1 + f2) _ _ _ _ _ Hparse) by lia.
      cbn [mbind result_bind]. unfold post1.
      rewrite (parse_list_loop_mono _ (f1 + f2) _ _ _ _ _ _ Hloop) by lia.
      subst pre1. by rewrite <- !app_assoc.
    + eexists. by rewrite <- app_assoc.
    + intros ctx.
      replace (ets ++ t :: ts)%list with ((ets ++ [t]) ++ ts)%list
        by (by rewrite <- app_assoc).
      apply Hch.
Qed.

Lemma lsymbol_skip_commas n : forall fuel pre rest (h : heap) symbols,
  lsymbol_loop (n + fuel) (at_pos pre (replicate n "," ++ rest)%list) h symbols
  = lsymbol_loop fuel (at_pos (pre ++ replicate n ",")%list rest) h symbols.
Proof.
  induction n as [|n IH]; intros fuel pre rest h symbols.
  - simpl. by rewrite app_nil_r.
  - change (S n + fuel) with (S (n + fuel)). cbn [replicate app lsymbol_loop].
    rewrite current_token_at_pos. cbn [tok_eqb negb].
    change (String.eqb "," "]") with false. change (String.eqb "," ",") with true.
    cbn [negb].
    pose proof (advance_at_pos pre "," (replicate n "," ++ rest)%list) as Hadv.
    cbn [consume snd] in Hadv. cbn [consume]. rewrite Hadv, IH.
    by rewrite <- app_assoc.
Qed.

Lemma lsymbol_items syms :
  Forall (fun it : string * nat => it.1 <> "," /\ it.1 <> "]") syms ->
  forall lead pre post (h : heap) els ets lo,
  (forall ctx, holds_chain h ctx lo els ets (length h)) ->
  exists fuel els' h',
    lsymbol_loop fuel
      (at_pos pre (replicate lead "," ++ symbol_body syms ++ "]" :: post)%list) h els
    = Ok (els', at_pos (pre ++ replicate lead "," ++ symbol_body syms)%list ("]" :: post), h')
    /\ (exists new, h' = (h ++ new)%list)
    /\ forall ctx, holds_chain h' ctx lo els'
                     (ets ++ map (fun it => TSymbol (Some it.1)) syms)%list (length h').
Proof.
  induction 1 as [|[w n] syms [Hw1 Hw2] Hrest IH]; intros lead pre post h els ets lo Hinv.
  - exists (lead + 1), els, h. split; [|split].
    + rewrite lsymbol_skip_commas. cbn [symbol_body app lsymbol_loop].
      rewrite current_token_at_pos. cbn. by rewrite app_nil_r.
    + exists []. by rewrite app_nil_r.
    + intros ctx. simpl. rewrite app_nil_r. apply Hinv.
  - cbn [fst] in *.
    set (pre1 := (pre ++ replicate lead ",")%list).
    assert (Hinv1 : forall ctx, holds_chain (h ++ [Symbol (Some w)])%list ctx lo
                      (els ++ [length h])%list (ets ++ [TSymbol (Some w)])%list
                      (length (h ++ [Symbol (Some w)])%list)).
    { intros ctx. rewrite length_app. simpl.
      replace (length h + 1) with (S (length h)) by lia.
      apply (holds_chain_snoc _ _ _ _ _ (length h)).
      - apply holds_chain_app; [apply Hinv|done].
      - intros c. constructor. by apply list_lookup_middle. }
    destruct (IH n (pre1 ++ [w])%list post (h ++ [Symbol (Some w)])%list
                (els ++ [length h])%list (ets ++ [TSymbol (Some w)])%list lo Hinv1)
      as (f1 & els' & h' & Hloop & [new' ->] & Hch).
    exists (lead + S f1), els', ((h ++ [Symbol (Some w)]) ++ new')%list.
    split; [|split].
    + rewrite lsymbol_skip_commas. fold pre1. cbn [symbol_body].
      rewrite <- app_comm_cons, <- app_assoc. cbn [lsymbol_loop].
      rewrite current_token_at_pos. cbn [tok_eqb negb].
      replace (String.eqb w "]") with false by (symmetry; by apply String.eqb_neq).
      replace (String.eqb w ",") with false by (symmetry; by apply String.eqb_neq).
      cbn [negb].
      pose proof (advance_at_pos pre1 w
                    (replicate n "," ++ symbol_body syms ++ "]" :: post)%list) as Hadv.
      cbn [consume snd] in Hadv. cbn [consume alloc]. rewrite Hadv.
      rewrite current_token_at_pos, Hloop. subst pre1. by rewrite <- !app_assoc.
    + eexists. by rewrite <- app_assoc.
    + intros ctx. cbn [map fst].
      replace (ets ++ TSymbol (Some w) :: map (fun it => TSymbol (Some it.1)) syms)%list
        with ((ets ++ [TSymbol (Some w)]) ++ map (fun it => TSymbol (Some it.1)) syms)%list
        by (by rewrite <- app_assoc).
      apply Hch.
Qed.

Lemma list_at_pos (items : list (list string * nat)) (ts : list tree)
    (lead : nat) (pre post : list string) (h : heap) idx eager :
  Forall2 (fun it t => element it.1 t) items ts ->
  exists fuel r h',
    parse_expression fuel idx eager
      (at_pos pre ("[" :: replicate lead "," ++ body items ++ "]" :: post)%list) h
    = Ok (r, at_pos (pre ++ "[" :: replicate lead "," ++ body items ++ ["]"])%list post, h')
    /\ built h h' r (TList ts).
Proof.
  intros Hitems.
  destruct (list_loop_items items ts Hitems eager lead (pre ++ ["["])%list post h [] [] 0
              (length h))
    as (f & els & h1 & Hloop & Hext & Hch); [intros; constructor|].
  exists (S (S f)), (length h1), (h1 ++ [List els])%list.
  split; [|by apply built_list].
  set (rest := (replicate lead "," ++ body items ++ "]" :: post)%list) in *.
  cbn [parse_expression]. rewrite current_token_at_pos. cbn [tok_eqb].
  change (String.eqb "[" "[") with true. cbn iota. cbn [parse_list].
  pose proof (advance_at_pos pre "[" rest) as Hadv0.
  cbn [consume snd] in Hadv0. cbn [consume]. rewrite Hadv0, Hloop.
  cbn [mbind result_bind alloc].
  pose proof (advance_at_pos ((pre ++ ["["]) ++ replicate lead "," ++ body items)%list
                "]" post) as Hadv.
  cbn [consume snd] in Hadv. rewrite Hadv.
  do 3 f_equal. rewrite <- !app_assoc. reflexivity.
Qed.

Lemma list_of_items (items : list (list string * nat)) (ts : list tree)
    (lead : nat) (post : list string) (h : heap) :
  Forall2 (fun it t => element it.1 t) items ts ->
  exists fuel r self' h',
    parse fuel ("[" :: replicate lead "," ++ body items ++ "]" :: post)%list h
    = Ok (r, self', h')
    /\ built h h' r (TList ts)
    /\ drop (pos self') (tokens self') = post.
Proof.
  intros Hitems.
  destruct (list_at_pos items ts lead [] post h 0 true Hitems) as (f & r & h' & Hp & Hb).
  exists f, r, (at_pos ("[" :: replicate lead "," ++ body items ++ ["]"])%list post), h'.
  split; [exact Hp|]. split; [exact Hb|].
  unfold at_pos. cbn [tokens pos]. by rewrite drop_app_length.
Qed.

(** a list of elements is an element: lists nest *)
Lemma list_element (items : list (list string * nat)) (ts : list tree) (lead : nat) :
  Forall2 (fun it t => element it.1 t) items ts ->
  element ("[" :: replicate lead "," ++ body items ++ ["]"])%list (TList ts).
Proof.
  intros Hitems. split; [by eexists _, _|].
  intros pre post h idx eager _.
  destruct (list_at_pos items ts lead pre post h idx eager Hitems) as (f & r & h' & Hp & Hb).
  exists f, r, h'. split; [|exact Hb].
  rewrite <- Hp. do 2 f_equal. cbn [app]. by rewrite <- !app_assoc.
Qed.

Lemma lsymbol_of_items (syms : list (string * nat)) (lead : nat)
    (post : list string) (h : heap) :
  Forall (fun it : string * nat => it.1 <> "," /\ it.1 <> "]") syms ->
  exists fuel r self' h',
    parse fuel ("LSymbol" :: "[" :: replicate lead "," ++ symbol_body syms ++ "]" :: post)%list h
    = Ok (r, self', h')
    /\ built h h' r (TList (map (fun it => TSymbol (Some it.1)) syms))
    /\ drop (pos self') (tokens self') = post.
Proof.
  intros Hsyms.
  destruct (lsymbol_items syms Hsyms lead ["LSymbol"; "["] post h [] [] (length h))
    as (f & els & h1 & Hloop & Hext & Hch); [intros; constructor|].
  exists (S f), (length h1),
    (at_pos (["LSymbol"; "["] ++ replicate lead "," ++ symbol_body syms ++ ["]"])%list post),
    (h1 ++ [List els])%list.
  split; [|split].
  - unfold parse.
    set (rest := (replicate lead "," ++ symbol_body syms ++ "]" :: post)%list) in *.
    cbn [parse_expression].
    change (current_token {| tokens := "LSymbol" :: "[" :: rest; pos := 0 |})
      with (Some "LSymbol").
    change (tok_eqb (Some "LSymbol") "[") with false.
    change (tok_eqb (Some "LSymbol") "{") with false.
    change (starts_upper (Some "LSymbol")) with true. cbn iota.
    unfold parse_type_constructor. cbn [consume].
    change (current_token {| tokens := "LSymbol" :: "[" :: rest; pos := 0 |})
      with (Some "LSymbol").
    change (current_token {| tokens := tokens {| tokens := "LSymbol" :: "[" :: rest; pos := 0 |};
                             pos := pos {| tokens := "LSymbol" :: "[" :: rest; pos := 0 |} + 1 |})
      with (Some "[").
    change (tok_eqb (Some "[") "[") with true. cbn [negb].
    change (tok_eqb (Some "LSymbol") "Symbol") with false.
    change (tok_eqb (Some "LSymbol") "Int" || tok_eqb (Some "LSymbol") "Long") with false.
    change (tok_eqb (Some "LSymbol") "Real" || tok_eqb (Some "LSymbol") "Float") with false.
    change (tok_eqb (Some "LSymbol") "Bool") with false.
    change (tok_eqb (Some "LSymbol") "Func") with false.
    change (tok_eqb (Some "LSymbol") "LSymbol") with true. cbn iota.
    match goal with
    | |- context [lsymbol_loop f ?p h []] =>
        change p with (at_pos ["LSymbol"; "["] rest)
    end.
    rewrite Hloop. cbn [mbind result_bind alloc].
    pose proof (advance_at_pos (["LSymbol"; "["] ++ replicate lead "," ++ symbol_body syms)%list
                  "]" post) as Hadv.
    cbn [consume snd] in Hadv. rewrite Hadv.
    do 3 f_equal. by rewrite <- !app_assoc.
  - by apply built_list.
  - unfold at_pos. cbn [tokens pos]. by rewrite drop_app_length.
Qed.

(** C10: between the brackets of a list, the commas are skipped wherever
    they stand: with any number of commas before the first element, after
    the last, and, beyond the first, between two elements, the list parses
    to the node whose elements are the trees of its elements, the same for
    every choice of these numbers; with no element it parses to the empty
    list.  Likewise [LSymbol[...]] parses to the list of the [Symbol]s of
    its names, whatever the numbers of commas before, between and after
    them. *)
Theorem commas_are_separators (items : list (list string * nat)) (ts : list tree)
    (syms : list (string * nat)) (lead : nat) (post : list string) (h : heap) :
  Forall2 (fun it t => element it.1 t) items ts ->
  Forall (fun it : string * nat => it.1 <> "," /\ it.1 <> "]") syms ->
  (exists fuel r self' h',
     parse fuel ("[" :: replicate lead "," ++ body items ++ "]" :: post)%list h
     = Ok (r, self', h')
     /\ built h h' r (TList ts)
     /\ drop (pos self') (tokens self') = post) /\
  (exists fuel r self' h',
     parse fuel ("LSymbol" :: "[" :: replicate lead "," ++ symbol_body syms ++ "]" :: post)%list h
     = Ok (r, self', h')
     /\ built h h' r (TList (map (fun it => TSymbol (Some it.1)) syms))
     /\ drop (pos self') (tokens self') = post).
Proof.
  intros Hitems Hsyms. split; [by apply list_of_items|by apply lsymbol_of_items].
Qed.

(** a word that is no bracket, no constructor name and no number is an element *)
Lemma word_element (w : string) :
  w <> "," -> w <> "]" -> String.eqb w "[" = false -> String.eqb w "{" = false ->
  starts_upper (Some w) = false -> isdigit w = false ->
  isdigit (remove_char "." w) && char_in "." w = false ->
  element [w] (TString w).
Proof.
  intros H1 H2 H3 H4 H5 H6 H7. split; [by exists w, []|].
  intros pre post h idx eager _. exists 1, (length h), (h ++ [String (Some w)])%list.
  split.
  - cbn [parse_expression app]. rewrite current_token_at_pos. cbn [tok_eqb].
    rewrite H3, H4, H5.
    pose proof (advance_at_pos pre w post) as Hadv.
    cbn [consume snd] in Hadv. cbn [consume]. rewrite Hadv.
    rewrite current_token_at_pos. unfold parse_simple_token. rewrite H6, H7. done.
  - apply built_leaf. intros. by constructor.
Qed.

(** ** Simple tokens *)

Lemma decimal_facts c :
  char_isdecimal c = true ->
  char_isblank c = false /\ char_isdigit c = true /\ Ascii.eqb c "." = false /\
  Ascii.eqb c "_" = false /\ lower c = c /\
  Ascii.eqb c "i" = false /\ Ascii.eqb c "n" = false /\
  forall r, skip_sign (c :: r) = (false, c :: r).
Proof.
  destruct c as [[] [] [] [] [] [] [] []]; vm_compute; intros H;
    try discriminate H; repeat split.
Qed.

Lemma digit_not_dot c : char_isdigit c = true -> Ascii.eqb c "." = false.
Proof.
  destruct c as [[] [] [] [] [] [] [] []]; vm_compute; intros H;
    try discriminate H; reflexivity.
Qed.

Lemma scan_digits_all l :
  Forall (fun c => char_isdecimal c = true) l -> scan_digits l = (l, []).
Proof.
  induction 1 as [|c l Hc Hl IH]; [done|]. simpl. by rewrite Hc, IH.
Qed.

Lemma scan_digits_dot l r :
  Forall (fun c => char_isdecimal c = true) l ->
  scan_digits (l ++ "."%char :: r) = (l, "."%char :: r).
Proof.
  induction 1 as [|c l Hc Hl IH]; [done|]. simpl. by rewrite Hc, IH.
Qed.

Lemma lstrip_decimal_or_dot c l :
  char_isdecimal c = true \/ c = "."%char -> lstrip (c :: l) = c :: l.
Proof.
  intros [Hc| ->]; [|done]. simpl.
  by destruct (decimal_facts c Hc) as (-> & _).
Qed.

Lemma strip_decimal_or_dot l :
  Forall (fun c => char_isdecimal c = true \/ c = "."%char) l -> strip l = l.
Proof.
  intros Hl. unfold strip. destruct l as [|c l]; [done|].
  inversion Hl as [|? ? Hc Hl']; subst.
  rewrite (lstrip_decimal_or_dot c l Hc).
  assert (Hrev : Forall (fun c => char_isdecimal c = true \/ c = "."%char) (rev (c :: l))).
  { apply Forall_forall. intros x Hx. apply list_elem_of_In, in_rev, list_elem_of_In in Hx.
    by eapply (proj1 (Forall_forall _ _) Hl). }
  destruct (rev (c :: l)) as [|d l'] eqn:Hr.
  - by rewrite <- (rev_involutive (c :: l)), Hr.
  - inversion Hrev; subst. rewrite lstrip_decimal_or_dot by done.
    by rewrite <- Hr, rev_involutive.
Qed.

Lemma str_all_Forall p s :
  str_all p s = true <-> Forall (fun c => p c = true) (list_ascii_of_string s).
Proof.
  induction s as [|c s IH]; simpl.
  - split; [constructor|done].
  - rewrite andb_true_iff, IH. split.
    + intros [? ?]. by constructor.
    + by inversion 1.
Qed.

Lemma py_int_decimal (t : string) :
  decimal_str t = true ->
  isdigit t = true /\
  py_int (Some t) = Ok (digits_value (list_ascii_of_string t)).
Proof.
  intros Hd. destruct t as [|c t]; [done|]. cbn [decimal_str] in Hd.
  pose proof (proj1 (str_all_Forall _ _) Hd) as Hall.
  split.
  - cbn [isdigit]. apply str_all_Forall. eapply Forall_impl; [exact Hall|].
    intros x Hx. by destruct (decimal_facts x Hx) as (_ & -> & _).
  - unfold py_int. rewrite strip_decimal_or_dot
      by (eapply Forall_impl; [exact Hall|]; by left).
    simpl list_ascii_of_string in *. inversion Hall as [|? ? Hc Hl]; subst.
    destruct (decimal_facts c Hc) as (_ & _ & _ & _ & _ & _ & _ & ->).
    cbn [digitpart]. rewrite Hc, (scan_digits_all _ Hl). done.
Qed.

Lemma isdigit_no_dot (t : string) :
  str_all char_isdigit t = true -> remove_char "." t = t /\ count_char "." t = 0.
Proof.
  induction t as [|c t IH]; [done|]. simpl. intros [Hc Ht]%andb_true_iff.
  destruct (IH Ht) as [-> ->]. by rewrite (digit_not_dot c Hc).
Qed.

Lemma char_in_count c (t : string) : char_in c t = false -> count_char c t = 0.
Proof.
  induction t as [|d t IH]; [done|]. cbn [char_in count_char].
  intros [Hc Ht]%orb_false_elim. by rewrite Ascii.eqb_sym, Hc, IH.
Qed.

Lemma remove_no_dot (t : string) : count_char "." t = 0 -> remove_char "." t = t.
Proof.
  induction t as [|c t IH]; [done|]. simpl.
  destruct (Ascii.eqb c "."); [done|]. simpl. intros Hc. by rewrite IH.
Qed.

(** a string with one point and digits besides splits at the point *)
Lemma one_dot_split (t : string) :
  count_char "." t = 1 -> str_all char_isdecimal (remove_char "." t) = true ->
  exists l1 l2, list_ascii_of_string t = (l1 ++ "."%char :: l2)%list /\
    Forall (fun c => char_isdecimal c = true) l1 /\
    Forall (fun c => char_isdecimal c = true) l2 /\
    list_ascii_of_string (remove_char "." t) = (l1 ++ l2)%list.
Proof.
  induction t as [|c t IH]; [done|]. simpl.
  destruct (Ascii.eqb_spec c ".") as [->|Hne].
  - intros [= Hc] Hall. exists [], (list_ascii_of_string t). simpl.
    assert (Hrm : remove_char "." t = t) by (by apply remove_no_dot).
    rewrite Hrm in *. split; [done|]. split; [constructor|].
    split; [by apply str_all_Forall|done].
  - simpl. intros Hc [Hd Hall]%andb_true_iff.
    destruct (IH Hc Hall) as (l1 & l2 & -> & H1 & H2 & ->).
    exists (c :: l1), l2. repeat split; try done. by constructor.
Qed.

Lemma float_literal_shape (t : string) :
  float_shape t = true -> float_literal t = true.
Proof.
  unfold float_shape. intros [Hc%Nat.eqb_eq Hd]%andb_true_iff.
  assert (Hall : str_all char_isdecimal (remove_char "." t) = true).
  { unfold decimal_str in Hd. by destruct (remove_char "." t). }
  destruct (one_dot_split t Hc Hall) as (l1 & l2 & Hl & H1 & H2 & Hrm).
  assert (Hne : (l1 ++ l2)%list <> []).
  { rewrite <- Hrm. unfold decimal_str in Hd. by destruct (remove_char "." t). }
  unfold float_literal. rewrite Hl.
  rewrite strip_decimal_or_dot.
  2:{ apply Forall_app. split; [eapply Forall_impl; [exact H1|]; by left|].
      constructor; [by right|]. eapply Forall_impl; [exact H2|]; by left. }
  destruct l1 as [|c l1].
  - destruct l2 as [|d l2]; [done|]. inversion H2 as [|? ? Hd' Hl2]; subst.
    cbn [app skip_sign snd map lower string_of_list_ascii].
    change (String.eqb _ "inf") with false. change (String.eqb _ "infinity") with false.
    change (String.eqb _ "nan") with false. cbn [orb].
    unfold scan_number. cbn [digitpart]. change (char_isdecimal ".") with false.
    cbn iota. rewrite Hd', (scan_digits_all _ Hl2). done.
  - inversion H1 as [|? ? Hc' Hl1]; subst.
    destruct (decimal_facts c Hc') as (_ & _ & _ & _ & Hlow & Hi & Hn & Hsign).
    cbn [app]. rewrite Hsign. cbn [snd map string_of_list_ascii]. rewrite Hlow.
    replace (String.eqb (String.String c _) "inf") with false
      by (cbn [String.eqb]; by rewrite Hi).
    replace (String.eqb (String.String c _) "infinity") with false
      by (cbn [String.eqb]; by rewrite Hi).
    replace (String.eqb (String.String c _) "nan") with false
      by (cbn [String.eqb]; by rewrite Hn).
    cbn [orb]. unfold scan_number. cbn [digitpart]. rewrite Hc'.
    rewrite (scan_digits_dot _ _ Hl1).
    destruct l2 as [|d l2]; [done|]. inversion H2 as [|? ? Hd' Hl2]; subst.
    cbn [digitpart]. rewrite Hd', (scan_digits_all _ Hl2). done.
Qed.

(** C2, as the code has it: a simple token that is not off-shape becomes
    an [Integer] exactly when it is a non-empty run of the digits [0]..[9],
    a [Float] exactly when it has exactly one point and digits [0]..[9]
    besides, at least one on either side ([1.] and [.5] included), and a
    [String] holding the token in every other case. *)
Theorem simple_token_classes (t : string) (h : heap) :
  off_shape t = false ->
  parse_simple_token (Some t) h =
    Ok (alloc h (if decimal_str t then Integer (digits_value (list_ascii_of_string t))
                 else if float_shape t then Float (float_value t)
                 else String (Some t))).
Proof.
  intros Hoff. unfold parse_simple_token.
  destruct (decimal_str t) eqn:Hdec.
  - destruct (py_int_decimal t Hdec) as [-> ->]. done.
  - destruct (isdigit t) eqn:Hdig.
    + exfalso. assert (Hall : str_all char_isdigit t = true) by (by destruct t).
      destruct (isdigit_no_dot t Hall) as [Hrm Hcnt].
      unfold off_shape, float_shape in Hoff. rewrite Hrm, Hdig, Hdec, Hcnt in Hoff.
      done.
    + destruct (isdigit (remove_char "." t)) eqn:Hrd; cbn [andb].
      * destruct (char_in "." t) eqn:Hin.
        -- unfold off_shape in Hoff. rewrite Hrd, Hdec in Hoff. cbn in Hoff.
           apply negb_false_iff in Hoff. rewrite Hoff.
           unfold py_float. rewrite (float_literal_shape t Hoff). done.
        -- replace (float_shape t) with false; [done|].
           symmetry. unfold float_shape. apply andb_false_iff. left.
           by rewrite (char_in_count _ _ Hin).
      * replace (float_shape t) with false; [done|].
        symmetry. unfold float_shape. apply andb_false_iff. right.
        unfold decimal_str, isdigit in *.
        destruct (remove_char "." t) as [|c s]; [done|].
        destruct (str_all char_isdecimal (String.String c s)) eqn:Hd; [|done].
        exfalso. apply str_all_Forall in Hd.
        assert (str_all char_isdigit (String.String c s) = true); [|congruence].
        apply str_all_Forall. eapply Forall_impl; [exact Hd|].
        intros x Hx. by destruct (decimal_facts x Hx) as (_ & -> & _).
Qed.

(** * Further properties *)

(** ** The tokenizer, character by character *)

Lemma length_append (a b : string) :
  String.length (a ++ b) = String.length a + String.length b.
Proof. induction a as [|c a IH]; simpl; [done|]. by rewrite IH. Qed.

Lemma append_empty (s : string) : s ++ "" = s.
Proof. induction s as [|c s IH]; simpl; [done|]. by rewrite IH. Qed.

Lemma get_append (pre suf : string) :
  String.get (String.length pre) (pre ++ suf) = String.get 0 suf.
Proof. induction pre as [|c pre IH]; simpl; [done|]. exact IH. Qed.

Lemma substring_append (pre w rest : string) :
  substring (String.length pre) (String.length w) (pre ++ w ++ rest) = w.
Proof.
  induction pre as [|c pre IH]; simpl; [|exact IH].
  induction w as [|d w IHw]; simpl; [by destruct rest|]. by rewrite IHw.
Qed.

Lemma take_drop_word (s : string) : take_word s ++ drop_word s = s.
Proof.
  induction s as [|c s IH]; simpl; [done|].
  destruct (word_char c); simpl; [by rewrite IH|done].
Qed.

Lemma take_word_all (s : string) : str_all word_char (take_word s) = true.
Proof.
  induction s as [|c s IH]; simpl; [done|].
  destruct (word_char c) eqn:Hc; simpl; [by rewrite Hc|done].
Qed.

Lemma append_snoc (pre : string) c (s : string) :
  (pre ++ String.String c "") ++ s = pre ++ String.String c s.
Proof. by rewrite append_assoc. Qed.

Lemma scan_word_take fuel : forall pre suf,
  String.length (take_word suf) <= fuel ->
  scan_word fuel (pre ++ suf) (String.length pre)
  = String.length pre + String.length (take_word suf).
Proof.
  induction fuel as [|fuel IH]; intros pre suf Hfuel.
  - simpl. lia.
  - cbn [scan_word]. rewrite get_append.
    destruct suf as [|c suf]; cbn [String.get take_word]; [simpl; lia|].
    change (negb (char_in c "[](){},:") && negb (char_isspace c)) with (word_char c).
    cbn [take_word] in Hfuel.
    destruct (word_char c) eqn:Hc; [|simpl; lia].
    cbn [String.length] in Hfuel.
    rewrite <- append_snoc.
    replace (String.length pre + 1) with (String.length (pre ++ String.String c ""))
      by (rewrite length_append; simpl; lia).
    rewrite IH by lia. rewrite length_append. simpl. lia.
Qed.

Lemma lex_take_word (w rest cur : string) :
  str_all word_char w = true -> lex (w ++ rest) cur = lex rest (cur ++ w).
Proof.
  revert cur. induction w as [|c w IH]; intros cur; simpl.
  - intros _. by rewrite append_empty.
  - intros [Hc Hw]%andb_true_iff. rewrite Hc, IH by done. by rewrite append_assoc.
Qed.

Lemma lex_break (s cur : string) :
  take_word s = "" -> lex s cur = (flush cur ++ lex s "")%list.
Proof.
  destruct s as [|c s]; simpl.
  - intros _. by rewrite app_nil_r.
  - destruct (word_char c); [done|]. intros _. by destruct (char_isspace c).
Qed.

Lemma take_word_drop (s : string) : take_word (drop_word s) = "".
Proof.
  induction s as [|c s IH]; simpl; [done|].
  destruct (word_char c) eqn:Hc; [done|]. simpl. by rewrite Hc.
Qed.

Lemma word_char_cases c :
  word_char c = negb (char_isspace c) && negb (char_in c "[](),{}") && negb (Ascii.eqb c ":").
Proof. destruct c as [[] [] [] [] [] [] [] []]; reflexivity. Qed.

Lemma tokenize_loop_lex fuel : forall pre suf tokens,
  String.length suf < fuel ->
  tokenize_loop fuel (pre ++ suf) (String.length pre) tokens = Ok (tokens ++ lex suf "")%list.
Proof.
  induction fuel as [|fuel IH]; intros pre suf tokens Hfuel; [lia|].
  cbn [tokenize_loop]. rewrite get_append.
  destruct suf as [|c suf]; [simpl; by rewrite app_nil_r|].
  cbn [String.get]. simpl in Hfuel.
  assert (Hstep : forall toks, tokenize_loop fuel (pre ++ String.String c suf)
                    (String.length pre + 1) toks = Ok (toks ++ lex suf "")%list).
  { intros toks. rewrite <- append_snoc.
    replace (String.length pre + 1) with (String.length (pre ++ String.String c ""))
      by (rewrite length_append; simpl; lia).
    apply IH. lia. }
  destruct (char_isspace c) eqn:Hs.
  { rewrite Hstep. cbn [lex]. rewrite word_char_cases, Hs. done. }
  destruct (char_in c "[](),{}") eqn:Hb.
  { rewrite Hstep. cbn [lex]. rewrite word_char_cases, Hs, Hb. cbn [negb andb flush app].
    by rewrite <- app_assoc. }
  destruct (Ascii.eqb c ":") eqn:Hc.
  { rewrite Hstep. cbn [lex]. rewrite word_char_cases, Hs, Hb, Hc.
    cbn [negb andb flush app]. by rewrite <- app_assoc. }
  assert (Hw : word_char c = true) by (by rewrite word_char_cases, Hs, Hb, Hc).
  set (s := String.String c suf) in *.
  assert (Hlen : String.length (pre ++ s) - String.length pre = String.length s)
    by (rewrite length_append; lia).
  rewrite Hlen.
  pose proof (take_drop_word s) as Hsplit.
  pose proof (take_word_all s) as Hall.
  pose proof (take_word_drop s) as Hbrk.
  assert (Hpos : 0 < String.length (take_word s))
    by (subst s; cbn [take_word]; rewrite Hw; simpl; lia).
  assert (Htw : String.length (take_word s) <= String.length s).
  { rewrite <- Hsplit at 2. rewrite length_append. lia. }
  rewrite scan_word_take by done.
  replace (String.length pre + String.length (take_word s) - String.length pre)
    with (String.length (take_word s)) by lia.
  assert (Hsuf : String.length suf = String.length s - 1) by (subst s; simpl; lia).
  clearbody s. revert Hsplit Hall Hbrk Hpos Htw.
  generalize (take_word s) (drop_word s). intros w rest <- Hall Hbrk Hpos Htw.
  rewrite length_append in Hsuf.
  rewrite substring_append, <- append_assoc.
  replace (String.length pre + String.length w)
    with (String.length (pre ++ w)) by (rewrite length_append; lia).
  rewrite IH by lia.
  rewrite <- app_assoc. f_equal.
  rewrite lex_take_word by done. rewrite (lex_break rest ("" ++ w)) by done.
  destruct w; [simpl in Hpos; lia|reflexivity].
Qed.

Lemma tokenize_lex (text : string) : tokenize text = Ok (lex text "").
Proof. apply (tokenize_loop_lex _ "" text []). lia. Qed.

Lemma str_all_append p (a b : string) :
  str_all p (a ++ b) = str_all p a && str_all p b.
Proof. induction a as [|c a IH]; simpl; [done|]. by rewrite IH, andb_assoc. Qed.

Lemma flush_shape (cur : string) :
  str_all word_char cur = true -> Forall token_shape (flush cur).
Proof.
  intros Hcur. destruct cur as [|c cur]; [constructor|].
  constructor; [|constructor]. right. done.
Qed.

Lemma lex_shape (s : string) : forall cur,
  str_all word_char cur = true -> Forall token_shape (lex s cur).
Proof.
  induction s as [|c s IH]; intros cur Hcur; cbn [lex].
  - by apply flush_shape.
  - destruct (word_char c) eqn:Hc.
    + apply IH. rewrite str_all_append, Hcur. simpl. by rewrite Hc.
    + destruct (char_isspace c) eqn:Hs.
      * apply Forall_app. split; [by apply flush_shape|by apply IH].
      * apply Forall_app. split; [by apply flush_shape|].
        constructor; [|by apply IH]. left. by exists c.
Qed.

Lemma join_empty_app (l1 l2 : list string) :
  join "" (l1 ++ l2)%list = join "" l1 ++ join "" l2.
Proof.
  induction l1 as [|x l1 IH]; [done|].
  destruct l1 as [|y l1].
  - simpl. destruct l2; simpl; [by rewrite append_empty|done].
  - change (join "" ((x :: y :: l1) ++ l2)%list)
      with (x ++ "" ++ join "" ((y :: l1) ++ l2)%list).
    rewrite IH.
    change (join "" (x :: y :: l1)) with (x ++ "" ++ join "" (y :: l1)).
    simpl. by rewrite append_assoc.
Qed.

Lemma join_flush (cur : string) : join "" (flush cur) = cur.
Proof. by destruct cur. Qed.

Lemma lex_join (s : string) : forall cur,
  join "" (lex s cur) = cur ++ remove_blanks s.
Proof.
  induction s as [|c s IH]; intros cur; cbn [lex remove_blanks].
  - by rewrite join_flush, append_empty.
  - destruct (word_char c) eqn:Hc.
    + rewrite IH, append_assoc. rewrite word_char_cases in Hc.
      destruct (char_isspace c); [done|]. done.
    + destruct (char_isspace c) eqn:Hs.
      * by rewrite join_empty_app, join_flush, IH.
      * rewrite join_empty_app, join_flush.
        change (String.String c "" :: lex s "") with ([String.String c ""] ++ lex s "")%list.
        rewrite join_empty_app, IH. done.
Qed.

(** the token a character that ends a word leaves: none for a blank, the
    character itself otherwise *)
Lemma lex_separator (c : ascii) (b : string) : word_char c = false ->
  forall a cur,
  lex (a ++ String.String c b) cur
  = (lex a cur ++ (if char_isspace c then [] else [String.String c ""]) ++ lex b "")%list.
Proof.
  intros Hc a. induction a as [|d a IH]; intros cur; cbn [append lex].
  - rewrite Hc. by destruct (char_isspace c).
  - destruct (word_char d); [apply IH|].
    destruct (char_isspace d); rewrite IH, <- ?app_assoc; done.
Qed.

Lemma lex_blanks (s : string) : str_all char_isspace s = true -> lex s "" = [].
Proof.
  induction s as [|c s IH]; [done|]. simpl. intros [Hc Hs]%andb_true_iff.
  rewrite word_char_cases, Hc. simpl. by apply IH.
Qed.

Lemma tokenize_word (w : string) :
  w <> "" -> str_all word_char w = true -> tokenize w = Ok [w].
Proof.
  intros Hne Hw. rewrite tokenize_lex.
  rewrite <- (append_empty w) at 1. rewrite lex_take_word by done.
  by destruct w.
Qed.

(** X1: [tokenize] returns for every text, and each of its tokens is one
    bracket, brace, parenthesis, comma or colon, or a non-empty word with
    none of these characters and no blank in it. *)
Theorem tokenize_token_shapes (text : string) :
  exists tokens, tokenize text = Ok tokens /\ Forall token_shape tokens.
Proof. exists (lex text ""). split; [apply tokenize_lex|by apply lex_shape]. Qed.

(** X2: the tokens of a text, put end to end, are the text without its
    blanks: the tokenizer drops blanks and nothing else. *)
Theorem tokenize_keeps_text (text : string) :
  exists tokens, tokenize text = Ok tokens /\ join "" tokens = remove_blanks text.
Proof. exists (lex text ""). split; [apply tokenize_lex|apply lex_join]. Qed.

(** X3: a character that is no word character cuts the text in two: the
    tokens of [a ++ c ++ b] are the tokens of [a], the character [c] unless
    it is a blank, and the tokens of [b]. *)
Theorem tokenize_at_separator (a b : string) (c : ascii) :
  word_char c = false ->
  exists ta tb,
    tokenize a = Ok ta /\ tokenize b = Ok tb /\
    tokenize (a ++ String.String c b)
    = Ok (ta ++ (if char_isspace c then [] else [String.String c ""]) ++ tb)%list.
Proof.
  intros Hc. exists (lex a ""), (lex b ""). rewrite !tokenize_lex.
  split; [done|]. split; [done|]. by rewrite lex_separator.
Qed.

(** ** Every expression takes a token *)

Lemma parse_type_constructor_advances fuel self h r self' h' :
  parse_type_constructor fuel self h = Ok (r, self', h') ->
  tokens self' = tokens self /\ pos self < pos self'.
Proof.
  unfold parse_type_constructor. cbn [consume alloc].
  set (self1 := {| tokens := tokens self; pos := pos self + 1 |}).
  set (self2 := {| tokens := tokens self1; pos := pos self1 + 1 |}).
  set (self3 := {| tokens := tokens self2; pos := pos self2 + 1 |}).
  set (self4 := {| tokens := tokens self3; pos := pos self3 + 1 |}).
  assert (K1 : tokens self1 = tokens self /\ pos self < pos self1) by (simpl; split; [done|lia]).
  assert (K4 : tokens self4 = tokens self /\ pos self < pos self4) by (simpl; split; [done|lia]).
  destruct (tok_eqb _ "["); cbn [negb]; [|by intros [= <- <- <-]].
  destruct (tok_eqb _ "Symbol"); [by intros [= <- <- <-]|].
  destruct (tok_eqb _ "Int" || tok_eqb _ "Long").
  { destruct (py_int _); cbn [mbind result_bind]; try done. by intros [= <- <- <-]. }
  destruct (tok_eqb _ "Real" || tok_eqb _ "Float").
  { destruct (py_float _); cbn [mbind result_bind]; try done. by intros [= <- <- <-]. }
  destruct (tok_eqb _ "Bool"); [by intros [= <- <- <-]|].
  destruct (tok_eqb _ "Func"); [by intros [= <- <- <-]|].
  destruct (tok_eqb _ "LSymbol"); [|by intros [= <- <- <-]].
  destruct (lsymbol_loop fuel self2 h []) as [[[symbols self5] h5]| | |] eqn:Hloop;
    cbn [mbind result_bind]; try done.
  intros [= <- <- <-]. apply lsymbol_loop_exit in Hloop as [[T P] _].
  simpl in *. split; [done|lia].
Qed.

(** X4: an expression that parses leaves the tokens as they were and the
    position strictly further: no expression is read from no token, which
    is what makes the loop of a list end. *)
Theorem parse_expression_advances fuel idx eager self h r self' h' :
  parse_expression fuel idx eager self h = Ok (r, self', h') ->
  tokens self' = tokens self /\ pos self < pos self'.
Proof.
  destruct fuel as [|fuel]; [done|]. cbn [parse_expression].
  destruct (tok_eqb (current_token self) "[").
  { destruct fuel as [|fuel]; [done|]. cbn [parse_list consume].
    destruct (parse_list_loop fuel eager _ h [] 0) as [[[elements self1] h1]| | |] eqn:Hloop;
      cbn [mbind result_bind alloc]; try done.
    intros [= <- <- <-].
    apply (proj1 (proj2 (proj2 (parse_keeps fuel)))) in Hloop as [[T P] _].
    simpl in *. split; [done|lia]. }
  destruct (tok_eqb (current_token self) "{").
  { destruct fuel as [|fuel]; [done|]. cbn [parse_dict consume].
    destruct (parse_expression fuel 0 false _ h) as [[[k self1] h1]| | |] eqn:Hk;
      cbn [mbind result_bind]; try done.
    destruct (tok_eqb (current_token self1) ","); cbn [negb]; [|done].
    destruct (parse_expression fuel 0 false _ h1) as [[[v self2] h2]| | |] eqn:Hv;
      cbn [mbind result_bind]; try done.
    destruct (tok_eqb (current_token self2) "}"); cbn [negb alloc]; [|done].
    intros [= <- <- <-].
    apply (proj1 (parse_keeps fuel)) in Hk, Hv.
    destruct Hk as [T1 P1], Hv as [T2 P2]. simpl in *. split; [congruence|lia]. }
  destruct (starts_upper (current_token self)); [apply parse_type_constructor_advances|].
  cbn [consume].
  destruct (parse_simple_token _ h) as [[r1 h1]| | |]; cbn [mbind result_bind]; try done.
  intros [= <- <- <-]. simpl. split; [done|lia].
Qed.

(** ** The objects the parser makes *)

Lemma fresh_from_alloc lo (h : heap) (node : ASTNode) :
  fresh_from lo h ->
  match node with
  | Function _ args => args = []
  | List elements => Forall (fun e => lo <= e < length h) elements
  | Dict keys values => lo <= keys /\ keys < values /\ values < length h
  | _ => True
  end ->
  fresh_from lo (h ++ [node])%list.
Proof.
  intros Hh Hnode i Hi. rewrite length_app in Hi. simpl in Hi.
  unfold fresh_node. destruct (decide (i < length h)) as [Hlt|Hge].
  - rewrite lookup_app_l by done. apply Hh. lia.
  - assert (i = length h) as -> by lia. rewrite list_lookup_middle by done. exact Hnode.
Qed.

Lemma built_root (h h' : heap) r t :
  built h h' r t -> length h <= r /\ S r = length h' /\ exists new, h' = (h ++ new)%list.
Proof.
  intros (Hext & Hlen & Ht). split; [|done].
  exact (proj1 (holds_bounds h') _ _ _ _ (Ht [])).
Qed.

Lemma parse_simple_token_fresh lo token (h : heap) r h' :
  fresh_from lo h -> parse_simple_token token h = Ok (r, h') -> fresh_from lo h'.
Proof.
  intros Hh. unfold parse_simple_token. destruct token as [token|]; [|done].
  destruct (isdigit token).
  - destruct (py_int _); cbn [mbind result_bind alloc]; try done.
    intros [= <- <-]. by apply fresh_from_alloc.
  - destruct (isdigit _ && char_in _ _).
    + destruct (py_float _); cbn [mbind result_bind alloc]; try done.
      intros [= <- <-]. by apply fresh_from_alloc.
    + cbn [alloc]. intros [= <- <-]. by apply fresh_from_alloc.
Qed.

Lemma lsymbol_loop_fresh lo fuel : forall self (h : heap) symbols symbols' self' h',
  lo <= length h -> fresh_from lo h ->
  Forall (fun e => lo <= e < length h) symbols ->
  lsymbol_loop fuel self h symbols = Ok (symbols', self', h') ->
  fresh_from lo h' /\ Forall (fun e => lo <= e < length h') symbols'.
Proof.
  induction fuel as [|fuel IH]; intros self h symbols symbols' self' h' Hlo Hh Hs; [done|].
  cbn [lsymbol_loop]. destruct (tok_eqb (current_token self) "]"); cbn [negb].
  { by intros [= <- <- <-]. }
  destruct (tok_eqb (current_token self) ","); [by apply IH|].
  cbn [consume alloc]. apply IH.
  - rewrite length_app. lia.
  - by apply fresh_from_alloc.
  - rewrite length_app. simpl. apply Forall_app. split.
    + eapply Forall_impl; [exact Hs|]. simpl. intros e He. lia.
    + constructor; [lia|constructor].
Qed.

Lemma parse_type_constructor_fresh lo fuel self (h : heap) r self' h' :
  lo <= length h -> fresh_from lo h ->
  parse_type_constructor fuel self h = Ok (r, self', h') -> fresh_from lo h'.
Proof.
  intros Hlo Hh. unfold parse_type_constructor. cbn [consume alloc].
  destruct (tok_eqb _ "["); cbn [negb];
    [|intros [= <- <- <-]; by apply fresh_from_alloc].
  destruct (tok_eqb _ "Symbol"); [intros [= <- <- <-]; by apply fresh_from_alloc|].
  destruct (tok_eqb _ "Int" || tok_eqb _ "Long").
  { destruct (py_int _); cbn [mbind result_bind]; try done.
    intros [= <- <- <-]. by apply fresh_from_alloc. }
  destruct (tok_eqb _ "Real" || tok_eqb _ "Float").
  { destruct (py_float _); cbn [mbind result_bind]; try done.
    intros [= <- <- <-]. by apply fresh_from_alloc. }
  destruct (tok_eqb _ "Bool"); [intros [= <- <- <-]; by apply fresh_from_alloc|].
  destruct (tok_eqb _ "Func"); [intros [= <- <- <-]; by apply fresh_from_alloc|].
  destruct (tok_eqb _ "LSymbol"); [|intros [= <- <- <-]; by apply fresh_from_alloc].
  destruct (lsymbol_loop fuel _ h []) as [[[symbols self5] h5]| | |] eqn:Hloop;
    cbn [mbind result_bind]; try done.
  intros [= <- <- <-].
  apply (lsymbol_loop_fresh lo) in Hloop as [Hf Hs]; [|done..].
  by apply fresh_from_alloc.
Qed.

Lemma parse_fresh lo fuel :
  (forall idx eager self (h : heap) r self' h',
     lo <= length h -> fresh_from lo h ->
     parse_expression fuel idx eager self h = Ok (r, self', h') -> fresh_from lo h') /\
  (forall eager self (h : heap) r self' h',
     lo <= length h -> fresh_from lo h ->
     parse_list fuel eager self h = Ok (r, self', h') -> fresh_from lo h') /\
  (forall eager self (h : heap) elements idx elements' self' h',
     lo <= length h -> fresh_from lo h ->
     Forall (fun e => lo <= e < length h) elements ->
     parse_list_loop fuel eager self h elements idx = Ok (elements', self', h') ->
     lo <= length h' /\ fresh_from lo h' /\
     Forall (fun e => lo <= e < length h') elements') /\
  (forall self (h : heap) r self' h',
     lo <= length h -> fresh_from lo h ->
     parse_dict fuel self h = Ok (r, self', h') -> fresh_from lo h').
Proof.
  induction fuel as [|fuel (IHe & IHl & IHloop & IHd)]; [done|].
  split; [|split; [|split]].
  - intros idx eager self h r self' h' Hlo Hh. cbn [parse_expression].
    destruct (tok_eqb (current_token self) "["); [by apply IHl|].
    destruct (tok_eqb (current_token self) "{"); [by apply IHd|].
    destruct (starts_upper (current_token self));
      [by apply parse_type_constructor_fresh|].
    cbn [consume].
    destruct (parse_simple_token _ h) as [[r1 h1]| | |] eqn:Hs;
      cbn [mbind result_bind]; try done.
    intros [= <- <- <-]. by eapply parse_simple_token_fresh.
  - intros eager self h r self' h' Hlo Hh. cbn [parse_list consume].
    destruct (parse_list_loop fuel eager _ h [] 0) as [[[elements self1] h1]| | |] eqn:Hloop;
      cbn [mbind result_bind alloc]; try done.
    intros [= <- <- <-].
    apply IHloop in Hloop as (Hlo1 & Hf & Hs); [|done..].
    by apply fresh_from_alloc.
  - intros eager self h elements idx elements' self' h' Hlo Hh Hs.
    cbn [parse_list_loop].
    destruct (tok_eqb (current_token self) "]"); cbn [negb].
    { by intros [= <- <- <-]. }
    destruct (tok_eqb (current_token self) ","); [by apply IHloop|].
    destruct (parse_expression fuel idx eager self h) as [[[r1 self1] h1]| | |] eqn:He;
      cbn [mbind result_bind]; try done.
    pose proof (IHe _ _ _ _ _ _ _ Hlo Hh He) as Hf1.
    destruct (proj1 (parse_built fuel) _ _ _ _ _ _ _ He) as (t & Hb).
    destruct (built_root _ _ _ _ Hb) as (Hr1 & Hr2 & [new ->]).
    apply IHloop; [rewrite length_app; lia|done|].
    apply Forall_app. split.
    + eapply Forall_impl; [exact Hs|]. simpl. intros e He'. rewrite length_app. lia.
    + constructor; [lia|constructor].
  - intros self h r self' h' Hlo Hh. cbn [parse_dict consume].
    destruct (parse_expression fuel 0 false _ h) as [[[k self1] h1]| | |] eqn:Hk;
      cbn [mbind result_bind]; try done.
    destruct (tok_eqb (current_token self1) ","); cbn [negb]; [|done].
    destruct (parse_expression fuel 0 false _ h1) as [[[v self2] h2]| | |] eqn:Hv;
      cbn [mbind result_bind]; try done.
    destruct (tok_eqb (current_token self2) "}"); cbn [negb alloc]; [|done].
    intros [= <- <- <-].
    pose proof (IHe _ _ _ _ _ _ _ Hlo Hh Hk) as Hf1.
    destruct (proj1 (parse_built fuel) _ _ _ _ _ _ _ Hk) as (tk & Hbk).
    destruct (built_root _ _ _ _ Hbk) as (Hk1 & Hk2 & [n1 ->]).
    assert (Hlo1 : lo <= length (h ++ n1)%list) by (rewrite length_app; lia).
    pose proof (IHe _ _ _ _ _ _ _ Hlo1 Hf1 Hv) as Hf2.
    destruct (proj1 (parse_built fuel) _ _ _ _ _ _ _ Hv) as (tv & Hbv).
    destruct (built_root _ _ _ _ Hbv) as (Hv1 & Hv2 & [n2 ->]).
    apply fresh_from_alloc; [done|]. lia.
Qed.

(** X5: a parse only adds objects to the store; the object it returns is
    the last one added; every [List] and [Dict] it adds refers to objects
    added before it in the same parse, and every [Function] it adds has no
    argument. *)
Theorem parse_adds_fresh_objects fuel idx eager self (h : heap) r self' h' :
  parse_expression fuel idx eager self h = Ok (r, self', h') ->
  (exists new, h' = (h ++ new)%list) /\ length h <= r /\ S r = length h' /\
  forall i, length h <= i < length h' -> fresh_node h' (length h) i.
Proof.
  intros H.
  destruct (proj1 (parse_built fuel) _ _ _ _ _ _ _ H) as (t & Hb).
  destruct (built_root _ _ _ _ Hb) as (Hr1 & Hr2 & Hext).
  split; [done|]. split; [done|]. split; [done|].
  apply (proj1 (parse_fresh (length h) fuel) _ _ _ _ _ _ _ (le_n _)) in H; [exact H|].
  intros i Hi. lia.
Qed.

(** ** Tokens put back into a text *)

Lemma lex_token (t : string) : token_shape t -> lex t "" = [t].
Proof.
  intros [(c & -> & Hw & Hs)|[Hne Hw]].
  - cbn [lex]. by rewrite Hw, Hs.
  - pose proof (tokenize_word t Hne Hw) as H. rewrite tokenize_lex in H.
    by injection H.
Qed.

Lemma lex_join_tokens (tokens : list string) :
  Forall token_shape tokens -> lex (join " " tokens) "" = tokens.
Proof.
  induction 1 as [|t tokens Ht Hts IH]; [done|].
  destruct tokens as [|t' tokens]; [by apply lex_token|].
  change (join " " (t :: t' :: tokens)) with (t ++ String.String " " (join " " (t' :: tokens))).
  rewrite lex_separator by done. cbn [char_isspace app].
  change (if char_isspace " " then [] else [String.String " " ""])%list with (@nil string).
  by rewrite lex_token, IH.
Qed.

(** X6: the tokens of a text, joined with single spaces, are a text with
    the same tokens: what [tokenize] returns it reads back unchanged. *)
Theorem tokenize_join_tokens (text : string) (tokens : list string) :
  tokenize text = Ok tokens -> tokenize (join " " tokens) = Ok tokens.
Proof.
  rewrite !tokenize_lex. intros [= <-]. f_equal.
  apply lex_join_tokens, lex_shape. done.
Qed.

(** ** Text without a token *)

(** X7: on a text of blanks only, the empty text included, both
    conversions raise the AttributeError of [None.isdigit()]: the parser
    reads the token that is not there as a simple token. *)
Theorem blank_text_raises (text : string) (fuel : nat) :
  str_all char_isspace text = true ->
  convert_lisp_to_function_calls (S fuel) text
  = Raise (AttributeError "'NoneType' object has no attribute 'isdigit'") /\
  convert_lisp_to_flat_statements (S fuel) text
  = Raise (AttributeError "'NoneType' object has no attribute 'isdigit'").
Proof.
  intros Hb. unfold convert_lisp_to_function_calls, convert_lisp_to_flat_statements.
  rewrite tokenize_lex, (lex_blanks _ Hb). done.
Qed.

(** ** A word on its own *)

Lemma isdigit_removed (w : string) :
  isdigit (remove_char "." w) = false -> isdigit w = false.
Proof.
  intros H. destruct (isdigit w) eqn:Hw; [|done].
  assert (Hall : str_all char_isdigit w = true) by (by destruct w).
  destruct (isdigit_no_dot w Hall) as [Hr _]. congruence.
Qed.

Lemma parse_word (w : string) (fuel : nat) (h : heap) :
  w <> "" -> str_all word_char w = true -> isdigit (remove_char "." w) = false ->
  parse (S fuel) [w] h = Ok (length h, {| tokens := [w]; pos := 1 |}, (h ++ [String (Some w)])%list).
Proof.
  intros Hne Hw Hd. pose proof (isdigit_removed w Hd) as Hd'.
  unfold parse. cbn [parse_expression].
  change (current_token {| tokens := [w]; pos := 0 |}) with (Some w).
  cbn [tok_eqb].
  destruct (String.eqb w "[") eqn:E1; [apply String.eqb_eq in E1; by subst|].
  destruct (String.eqb w "{") eqn:E2; [apply String.eqb_eq in E2; by subst|].
  destruct (starts_upper (Some w)).
  - unfold parse_type_constructor. cbn [consume tokens pos].
    change (current_token {| tokens := [w]; pos := 0 |}) with (Some w).
    change (current_token {| tokens := [w]; pos := 0 + 1 |}) with (@None string).
    done.
  - cbn [consume tokens pos].
    change (current_token {| tokens := [w]; pos := 0 |}) with (Some w).
    unfold parse_simple_token. rewrite Hd, Hd'. done.
Qed.

(** X8: a text that is one word which is not a number (the word without
    its points does not pass [isdigit()]) comes back as it is from the
    direct conversion, and after [result = ] from the flat one; this holds
    also for a word that starts with an upper-case letter, which is read as
    a constructor without a bracket. *)
Theorem word_round_trip (w : string) (fuel : nat) :
  w <> "" -> str_all word_char w = true -> isdigit (remove_char "." w) = false ->
  convert_lisp_to_function_calls (S fuel) w = Ok (Some w) /\
  convert_lisp_to_flat_statements (S fuel) w = Ok ("result = " ++ w).
Proof.
  intros Hne Hw Hd.
  unfold convert_lisp_to_function_calls, convert_lisp_to_flat_statements.
  rewrite (tokenize_word w Hne Hw). cbn [mbind result_bind].
  rewrite (parse_word w fuel [] Hne Hw Hd). done.
Qed.

(** ** Integers written out and read back *)

Lemma strip_nonblank l :
  Forall (fun c => char_isblank c = false) l -> strip l = l.
Proof.
  assert (Hl : forall l, Forall (fun c => char_isblank c = false) l -> lstrip l = l).
  { intros l' Hl'. destruct Hl' as [|c l' Hc _]; [done|]. simpl. by rewrite Hc. }
  intros H. unfold strip. rewrite (Hl l H), Hl, rev_involutive; [done|].
  apply Forall_forall. intros x Hx%list_elem_of_In%in_rev%list_elem_of_In.
  by eapply (proj1 (Forall_forall _ _) H).
Qed.

Lemma uint_decimal (d : Decimal.uint) :
  Forall (fun c => char_isdecimal c = true)
    (list_ascii_of_string (NilEmpty.string_of_uint d)).
Proof. induction d; simpl; by constructor. Qed.

Lemma uint_value_acc (d : Decimal.uint) : forall acc,
  fold_left (fun acc c => (10 * acc + digit_value c)%Z)
    (list_ascii_of_string (NilEmpty.string_of_uint d)) (Z.pos acc)
  = Z.pos (Pos.of_uint_acc d acc).
Proof.
  induction d as [|d IH|d IH|d IH|d IH|d IH|d IH|d IH|d IH|d IH|d IH]; intros acc;
    [done|cbn [NilEmpty.string_of_uint list_ascii_of_string fold_left Pos.of_uint_acc];
          rewrite <- IH; f_equal;
          match goal with |- context [digit_value ?c] =>
            let v := eval vm_compute in (digit_value c) in
            change (digit_value c) with v
          end; lia..].
Qed.

Lemma uint_value (d : Decimal.uint) :
  digits_value (list_ascii_of_string (NilEmpty.string_of_uint d)) = Z.of_N (Pos.of_uint d).
Proof.
  unfold digits_value.
  induction d as [|d IH|d IH|d IH|d IH|d IH|d IH|d IH|d IH|d IH|d IH];
    [done|exact IH|
     cbn [NilEmpty.string_of_uint list_ascii_of_string fold_left Pos.of_uint N2Z.inj_pos Z.of_N];
     rewrite <- uint_value_acc; done..].
Qed.

(** the digits of a positive number, as [str] prints them *)
Lemma pos_digits (p : positive) :
  exists c s, NilZero.string_of_uint (Pos.to_uint p) = String.String c s /\
    decimal_str (String.String c s) = true /\
    digits_value (list_ascii_of_string (String.String c s)) = Z.pos p.
Proof.
  pose proof (Stdlib.Numbers.DecimalPos.Unsigned.of_to p) as Hof.
  pose proof (uint_value (Pos.to_uint p)) as Hv.
  pose proof (uint_decimal (Pos.to_uint p)) as Hd.
  rewrite Hof in Hv.
  destruct (Pos.to_uint p) as [|d|d|d|d|d|d|d|d|d|d]; [done|eexists _, _; split; [reflexivity|];
    split; [by apply str_all_Forall|exact Hv]..].
Qed.

Lemma py_int_str_int (z : Z) : py_int (Some (str_int z)) = Ok z.
Proof.
  destruct z as [|p|p]; [done| |].
  - destruct (pos_digits p) as (c & s & Hs & Hd & Hv).
    unfold str_int. cbn [Z.to_int NilZero.string_of_int]. rewrite Hs.
    destruct (py_int_decimal _ Hd) as [_ ->]. by rewrite Hv.
  - destruct (pos_digits p) as (c & s & Hs & Hd & Hv).
    unfold str_int. cbn [Z.to_int NilZero.string_of_int]. rewrite Hs.
    unfold py_int. cbn [list_ascii_of_string].
    cbn [decimal_str] in Hd. apply str_all_Forall in Hd. cbn [list_ascii_of_string] in Hd, Hv.
    rewrite strip_nonblank.
    + cbn [skip_sign]. inversion Hd as [|? ? Hc Hl]; subst.
      cbn [digitpart]. rewrite Hc, (scan_digits_all _ Hl), Hv. done.
    + constructor; [done|]. eapply Forall_impl; [exact Hd|].
      intros x Hx. by destruct (decimal_facts x Hx) as (-> & _).
Qed.

Lemma decimal_word_char c : char_isdecimal c = true -> word_char c = true.
Proof.
  destruct c as [[] [] [] [] [] [] [] []]; vm_compute; intros H;
    try discriminate H; reflexivity.
Qed.

Lemma decimal_is_word (s : string) :
  decimal_str s = true -> s <> "" /\ str_all word_char s = true.
Proof.
  destruct s as [|c s]; [done|]. cbn [decimal_str]. intros H. split; [done|].
  apply str_all_Forall. apply str_all_Forall in H.
  eapply Forall_impl; [exact H|]. apply decimal_word_char.
Qed.

Lemma str_int_word (z : Z) : str_int z <> "" /\ str_all word_char (str_int z) = true.
Proof.
  destruct z as [|p|p]; [done| |]; destruct (pos_digits p) as (c & s & Hs & Hd & _);
    unfold str_int; cbn [Z.to_int NilZero.string_of_int]; rewrite Hs.
  - by apply decimal_is_word.
  - split; [done|]. change (str_all word_char (String.String "-" (String.String c s)))
      with (str_all word_char (String.String c s)).
    by apply decimal_is_word.
Qed.

Lemma lex_constructor (name content : string) :
  name <> "" -> str_all word_char name = true ->
  content <> "" -> str_all word_char content = true ->
  tokenize (name ++ "[" ++ content ++ "]") = Ok [name; "["; content; "]"].
Proof.
  intros Hn1 Hn2 Hc1 Hc2. rewrite tokenize_lex. f_equal.
  change (name ++ "[" ++ content ++ "]") with (name ++ String.String "[" (content ++ String.String "]" "")).
  rewrite lex_separator by done.
  rewrite lex_separator by done.
  rewrite !lex_token by (by right). done.
Qed.

Lemma parse_int_constructor (name : string) (z : Z) (fuel : nat) (h : heap) :
  name = "Int" \/ name = "Long" ->
  parse (S fuel) [name; "["; str_int z; "]"] h
  = Ok (length h, {| tokens := [name; "["; str_int z; "]"]; pos := 4 |},
        (h ++ [Integer z])%list).
Proof.
  intros [-> | ->]; unfold parse; cbn [parse_expression];
    change (current_token {| tokens := _; pos := 0 |}) with (Some "Int" : option string) ||
    change (current_token {| tokens := _; pos := 0 |}) with (Some "Long" : option string);
    cbn [tok_eqb String.eqb Ascii.eqb Bool.eqb starts_upper];
    unfold parse_type_constructor; cbn [consume tokens pos];
    cbv [current_token tokens pos length Nat.leb Nat.add lookup list_lookup];
    cbn [tok_eqb String.eqb Ascii.eqb Bool.eqb negb orb];
    rewrite py_int_str_int; done.
Qed.

(** X9: the decimal text of an integer is rendered as the same text,
    whether it stands as a bare token (a [str] of digits is read by [int]
    and printed by [str]; with a minus sign it stays a string) or inside
    [Int[...]] or [Long[...]], where [int] reads the sign too.  The limit
    of the interpreter on the number of digits is not part of the model. *)
Theorem integer_round_trip (z : Z) (fuel : nat) :
  convert_lisp_to_function_calls (S fuel) (str_int z) = Ok (Some (str_int z)) /\
  convert_lisp_to_function_calls (S fuel) ("Int[" ++ str_int z ++ "]") = Ok (Some (str_int z)) /\
  convert_lisp_to_function_calls (S fuel) ("Long[" ++ str_int z ++ "]") = Ok (Some (str_int z)).
Proof.
  destruct (str_int_word z) as [Hne Hw].
  split; [|split].
  - unfold convert_lisp_to_function_calls.
    rewrite (tokenize_word _ Hne Hw). cbn [mbind result_bind].
    destruct z as [|p|p]; [done| |].
    + destruct (pos_digits p) as (c & s & Hs & Hd & Hv).
      destruct (py_int_decimal _ Hd) as [Hdig Hint].
      unfold parse. cbn [parse_expression].
      unfold str_int in *. cbn [Z.to_int NilZero.string_of_int] in *.
      rewrite Hs in *.
      assert (Hup : char_isupper c = false).
      { cbn [decimal_str str_all] in Hd. apply andb_true_iff in Hd as [Hc _].
        revert Hc. destruct c as [[] [] [] [] [] [] [] []]; vm_compute; congruence. }
      assert (Hb : String.eqb (String.String c s) "[" = false
                   /\ String.eqb (String.String c s) "{" = false).
      { split; apply String.eqb_neq; intros E; rewrite E in Hw; discriminate Hw. }
      destruct Hb as [Hb1 Hb2].
      change (current_token {| tokens := [String.String c s]; pos := 0 |})
        with (Some (String.String c s)).
      cbn [tok_eqb starts_upper consume tokens pos]. rewrite Hb1, Hb2, Hup.
      change (current_token {| tokens := [String.String c s]; pos := 0 |})
        with (Some (String.String c s)).
      unfold parse_simple_token. rewrite Hdig, Hint, Hv.
      cbn [mbind result_bind alloc length app].
      cbn [transform_ast lookup list_lookup str_int Z.to_int NilZero.string_of_int].
      by rewrite Hs.
    + assert (Hd : isdigit (remove_char "." (str_int (Z.neg p))) = false).
      { unfold str_int. cbn [Z.to_int NilZero.string_of_int]. done. }
      rewrite (parse_word _ fuel [] Hne Hw Hd). done.
  - unfold convert_lisp_to_function_calls.
    change ("Int[" ++ str_int z ++ "]") with ("Int" ++ "[" ++ str_int z ++ "]").
    rewrite (lex_constructor "Int" (str_int z)) by done.
    cbn [mbind result_bind]. rewrite parse_int_constructor by (by left). done.
  - unfold convert_lisp_to_function_calls.
    change ("Long[" ++ str_int z ++ "]") with ("Long" ++ "[" ++ str_int z ++ "]").
    rewrite (lex_constructor "Long" (str_int z)) by done.
    cbn [mbind result_bind]. rewrite parse_int_constructor by (by right). done.
Qed.

(** ** The tokens a parse reads *)

Lemma current_token_lookup self : current_token self = tokens self !! pos self.
Proof.
  unfold current_token. destruct (Nat.leb_spec (length (tokens self)) (pos self)); [|done].
  symmetry. by apply lookup_ge_None.
Qed.

Lemma current_token_same self ts' n :
  same_to n (tokens self) ts' -> pos self <= n ->
  current_token {| tokens := ts'; pos := pos self |} = current_token self.
Proof. intros Hs Hn. rewrite !current_token_lookup. by apply Hs. Qed.

Lemma same_to_le n m (ts1 ts2 ts' : list string) :
  same_to n ts1 ts' -> ts2 = ts1 -> m <= n -> same_to m ts2 ts'.
Proof. intros Hs -> Hm q Hq. apply Hs. lia. Qed.

Lemma lsymbol_loop_local fuel : forall self (h : heap) symbols symbols' self' h' ts',
  lsymbol_loop fuel self h symbols = Ok (symbols', self', h') ->
  same_to (pos self') (tokens self) ts' ->
  lsymbol_loop fuel {| tokens := ts'; pos := pos self |} h symbols
  = Ok (symbols', {| tokens := ts'; pos := pos self' |}, h').
Proof.
  induction fuel as [|fuel IH]; intros self h symbols symbols' self' h' ts' H Hs; [done|].
  destruct (lsymbol_loop_exit _ _ _ _ _ _ _ H) as [[KT KP] _].
  revert H. cbn [lsymbol_loop consume tokens pos].
  rewrite (current_token_same self ts' _ Hs KP).
  destruct (tok_eqb (current_token self) "]"); cbn [negb].
  { by intros [= <- <- <-]. }
  destruct (tok_eqb (current_token self) ","); intros H;
    apply (IH _ _ _ _ _ _ ts') in H; done.
Qed.

Lemma parse_type_constructor_local fuel self (h : heap) r self' h' ts' :
  parse_type_constructor fuel self h = Ok (r, self', h') ->
  same_to (pos self') (tokens self) ts' ->
  parse_type_constructor fuel {| tokens := ts'; pos := pos self |} h
  = Ok (r, {| tokens := ts'; pos := pos self' |}, h').
Proof.
  intros H Hs. destruct (parse_type_constructor_advances _ _ _ _ _ _ H) as [_ Hlt].
  pose proof (current_token_same self ts' _ Hs ltac:(lia)) as E0.
  pose proof (current_token_same {| tokens := tokens self; pos := pos self + 1 |} ts' _ Hs
                ltac:(cbn [pos]; lia)) as E1.
  cbn [pos] in E1. revert H Hs. clear Hlt.
  unfold parse_type_constructor. cbn [consume tokens pos alloc]. rewrite E0, E1.
  set (self2 := {| tokens := tokens self; pos := pos self + 1 + 1 |}).
  assert (E2 : forall n, same_to n (tokens self) ts' -> pos self + 1 + 1 <= n ->
               current_token {| tokens := ts'; pos := pos self + 1 + 1 |} = current_token self2).
  { intros n Hs Hn. exact (current_token_same self2 ts' n Hs Hn). }
  destruct (tok_eqb _ "["); cbn [negb]; [|by intros [= <- <- <-]].
  destruct (tok_eqb _ "Symbol").
  { intros [= <- <- <-] Hs. cbn [pos] in Hs. by rewrite (E2 _ Hs) by lia. }
  destruct (tok_eqb _ "Int" || tok_eqb _ "Long").
  { destruct (py_int (current_token self2)) eqn:Hi; cbn [mbind result_bind]; try done.
    intros [= <- <- <-] Hs. cbn [pos] in Hs. by rewrite (E2 _ Hs), Hi by lia. }
  destruct (tok_eqb _ "Real" || tok_eqb _ "Float").
  { destruct (py_float (current_token self2)) eqn:Hi; cbn [mbind result_bind]; try done.
    intros [= <- <- <-] Hs. cbn [pos] in Hs. by rewrite (E2 _ Hs), Hi by lia. }
  destruct (tok_eqb _ "Bool").
  { intros [= <- <- <-] Hs. cbn [pos] in Hs. by rewrite (E2 _ Hs) by lia. }
  destruct (tok_eqb _ "Func").
  { intros [= <- <- <-] Hs. cbn [pos] in Hs. by rewrite (E2 _ Hs) by lia. }
  destruct (tok_eqb _ "LSymbol").
  2: { intros [= <- <- <-] Hs. cbn [pos] in Hs. by rewrite (E2 _ Hs) by lia. }
  destruct (lsymbol_loop fuel self2 h []) as [[[symbols self5] h5]| | |] eqn:Hloop;
    cbn [mbind result_bind]; try done.
  intros [= <- <- <-] Hs. cbn [pos] in Hs.
  apply (lsymbol_loop_local _ _ _ _ _ _ _ ts') in Hloop.
  - cbn [pos self2] in Hloop. rewrite Hloop. done.
  - eapply same_to_le; [exact Hs|done|lia].
Qed.

Lemma parse_local fuel :
  (forall idx eager self (h : heap) r self' h' ts',
     parse_expression fuel idx eager self h = Ok (r, self', h') ->
     same_to (pos self') (tokens self) ts' ->
     parse_expression fuel idx eager {| tokens := ts'; pos := pos self |} h
     = Ok (r, {| tokens := ts'; pos := pos self' |}, h')) /\
  (forall eager self (h : heap) r self' h' ts',
     parse_list fuel eager self h = Ok (r, self', h') ->
     same_to (pos self') (tokens self) ts' ->
     parse_list fuel eager {| tokens := ts'; pos := pos self |} h
     = Ok (r, {| tokens := ts'; pos := pos self' |}, h')) /\
  (forall eager self (h : heap) elements idx elements' self' h' ts',
     parse_list_loop fuel eager self h elements idx = Ok (elements', self', h') ->
     same_to (pos self') (tokens self) ts' ->
     parse_list_loop fuel eager {| tokens := ts'; pos := pos self |} h elements idx
     = Ok (elements', {| tokens := ts'; pos := pos self' |}, h')) /\
  (forall self (h : heap) r self' h' ts',
     parse_dict fuel self h = Ok (r, self', h') ->
     same_to (pos self') (tokens self) ts' ->
     parse_dict fuel {| tokens := ts'; pos := pos self |} h
     = Ok (r, {| tokens := ts'; pos := pos self' |}, h')).
Proof.
  induction fuel as [|fuel (IHe & IHl & IHloop & IHd)]; [done|].
  destruct (parse_keeps fuel) as (Ke & _ & Kloop & _).
  split; [|split; [|split]].
  - intros idx eager self h r self' h' ts' H Hs.
    destruct (proj1 (parse_keeps (S fuel)) _ _ _ _ _ _ _ H) as [_ KP].
    revert H Hs. cbn [parse_expression consume tokens pos].
    intros H Hs. rewrite (current_token_same self ts' _ Hs KP). revert H Hs.
    destruct (tok_eqb (current_token self) "["); [by apply IHl|].
    destruct (tok_eqb (current_token self) "{"); [by apply IHd|].
    destruct (starts_upper (current_token self)); [by apply parse_type_constructor_local|].
    destruct (parse_simple_token _ h) as [[r1 h1]| | |];
      cbn [mbind result_bind]; try done.
    by intros [= <- <- <-].
  - intros eager self h r self' h' ts'. cbn [parse_list consume tokens pos alloc].
    destruct (parse_list_loop fuel eager _ h [] 0) as [[[elements self1] h1]| | |] eqn:Hloop;
      cbn [mbind result_bind]; try done.
    intros [= <- <- <-] Hs. cbn [pos] in Hs.
    apply (IHloop _ _ _ _ _ _ _ _ ts') in Hloop.
    + cbn [pos] in Hloop. by rewrite Hloop.
    + eapply same_to_le; [exact Hs|done|lia].
  - intros eager self h elements idx elements' self' h' ts' H Hs.
    destruct (proj1 (proj2 (proj2 (parse_keeps (S fuel)))) _ _ _ _ _ _ _ _ H) as [[KT KP] _].
    revert H. cbn [parse_list_loop consume tokens pos].
    rewrite (current_token_same self ts' _ Hs KP).
    destruct (tok_eqb (current_token self) "]"); cbn [negb].
    { by intros [= <- <- <-]. }
    destruct (tok_eqb (current_token self) ",").
    { intros H. by apply (IHloop _ _ _ _ _ _ _ _ ts') in H. }
    destruct (parse_expression fuel idx eager self h) as [[[r1 self1] h1]| | |] eqn:He;
      cbn [mbind result_bind]; try done.
    intros H. destruct (Kloop _ _ _ _ _ _ _ _ H) as [[KT1 KP1] _].
    destruct (Ke _ _ _ _ _ _ _ He) as [KT0 _].
    rewrite (IHe _ _ _ _ _ _ _ ts' He) by (eapply same_to_le; [exact Hs|done|lia]).
    cbn [mbind result_bind].
    apply (IHloop _ _ _ _ _ _ _ _ ts') in H; [done|].
    eapply same_to_le; [exact Hs|done|lia].
  - intros self h r self' h' ts'. cbn [parse_dict consume tokens pos alloc].
    set (self1 := {| tokens := tokens self; pos := pos self + 1 |}).
    destruct (parse_expression fuel 0 false self1 h) as [[[k self2] h2]| | |] eqn:Hk;
      cbn [mbind result_bind]; try done.
    destruct (tok_eqb (current_token self2) ",") eqn:Hc; cbn [negb]; [|done].
    set (self3 := {| tokens := tokens self2; pos := pos self2 + 1 |}).
    destruct (parse_expression fuel 0 false self3 h2) as [[[v self4] h4]| | |] eqn:Hv;
      cbn [mbind result_bind]; try done.
    destruct (tok_eqb (current_token self4) "}") eqn:Hcl; cbn [negb]; [|done].
    intros [= <- <- <-] Hs. cbn [pos] in Hs.
    destruct (Ke _ _ _ _ _ _ _ Hk) as [KT2 KP2].
    destruct (Ke _ _ _ _ _ _ _ Hv) as [KT4 KP4].
    cbn [tokens pos self1 self3] in KT2, KP2, KT4, KP4.
    apply (IHe _ _ _ _ _ _ _ ts') in Hk;
      [|eapply same_to_le; [exact Hs|done|lia]].
    apply (IHe _ _ _ _ _ _ _ ts') in Hv;
      [|eapply same_to_le; [exact Hs|cbn [tokens self3]; congruence|lia]].
    cbn [pos self1 self3] in Hk, Hv.
    rewrite Hk. cbn [mbind result_bind].
    rewrite (current_token_same self2 ts' (S (pos self4)))
      by first [lia | eapply same_to_le; [exact Hs|done|lia]].
    rewrite Hc. cbn [negb pos tokens]. rewrite Hv. cbn [mbind result_bind].
    rewrite (current_token_same self4 ts' (S (pos self4)))
      by first [lia | eapply same_to_le; [exact Hs|congruence|lia]].
    rewrite Hcl. done.
Qed.

(** X10: a parse reads no token after the one that follows the expression
    (the one token it may look at to see that no bracket opens): over any
    tokens that are the same up to that index it builds the same objects
    and stops at the same position.  What follows a complete expression is
    neither read nor reported. *)
Theorem parse_ignores_rest fuel idx eager self (h : heap) r self' h' (tokens' : list string) :
  parse_expression fuel idx eager self h = Ok (r, self', h') ->
  take (S (pos self')) tokens' = take (S (pos self')) (tokens self) ->
  parse_expression fuel idx eager {| tokens := tokens'; pos := pos self |} h
  = Ok (r, {| tokens := tokens'; pos := pos self' |}, h').
Proof.
  intros H Ht. apply (proj1 (parse_local fuel) _ _ _ _ _ _ _ _ H).
  intros q Hq.
  rewrite <- (lookup_take_lt tokens' (S (pos self')) q) by lia.
  rewrite <- (lookup_take_lt (tokens self) (S (pos self')) q) by lia.
  by rewrite Ht.
Qed.

(** ** What the renderers do to the store *)

Lemma args_only_refl (h : heap) : args_only h h.
Proof.
  split; [done|]. intros i. destruct (h !! i) as [[]|]; try done.
  eexists. split; [done|by left].
Qed.

Lemma args_only_trans (h1 h2 h3 : heap) :
  args_only h1 h2 -> args_only h2 h3 -> args_only h1 h3.
Proof.
  intros [L1 H1] [L2 H2]. split; [congruence|]. intros i.
  pose proof (H1 i) as A. pose proof (H2 i) as B.
  destruct (h1 !! i) as [[name|v|v|v|v|name args|es|k v]|] eqn:E;
    try (rewrite A in B; exact B).
  destruct A as (a1 & A & HA). rewrite A in B. destruct B as (a2 & B & HB).
  exists a2. split; [done|]. destruct HB as [->|[j Hj]]; [done|].
  right. exists j. pose proof (H1 j) as C.
  destruct (h1 !! j) as [[ | | | | |name' args'| | ]|] eqn:Ej;
    try (rewrite C in Hj; exact Hj).
  destruct C as (? & C & _). rewrite C in Hj. discriminate.
Qed.

Lemma args_only_insert (h : heap) func name old node args :
  h !! func = Some (Function name old) ->
  h !! node = Some (List (func :: args)) ->
  args_only h (<[func := Function name args]> h).
Proof.
  intros Hf Hn. split; [by rewrite length_insert|]. intros i.
  destruct (decide (i = func)) as [->|Hne].
  - rewrite Hf. exists args. split; [|right; by exists node].
    apply list_lookup_insert_eq. by eapply lookup_lt_Some.
  - rewrite list_lookup_insert_ne by done.
    destruct (h !! i) as [[]|]; try done. eexists. split; [done|by left].
Qed.

Lemma transform_each_args_only (f : heap -> ref -> result (option string * heap)) :
  (forall h x s h', f h x = Ok (s, h') -> args_only h h') ->
  forall items h strs h', transform_each f h items = Ok (strs, h') -> args_only h h'.
Proof.
  intros Hf. induction items as [|x items IH]; intros h strs h'; cbn [transform_each].
  - intros [= <- <-]. apply args_only_refl.
  - destruct (f h x) as [[s h1]| | |] eqn:Hx; cbn [mbind result_bind]; try done.
    destruct (transform_each f h1 items) as [[strs1 h2]| | |] eqn:Hxs;
      cbn [mbind result_bind]; try done.
    intros [= <- <-]. eapply args_only_trans; [by eapply Hf|by eapply IH].
Qed.

(** X11: whatever the store, a rendering by [transform_ast] that returns
    leaves the same number of objects, changes no object other than a
    [Function], and of a [Function] only the arguments: they are as before
    or the elements after it in a [List] of the store that it heads. *)
Theorem transform_ast_assigns_args_only fuel : forall (h : heap) node s h',
  transform_ast fuel h node = Ok (s, h') -> args_only h h'.
Proof.
  induction fuel as [|fuel IH]; intros h node s h'; [done|].
  cbn [transform_ast].
  assert (Hreg : forall items (k : list (option string) -> result string)
                   (g : string -> string),
    ('(strs, h1) ← transform_each (transform_ast fuel) h items;
     str ← k strs; Ok (Some (g str), h1)) = Ok (s, h') -> args_only h h').
  { intros items k g.
    destruct (transform_each (transform_ast fuel) h items) as [[strs h1]| | |] eqn:He;
      cbn [mbind result_bind]; try done.
    destruct (k strs); cbn [mbind result_bind]; try done.
    intros [= <- <-]. by eapply transform_each_args_only. }
  destruct (h !! node) as [[name|v|v|v|v|name args|elements|keys values]|] eqn:E;
    try done; try (intros [= <- <-]; apply args_only_refl).
  - apply (Hreg args (py_join ", ")
             (fun a => str_opt (dict_get glyph_map_direct name name) ++ "(" ++ a ++ ")")).
  - pose proof (Hreg elements (py_join ", ") (fun a => "[" ++ a ++ "]")) as Hr.
    destruct elements as [|func args]; [exact Hr|].
    destruct (h !! func) as [[ | | | | |name old| | ]|] eqn:Ef; try exact Hr; [|done].
    intros H. apply IH in H.
    eapply args_only_trans; [by eapply args_only_insert|exact H].
  - destruct (transform_ast fuel h keys) as [[ks h1]| | |] eqn:Hk;
      cbn [mbind result_bind]; try done.
    destruct (transform_ast fuel h1 values) as [[vs h2]| | |] eqn:Hv;
      cbn [mbind result_bind]; try done.
    intros [= <- <-]. eapply args_only_trans; by eapply IH.
Qed.

Lemma flatten_each_args_only
    (f : Flattener -> ref -> result (list string * option string * Flattener)) :
  (forall self x stmts e self', f self x = Ok (stmts, e, self') ->
     args_only (store self) (store self')) ->
  forall items self stmts exprs self',
    flatten_each f self items = Ok (stmts, exprs, self') ->
    args_only (store self) (store self').
Proof.
  intros Hf. induction items as [|x items IH]; intros self stmts exprs self';
    cbn [flatten_each].
  - intros [= <- <- <-]. apply args_only_refl.
  - destruct (f self x) as [[[s1 e1] self1]| | |] eqn:Hx; cbn [mbind result_bind]; try done.
    destruct (flatten_each f self1 items) as [[[s2 e2] self2]| | |] eqn:Hxs;
      cbn [mbind result_bind]; try done.
    intros [= <- <- <-]. eapply args_only_trans; [by eapply Hf|by eapply IH].
Qed.

(** X12: the same for [flatten_ast]: a flattening that returns leaves the
    same number of objects and changes nothing but the arguments of
    [Function] objects, which are as before or the elements after them in
    a [List] of the store that they head. *)
Theorem flatten_ast_assigns_args_only fuel : forall self node stmts e self',
  flatten_ast fuel self node = Ok (stmts, e, self') ->
  args_only (store self) (store self').
Proof.
  induction fuel as [|fuel IH]; intros self node stmts e self'; [done|].
  cbn [flatten_ast].
  assert (Hreg : forall items, forall stmts1 exprs self1,
    flatten_each (flatten_ast fuel) self items = Ok (stmts1, exprs, self1) ->
    args_only (store self) (store self1)).
  { intros items. by apply flatten_each_args_only. }
  destruct (store self !! node) as [[name|v|v|v|v|name args|elements|keys values]|] eqn:E;
    try done; try (intros [= <- <- <-]; apply args_only_refl).
  - destruct (flatten_each (flatten_ast fuel) self args) as [[[s1 e1] self1]| | |] eqn:He;
      cbn [mbind result_bind]; try done.
    destruct (py_join ", " e1); cbn [mbind result_bind]; try done.
    intros [= <- <- <-]. cbn [store]. by eapply Hreg.
  - assert (Hr : ('(statements, elem_exprs, self0) ← flatten_each (flatten_ast fuel) self elements;
                  elements_str ← py_join ", " elem_exprs;
                  Ok (statements, Some ("[" ++ elements_str ++ "]"), self0))
                 = Ok (stmts, e, self') -> args_only (store self) (store self')).
    { destruct (flatten_each (flatten_ast fuel) self elements) as [[[s1 e1] self1]| | |] eqn:He;
        cbn [mbind result_bind]; try done.
      destruct (py_join ", " e1); cbn [mbind result_bind]; try done.
      intros [= <- <- <-]. by eapply Hreg. }
    destruct elements as [|func args]; [exact Hr|].
    destruct (store self !! func) as [[ | | | | |name old| | ]|] eqn:Ef; try exact Hr; [|done].
    intros H. apply IH in H. cbn [store] in H.
    eapply args_only_trans; [by eapply args_only_insert|exact H].
  - destruct (flatten_ast fuel self keys) as [[[ks ke] self1]| | |] eqn:Hk;
      cbn [mbind result_bind]; try done.
    destruct (flatten_ast fuel self1 values) as [[[vs ve] self2]| | |] eqn:Hv;
      cbn [mbind result_bind]; try done.
    intros [= <- <- <-]. eapply args_only_trans; by eapply IH.
Qed.

(** ** Texts without a call *)

Lemma flat_each_call_free (ts : list tree) :
  Forall (fun t => forall c, flat t c = ([], render t, c)) ts ->
  forall c, flat_each flat ts c = ([], map render ts, c).
Proof.
  induction 1 as [|t ts Ht Hts IH]; intros c; [done|].
  cbn [flat_each map]. by rewrite Ht, IH.
Qed.

Lemma flat_call_free (t : tree) :
  calls t = 0 -> forall c, flat t c = ([], render t, c).
Proof.
  induction t as [name|v|v|v|v|name|ts IH|tk tv IHk IHv] using tree_nested_ind;
    intros Hc c; try done.
  - destruct ts as [|t ts]; [done|].
    assert (Hall : Forall (fun t => forall c, flat t c = ([], render t, c)) (t :: ts)).
    { cbn [calls] in Hc. revert Hc IH. generalize (t :: ts). clear.
      induction l as [|x l IHl]; intros Hc IH; [constructor|].
      inversion IH as [|? ? Hx Hl]; subst.
      change (calls x + list_sum (map calls l) = 0) in Hc.
      constructor; [apply Hx; lia|apply IHl; [lia|done]]. }
    destruct (is_call_head t) eqn:Hhead.
    + destruct t; discriminate.
    + rewrite flat_list_regular, render_list_regular by done.
      by rewrite (flat_each_call_free _ Hall).
  - cbn [calls] in Hc. cbn [flat render].
    by rewrite IHk, IHv by lia.
Qed.

Lemma holds_no_function (h : heap) :
  no_function h ->
  (forall ctx lo r t, holds h ctx lo r t -> calls t = 0) /\
  (forall ctx lo es ts hi, holds_chain h ctx lo es ts hi -> list_sum (map calls ts) = 0).
Proof.
  intros Hn. apply holds_mutind; try done.
  - intros ctx r name args Hr _. by apply Hn in Hr.
  - intros ctx lo r keys values tk tv _ _ Hk _ Hv _. cbn [calls]. lia.
  - intros ctx lo e es t ts hi _ Ht _ Hts.
    change (calls t + list_sum (map calls ts) = 0). lia.
Qed.

Lemma no_function_alloc (h : heap) (node : ASTNode) :
  no_function h ->
  match node with Function _ _ => False | _ => True end ->
  no_function (h ++ [node])%list.
Proof.
  intros Hh Hnode i name args Hi.
  destruct (decide (i < length h)) as [Hlt|Hge].
  - rewrite lookup_app_l in Hi by done. by apply Hh in Hi.
  - rewrite lookup_app_r in Hi by lia.
    destruct (i - length h) as [|k]; [|by destruct k].
    cbn in Hi. injection Hi as ->. done.
Qed.

Lemma lsymbol_loop_no_function fuel : forall self (h : heap) symbols symbols' self' h',
  no_function h ->
  lsymbol_loop fuel self h symbols = Ok (symbols', self', h') -> no_function h'.
Proof.
  induction fuel as [|fuel IH]; intros self h symbols symbols' self' h' Hh; [done|].
  cbn [lsymbol_loop]. destruct (tok_eqb (current_token self) "]"); cbn [negb].
  { by intros [= <- <- <-]. }
  destruct (tok_eqb (current_token self) ","); [by apply IH|].
  cbn [consume alloc]. apply IH. by apply no_function_alloc.
Qed.

Lemma parse_type_constructor_no_function fuel self (h : heap) r self' h' :
  Forall (fun t => t <> "Func") (tokens self) -> no_function h ->
  parse_type_constructor fuel self h = Ok (r, self', h') -> no_function h'.
Proof.
  intros Ht Hh. unfold parse_type_constructor. cbn [consume alloc].
  destruct (tok_eqb _ "["); cbn [negb];
    [|intros [= <- <- <-]; by apply no_function_alloc].
  destruct (tok_eqb _ "Symbol"); [intros [= <- <- <-]; by apply no_function_alloc|].
  destruct (tok_eqb _ "Int" || tok_eqb _ "Long").
  { destruct (py_int _); cbn [mbind result_bind]; try done.
    intros [= <- <- <-]. by apply no_function_alloc. }
  destruct (tok_eqb _ "Real" || tok_eqb _ "Float").
  { destruct (py_float _); cbn [mbind result_bind]; try done.
    intros [= <- <- <-]. by apply no_function_alloc. }
  destruct (tok_eqb _ "Bool"); [intros [= <- <- <-]; by apply no_function_alloc|].
  destruct (tok_eqb (current_token self) "Func") eqn:Hfunc.
  { apply tok_eqb_true, current_token_Some in Hfunc as [_ Hfunc].
    by destruct (Forall_lookup_1 _ _ _ _ Ht Hfunc). }
  destruct (tok_eqb _ "LSymbol"); [|intros [= <- <- <-]; by apply no_function_alloc].
  destruct (lsymbol_loop fuel _ h []) as [[[symbols self5] h5]| | |] eqn:Hloop;
    cbn [mbind result_bind]; try done.
  intros [= <- <- <-].
  apply lsymbol_loop_no_function in Hloop; [|done].
  by apply no_function_alloc.
Qed.

Lemma parse_simple_token_no_function token (h : heap) r h' :
  no_function h -> parse_simple_token token h = Ok (r, h') -> no_function h'.
Proof.
  intros Hh. unfold parse_simple_token. destruct token as [token|]; [|done].
  destruct (isdigit token).
  - destruct (py_int _); cbn [mbind result_bind alloc]; try done.
    intros [= <- <-]. by apply no_function_alloc.
  - destruct (isdigit _ && char_in _ _).
    + destruct (py_float _); cbn [mbind result_bind alloc]; try done.
      intros [= <- <-]. by apply no_function_alloc.
    + cbn [alloc]. intros [= <- <-]. by apply no_function_alloc.
Qed.

Lemma parse_no_function fuel :
  (forall idx eager self (h : heap) r self' h',
     Forall (fun t => t <> "Func") (tokens self) -> no_function h ->
     parse_expression fuel idx eager self h = Ok (r, self', h') -> no_function h') /\
  (forall eager self (h : heap) r self' h',
     Forall (fun t => t <> "Func") (tokens self) -> no_function h ->
     parse_list fuel eager self h = Ok (r, self', h') -> no_function h') /\
  (forall eager self (h : heap) elements idx elements' self' h',
     Forall (fun t => t <> "Func") (tokens self) -> no_function h ->
     parse_list_loop fuel eager self h elements idx = Ok (elements', self', h') ->
     no_function h') /\
  (forall self (h : heap) r self' h',
     Forall (fun t => t <> "Func") (tokens self) -> no_function h ->
     parse_dict fuel self h = Ok (r, self', h') -> no_function h').
Proof.
  induction fuel as [|fuel (IHe & IHl & IHloop & IHd)]; [done|].
  destruct (parse_keeps fuel) as (Ke & _ & _ & _).
  split; [|split; [|split]].
  - intros idx eager self h r self' h' Ht Hh. cbn [parse_expression].
    destruct (tok_eqb (current_token self) "["); [by apply IHl|].
    destruct (tok_eqb (current_token self) "{"); [by apply IHd|].
    destruct (starts_upper (current_token self));
      [by apply parse_type_constructor_no_function|].
    cbn [consume].
    destruct (parse_simple_token _ h) as [[r1 h1]| | |] eqn:Hs;
      cbn [mbind result_bind]; try done.
    intros [= <- <- <-]. by eapply parse_simple_token_no_function.
  - intros eager self h r self' h' Ht Hh. cbn [parse_list consume].
    destruct (parse_list_loop fuel eager _ h [] 0) as [[[elements self1] h1]| | |] eqn:Hloop;
      cbn [mbind result_bind alloc]; try done.
    intros [= <- <- <-]. apply IHloop in Hloop; [|done..].
    by apply no_function_alloc.
  - intros eager self h elements idx elements' self' h' Ht Hh. cbn [parse_list_loop].
    destruct (tok_eqb (current_token self) "]"); cbn [negb].
    { by intros [= <- <- <-]. }
    destruct (tok_eqb (current_token self) ","); [by apply IHloop|].
    destruct (parse_expression fuel idx eager self h) as [[[r1 self1] h1]| | |] eqn:He;
      cbn [mbind result_bind]; try done.
    destruct (Ke _ _ _ _ _ _ _ He) as [KT _].
    apply IHloop; [by rewrite KT|by eapply IHe].
  - intros self h r self' h' Ht Hh. cbn [parse_dict consume].
    destruct (parse_expression fuel 0 false _ h) as [[[k self1] h1]| | |] eqn:Hk;
      cbn [mbind result_bind]; try done.
    destruct (tok_eqb (current_token self1) ","); cbn [negb]; [|done].
    destruct (parse_expression fuel 0 false _ h1) as [[[v self2] h2]| | |] eqn:Hv;
      cbn [mbind result_bind]; try done.
    destruct (tok_eqb (current_token self2) "}"); cbn [negb alloc]; [|done].
    intros [= <- <- <-].
    destruct (Ke _ _ _ _ _ _ _ Hk) as [KT _]. cbn [tokens] in KT.
    apply no_function_alloc; [|done].
    eapply IHe; [| |exact Hv]; [by cbn [tokens]; rewrite KT|].
    by eapply IHe; [| |exact Hk].
Qed.

(** X13: a text that has no token [Func] and that parses has no call in
    it: the flat conversion returns the one line [result = ] followed by
    what the direct conversion returns. *)
Theorem no_func_single_line text (tokens : list string) fuel r self (h : heap) :
  tokenize text = Ok tokens ->
  Forall (fun t => t <> "Func") tokens ->
  parse fuel tokens [] = Ok (r, self, h) ->
  exists n s, forall fuel', n <= fuel' ->
    convert_lisp_to_function_calls fuel' text = Ok (Some s) /\
    convert_lisp_to_flat_statements fuel' text = Ok ("result = " ++ s).
Proof.
  intros Htok Hnf Hparse. destruct (parse_holds _ _ _ _ _ _ Hparse) as (t & Ht).
  assert (Hh : no_function h).
  { eapply (proj1 (parse_no_function fuel)); [| |exact Hparse]; [done|].
    intros i name args Hi. done. }
  pose proof (proj1 (holds_no_function h Hh) _ _ _ _ Ht) as Hc.
  pose proof (flat_call_free t Hc 0) as Hflat.
  exists (fuel + size t), (render t). intros fuel' Hfuel.
  unfold convert_lisp_to_function_calls, convert_lisp_to_flat_statements, parse in *.
  rewrite Htok. cbn [mbind result_bind].
  rewrite (parse_expression_mono _ fuel' _ _ _ _ _ Hparse) by lia.
  cbn [mbind result_bind].
  destruct (transform_ast_render t h _ r fuel' Ht ltac:(lia)) as (h1 & -> & _).
  destruct (flatten_ast_flat t 0 h _ r fuel' _ _ _ Ht ltac:(lia) Hflat) as (h2 & E & _).
  unfold flatten. rewrite E. done.
Qed.

(** ** Constructors the parser does not know *)

Lemma parse_unknown_constructor (name content : string) (fuel : nat) (h : heap) :
  starts_upper (Some name) = true -> known_constructor name = false ->
  parse (S fuel) [name; "["; content; "]"] h
  = Ok (length h, {| tokens := [name; "["; content; "]"]; pos := 4 |},
        (h ++ [String (Some (name ++ "[" ++ content ++ "]")%string)])%list).
Proof.
  intros Hup Hk. unfold parse. cbn [parse_expression].
  change (current_token {| tokens := [name; "["; content; "]"]; pos := 0 |}) with (Some name).
  cbn [tok_eqb].
  destruct (String.eqb name "[") eqn:E1; [apply String.eqb_eq in E1; by subst|].
  destruct (String.eqb name "{") eqn:E2; [apply String.eqb_eq in E2; by subst|].
  rewrite Hup. unfold parse_type_constructor. cbn [consume tokens pos].
  cbv [current_token tokens pos length Nat.leb Nat.add lookup list_lookup].
  cbn [tok_eqb String.eqb Ascii.eqb Bool.eqb negb].
  unfold known_constructor in Hk. cbn [existsb] in Hk.
  repeat (apply orb_false_elim in Hk as [?E Hk]).
  rewrite E, E0, E3, E4, E5, E6, E7, E8. done.
Qed.

(** X14: a constructor with a name the parser does not know, around one
    word, is kept as it is written: [Name[content]] comes back from the
    direct conversion unchanged, and after [result = ] from the flat one. *)
Theorem unknown_constructor_verbatim (name content : string) (fuel : nat) :
  str_all word_char name = true -> starts_upper (Some name) = true ->
  known_constructor name = false ->
  content <> "" -> str_all word_char content = true ->
  convert_lisp_to_function_calls (S fuel) (name ++ "[" ++ content ++ "]")
  = Ok (Some (name ++ "[" ++ content ++ "]")) /\
  convert_lisp_to_flat_statements (S fuel) (name ++ "[" ++ content ++ "]")
  = Ok ("result = " ++ name ++ "[" ++ content ++ "]").
Proof.
  intros Hw Hup Hk Hc Hcw.
  assert (Hne : name <> "") by (by intros ->).
  unfold convert_lisp_to_function_calls, convert_lisp_to_flat_statements.
  rewrite (lex_constructor name content Hne Hw Hc Hcw). cbn [mbind result_bind].
  rewrite (parse_unknown_constructor name content fuel [] Hup Hk). done.
Qed.

(** ** A list headed by [Func[f]] *)

Lemma consume_at_pos pre x rest :
  consume (at_pos pre (x :: rest)) = (Some x, at_pos (pre ++ [x])%list rest).
Proof.
  unfold consume. f_equal; [apply current_token_at_pos|].
  exact (advance_at_pos pre x rest).
Qed.

Lemma func_element (f : string) : element ["Func"; "["; f; "]"] (TFunction (Some f)).
Proof.
  split; [by eexists _, _|].
  intros pre post h idx eager _.
  exists 1, (length h), (h ++ [Function (Some f) []])%list. split.
  - cbn [parse_expression app]. rewrite current_token_at_pos.
    change (tok_eqb (Some "Func") "[") with false.
    change (tok_eqb (Some "Func") "{") with false.
    change (starts_upper (Some "Func")) with true. cbv beta iota.
    unfold parse_type_constructor.
    rewrite consume_at_pos. cbv beta iota. rewrite current_token_at_pos.
    change (tok_eqb (Some "[") "[") with true. cbn [negb]. cbv beta iota.
    rewrite consume_at_pos. cbv beta iota.
    change (tok_eqb (Some "Func") "Symbol") with false.
    change (tok_eqb (Some "Func") "Int" || tok_eqb (Some "Func") "Long") with false.
    change (tok_eqb (Some "Func") "Real" || tok_eqb (Some "Func") "Float") with false.
    change (tok_eqb (Some "Func") "Bool") with false.
    change (tok_eqb (Some "Func") "Func") with true. cbv beta iota.
    rewrite !consume_at_pos. cbv beta iota. cbn [alloc]. do 3 f_equal.
    by rewrite <- !app_assoc.
  - apply built_leaf. intros h' ctx r Hr. eapply holds_Function; [exact Hr|by left].
Qed.

(** X15: a list whose first element is [Func[f]] is a call of [f] on the
    other elements.  The direct conversion writes the name of [f] (its
    word in the glyph table if it is a glyph), then the renderings of the
    other elements between parentheses; the flattening one writes the
    statements of the arguments, then one statement that binds the next
    temporary to that call, and returns the temporary. *)
Theorem call_of_elements (f : string) (items : list (list string * nat)) (ts : list tree)
    (post : list string) (h : heap) :
  Forall2 (fun it t => element it.1 t) items ts ->
  exists fuel r self' h' n,
    parse fuel ("[" :: body ((["Func"; "["; f; "]"], 0) :: items) ++ "]" :: post)%list h
    = Ok (r, self', h') /\
    forall fuel', n <= fuel' ->
      (exists h'', transform_ast fuel' h' r
         = Ok (Some (call_text glyph_map_direct (Some f) (map render ts)), h'')) /\
      (exists stmts exprs c h'',
         flat_each flat ts 0 = (stmts, exprs, c) /\
         let temp_name := "temp" ++ str_nat (c + 1) in
         let statement := temp_name ++ " = " ++ call_text glyph_map_flat (Some f) exprs in
         flatten fuel' h' r
         = Ok ((stmts ++ [statement])%list,
               Some temp_name, {| temp_counter := c + 1; store := h'' |})).
Proof.
  intros Hitems.
  assert (Hall : Forall2 (fun it t => element it.1 t)
                   ((["Func"; "["; f; "]"], 0) :: items) (TFunction (Some f) :: ts)).
  { constructor; [apply func_element|exact Hitems]. }
  destruct (list_of_items _ _ 0 post h Hall) as (fuel & r & self' & h' & Hp & Hb & _).
  destruct Hb as (_ & _ & Ht). specialize (Ht []).
  exists fuel, r, self', h', (size (TList (TFunction (Some f) :: ts))).
  split; [exact Hp|]. intros fuel' Hf. split.
  - destruct (transform_ast_render _ h' _ r fuel' Ht Hf) as (h'' & E & _).
    exists h''. exact E.
  - destruct (flat_each flat ts 0) as [[stmts exprs] c] eqn:Hfe.
    assert (Hflat : flat (TList (TFunction (Some f) :: ts)) 0
                    = ((stmts ++ [(("temp" ++ str_nat (c + 1)) ++ " = "
                                  ++ call_text glyph_map_flat (Some f) exprs)%string])%list,
                       "temp" ++ str_nat (c + 1), c + 1)).
    { cbn [flat]. by rewrite Hfe. }
    destruct (flatten_ast_flat _ 0 h' _ r fuel' _ _ _ Ht Hf Hflat) as (h'' & E & _).
    exists stmts, exprs, c, h''. split; [done|exact E].
Qed.

(** ** The names of an [LSymbol] *)

Lemma render_symbols (names : list string) :
  render (TList (map (fun w => TSymbol (Some w)) names))
  = "[" ++ join ", " (map (fun w => "`" ++ w) names) ++ "]".
Proof.
  destruct names as [|w names]; [done|].
  cbn [map]. rewrite render_list_regular by done. cbn [map render str_opt].
  by rewrite map_map.
Qed.

Lemma calls_symbols (names : list string) :
  calls (TList (map (fun w => TSymbol (Some w)) names)) = 0.
Proof.
  change (list_sum (map calls (map (fun w => TSymbol (Some w)) names)) = 0).
  induction names as [|w names IH]; [done|exact IH].
Qed.

(** X16: [LSymbol[...]] takes every token up to the closing bracket, the
    commas apart, as a name, and is rendered as the bracketed list of the
    names, each after a backquote; the flattening renderer gives the same
    expression and no statement, since a list of symbols is never a call. *)
Theorem lsymbol_renders (syms : list (string * nat)) (lead : nat)
    (post : list string) (h : heap) :
  Forall (fun it : string * nat => it.1 <> "," /\ it.1 <> "]") syms ->
  exists fuel r self' h' n,
    parse fuel ("LSymbol" :: "[" :: replicate lead "," ++ symbol_body syms ++ "]" :: post)%list h
    = Ok (r, self', h') /\
    let out := "[" ++ join ", " (map (fun it : string * nat => "`" ++ it.1) syms) ++ "]" in
    forall fuel', n <= fuel' ->
      (exists h'', transform_ast fuel' h' r = Ok (Some out, h'')) /\
      (exists self'', flatten fuel' h' r = Ok ([], Some out, self'')).
Proof.
  intros Hsyms.
  destruct (lsymbol_of_items syms lead post h Hsyms)
    as (fuel & r & self' & h' & Hp & Hb & _).
  destruct Hb as (_ & _ & Ht). specialize (Ht []).
  rewrite <- (map_map (fun it : string * nat => it.1) (fun w => TSymbol (Some w))) in Ht.
  set (names := map (fun it : string * nat => it.1) syms) in *.
  exists fuel, r, self', h', (size (TList (map (fun w => TSymbol (Some w)) names))).
  split; [exact Hp|]. intros out fuel' Hf.
  assert (Hout : out = render (TList (map (fun w => TSymbol (Some w)) names))).
  { rewrite render_symbols. subst out names. by rewrite map_map. }
  rewrite Hout. split.
  - destruct (transform_ast_render _ h' _ r fuel' Ht Hf) as (h'' & E & _). by exists h''.
  - pose proof (flat_call_free _ (calls_symbols names) 0) as Hflat.
    destruct (flatten_ast_flat _ 0 h' _ r fuel' _ _ _ Ht Hf Hflat) as (h'' & E & _).
    by eexists.
Qed.

(** ** A dict of two expressions *)

(** X17: when the expression after the opening brace is read, a comma
    follows it, the expression after the comma is read and the closing
    brace follows, the parse returns a [Dict] of the two, added last to
    the store.  The direct renderer writes the key, a colon and a blank,
    and the value between braces; the flattening one puts the statements
    of the key before those of the value and numbers the temporaries of
    the value after those of the key. *)
Theorem dict_of_parts fuel idx eager self (h : heap) k self1 h1 v self2 h2 tk tv :
  tok_eqb (current_token self) "{" = true ->
  parse_expression fuel 0 false (consume self).2 h = Ok (k, self1, h1) ->
  built h h1 k tk ->
  tok_eqb (current_token self1) "," = true ->
  parse_expression fuel 0 false (consume self1).2 h1 = Ok (v, self2, h2) ->
  built h1 h2 v tv ->
  tok_eqb (current_token self2) "}" = true ->
  let h3 := (h2 ++ [Dict k v])%list in
  parse_expression (S (S fuel)) idx eager self h = Ok (length h2, (consume self2).2, h3) /\
  built h h3 (length h2) (TDict tk tv) /\
  forall fuel', size (TDict tk tv) <= fuel' ->
    (exists h', transform_ast fuel' h3 (length h2)
       = Ok (Some ("{" ++ render tk ++ ": " ++ render tv ++ "}"), h')) /\
    (exists ks ke c1 vs ve c2 self',
       flat tk 0 = (ks, ke, c1) /\ flat tv c1 = (vs, ve, c2) /\
       flatten fuel' h3 (length h2)
       = Ok ((ks ++ vs)%list, Some ("{" ++ ke ++ ": " ++ ve ++ "}"), self')).
Proof.
  intros Hb Hk Bk Hc Hv Bv Hcl h3.
  assert (Hbuilt : built h h3 (length h2) (TDict tk tv)).
  { destruct Bk as ([n1 ->] & Lk & Tk). destruct Bv as ([n2 ->] & Lv & Tv).
    subst h3. split; [|split].
    - eexists. rewrite <- !app_assoc. reflexivity.
    - rewrite !length_app. simpl. lia.
    - intros ctx. econstructor.
      + by apply list_lookup_middle.
      + apply holds_app, holds_app, Tk.
      + apply holds_app. rewrite Lk. apply Tv.
      + lia. }
  split; [|split; [exact Hbuilt|]].
  - rewrite (parse_expression_dict _ _ _ _ _ Hb).
    rewrite (parse_dict_after_key _ _ _ _ _ _ Hk), Hc. cbn [negb].
    rewrite Hv. cbn [mbind result_bind]. by rewrite Hcl.
  - intros fuel' Hf. destruct Hbuilt as (_ & _ & Ht). specialize (Ht []). split.
    + destruct (transform_ast_render _ h3 _ _ fuel' Ht Hf) as (h' & E & _).
      exists h'. exact E.
    + destruct (flat tk 0) as [[ks ke] c1] eqn:Fk.
      destruct (flat tv c1) as [[vs ve] c2] eqn:Fv.
      assert (Hflat : flat (TDict tk tv) 0
                      = ((ks ++ vs)%list, "{" ++ ke ++ ": " ++ ve ++ "}", c2)).
      { cbn [flat]. by rewrite Fk, Fv. }
      destruct (flatten_ast_flat _ 0 h3 _ _ fuel' _ _ _ Ht Hf Hflat) as (h' & E & _).
      by eexists ks, ke, c1, vs, ve, c2, _.
Qed.

End proofs.

(** * Closed instances *)

#[local] Existing Instance float_as_text.

(** the claim of C1 fails on [Symbol[x]: no bracket closes the constructor
    and the parse returns the node all the same *)
Lemma unterminated_symbol_accepted :
  tokenize "Symbol[x" = Ok ["Symbol"; "["; "x"] /\
  forall fuel,
    parse (F := float_as_text) (S fuel) ["Symbol"; "["; "x"] []
    = Ok (0, {| tokens := ["Symbol"; "["; "x"]; pos := 4 |}, [Symbol (Some "x")]).
Proof. split; [reflexivity|]. intros fuel. reflexivity. Qed.

Lemma input_exhausted_witness :
  starts_upper (Some "Symbol") = true /\ String.eqb "Symbol" "LSymbol" = false /\
  ast_of (parse (F := float_as_text) 1 ["Symbol"; "["; "x"] [])
  = ast_of (parse (F := float_as_text) 1 ["Symbol"; "["; "x"; "]"] []).
Proof.
  split; [reflexivity|]. split; [reflexivity|].
  exact (proj1 (proj1 (input_exhausted (F := float_as_text)) "Symbol" "x" [] 0
                  eq_refl eq_refl)).
Defined.

(** the claim of C2 fails on [1.]: no digit follows the point and the token
    is a [Float]; and on [1.2.3], which is no [String]: [float] raises *)
Lemma point_tokens_misclassified :
  parse_simple_token (F := float_as_text) (Some "1.") [] = Ok (0, [Float (F := float_as_text) "1."]) /\
  parse_simple_token (F := float_as_text) (Some "1.2.3") []
  = Raise (ValueError "could not convert string to float").
Proof. split; reflexivity. Qed.

Lemma simple_token_classes_witness :
  off_shape "2.5" = false /\
  parse_simple_token (F := float_as_text) (Some "2.5") [] = Ok (0, [Float (F := float_as_text) "2.5"]).
Proof.
  split; [reflexivity|].
  exact (simple_token_classes (F := float_as_text) "2.5" [] eq_refl).
Defined.

Lemma renderers_total_witness :
  parse (F := float_as_text) 10 sample_tokens [] = Ok (2, sample_parser, sample_store) /\
  exists n s stmts e, forall fuel', n <= fuel' ->
    (exists h', transform_ast fuel' sample_store 2 = Ok (Some s, h')) /\
    (exists self', flatten fuel' sample_store 2 = Ok (stmts, Some e, self')).
Proof.
  split; [reflexivity|].
  exact (renderers_total (F := float_as_text) 10 sample_tokens [] 2 sample_parser
           sample_store eq_refl).
Defined.

Lemma render_twice_witness :
  parse (F := float_as_text) 10 sample_tokens [] = Ok (2, sample_parser, sample_store) /\
  exists n s stmts e, forall f1 f2, n <= f1 -> n <= f2 ->
    exists h1 g1,
      transform_ast f1 sample_store 2 = Ok (Some s, h1) /\
      flatten f1 sample_store 2 = Ok (stmts, Some e, g1) /\
      (exists h2, transform_ast f2 h1 2 = Ok (Some s, h2)) /\
      (exists g2, flatten f2 (store g1) 2 = Ok (stmts, Some e, g2)) /\
      (exists g3, flatten f2 h1 2 = Ok (stmts, Some e, g3)) /\
      (exists h3, transform_ast f2 (store g1) 2 = Ok (Some s, h3)).
Proof.
  split; [reflexivity|].
  exact (render_twice (F := float_as_text) 10 sample_tokens [] 2 sample_parser
           sample_store eq_refl).
Defined.

(** the first rendering does change the store: the head of the call gets
    its arguments, and the second rendering starts from there *)
Lemma rendering_assigns_args :
  transform_ast 3 sample_store 2
  = Ok (Some "min(a)", [Function (Some "min") [1]; String (Some "a"); List [0; 1]]) /\
  transform_ast 3 [Function (Some "min") [1]; String (Some "a"); List [0; 1]] 2
  = Ok (Some "min(a)", [Function (Some "min") [1]; String (Some "a"); List [0; 1]]) /\
  flatten 3 [Function (Some "min") [1]; String (Some "a"); List [0; 1]] 2
  = flatten 3 sample_store 2.
Proof. repeat split. Qed.

Lemma underscore_glyph_witness :
  [Function (F := float_as_text) (Some "_") []] !! 0 = Some (Function (Some "_") []) /\
  transform_ast 1 [Function (F := float_as_text) (Some "_") []] 0
  = Ok (Some "_()", [Function (Some "_") []]) /\
  flatten_ast 1 {| temp_counter := 0; store := [Function (F := float_as_text) (Some "_") []] |} 0
  = Ok (["temp1 = underscore()"], Some "temp1",
        {| temp_counter := 1; store := [Function (Some "_") []] |}).
Proof.
  split; [reflexivity|].
  destruct (underscore_glyph (F := float_as_text) [Function (Some "_") []] 0 0 [] 0 eq_refl)
    as (_ & _ & _ & E1 & E2).
  split; [exact E1|exact E2].
Defined.

Lemma dict_separator_errors_witness :
  tokenize "{a b}" = Ok ["{"; "a"; "b"; "}"] /\
  tok_eqb (current_token {| tokens := ["{"; "a"; "b"; "}"]; pos := 0 |}) "{" = true /\
  parse_expression (F := float_as_text) 1 0 false
    (consume {| tokens := ["{"; "a"; "b"; "}"]; pos := 0 |}).2 []
  = Ok (0, {| tokens := ["{"; "a"; "b"; "}"]; pos := 2 |}, [String (Some "a")]) /\
  tok_eqb (current_token {| tokens := ["{"; "a"; "b"; "}"]; pos := 2 |}) "," = false /\
  parse (F := float_as_text) 3 ["{"; "a"; "b"; "}"] []
  = Raise (ValueError "Expected ',' in dict, got b").
Proof.
  split; [reflexivity|]. split; [reflexivity|]. split; [reflexivity|].
  split; [reflexivity|].
  exact (proj1 (dict_separator_errors (F := float_as_text) 1 0 true
                  {| tokens := ["{"; "a"; "b"; "}"]; pos := 0 |} [] 0
                  {| tokens := ["{"; "a"; "b"; "}"]; pos := 2 |} [String (Some "a")]
                  eq_refl eq_refl) eq_refl).
Defined.

Lemma sample_store_holds :
  holds sample_store [] 0 2 (TList [TFunction (Some "min"); TString "a"]).
Proof.
  econstructor; [reflexivity|].
  constructor; [eapply holds_Function; [reflexivity|by left]|].
  constructor; [by constructor|constructor].
Defined.

Lemma flatten_mints_in_order_witness :
  holds sample_store [] 0 2 (TList [TFunction (Some "min"); TString "a"]) /\
  size (TList [TFunction (F := float_as_text) (Some "min"); TString "a"]) <= 4 /\
  exists stmts e self',
    flatten 4 sample_store 2 = Ok (stmts, Some e, self') /\
    length stmts = 1 /\
    temp_counter self' = length stmts /\
    (forall k, k < length stmts ->
       exists rhs, stmts !! k = Some ("temp" ++ str_nat (k + 1) ++ " = " ++ rhs)) /\
    (true = true -> e = "temp" ++ str_nat (length stmts) /\ 0 < length stmts).
Proof.
  split; [exact sample_store_holds|]. split; [simpl; lia|].
  exact (flatten_mints_in_order (F := float_as_text) sample_store 0 2
           (TList [TFunction (Some "min"); TString "a"]) 4 sample_store_holds
           ltac:(simpl; lia)).
Defined.

Lemma word_a : element (F := float_as_text) ["a"] (TString "a").
Proof. apply word_element; done. Defined.

Lemma word_b : element (F := float_as_text) ["b"] (TString "b").
Proof. apply word_element; done. Defined.

Lemma commas_are_separators_witness :
  Forall2 (fun it t => element (F := float_as_text) it.1 t)
    [(["a"], 1); (["b"], 1)] [TString "a"; TString "b"] /\
  Forall (fun it : string * nat => it.1 <> "," /\ it.1 <> "]") [("s", 0); ("t", 1)] /\
  (exists fuel r self' h',
     parse (F := float_as_text) fuel ["["; ","; "a"; ","; ","; "b"; ","; "]"] []
     = Ok (r, self', h')
     /\ built [] h' r (TList [TString "a"; TString "b"])
     /\ drop (pos self') (tokens self') = []) /\
  (exists fuel r self' h',
     parse (F := float_as_text) fuel ["LSymbol"; "["; ","; "s"; "t"; ","; "]"] []
     = Ok (r, self', h')
     /\ built [] h' r (TList [TSymbol (Some "s"); TSymbol (Some "t")])
     /\ drop (pos self') (tokens self') = []).
Proof.
  assert (H : Forall2 (fun it t => element (F := float_as_text) it.1 t)
                [(["a"], 1); (["b"], 1)] [TString "a"; TString "b"]).
  { constructor; [exact word_a|]. constructor; [exact word_b|constructor]. }
  assert (H' : Forall (fun it : string * nat => it.1 <> "," /\ it.1 <> "]")
                 [("s", 0); ("t", 1)]).
  { constructor; [done|]. constructor; [done|constructor]. }
  split; [exact H|]. split; [exact H'|].
  exact (commas_are_separators (F := float_as_text)
           [(["a"], 1); (["b"], 1)] [TString "a"; TString "b"]
           [("s", 0); ("t", 1)] 1 [] [] H H').
Defined.

(** the same store comes out of [[,a,,b,]] and of [[a,b]], and [[]] is
    the empty list *)
Lemma comma_examples :
  ast_of (parse (F := float_as_text) 10 ["["; ","; "a"; ","; ","; "b"; ","; "]"] [])
  = Ok (2, [String (Some "a"); String (Some "b"); List [0; 1]]) /\
  ast_of (parse (F := float_as_text) 10 ["["; "a"; ","; "b"; "]"] [])
  = Ok (2, [String (Some "a"); String (Some "b"); List [0; 1]]) /\
  ast_of (parse (F := float_as_text) 10 ["["; "]"] []) = Ok (0, [List []]) /\
  ast_of (parse (F := float_as_text) 10 ["LSymbol"; "["; ","; "s"; "t"; ","; "]"] [])
  = ast_of (parse (F := float_as_text) 10 ["LSymbol"; "["; "s"; ","; "t"; "]"] []).
Proof. repeat split. Qed.

(** an unterminated list ends in the attribute error of [None.isdigit()],
    an unterminated [LSymbol] does not end *)
Lemma unterminated_list_examples :
  parse (F := float_as_text) 10 ["["; "a"] []
  = Raise (AttributeError "'NoneType' object has no attribute 'isdigit'") /\
  forall fuel, parse (F := float_as_text) fuel ["LSymbol"; "["; "a"] [] = OutOfFuel.
Proof.
  split; [reflexivity|]. intros [|fuel]; [reflexivity|].
  unfold parse. cbn [parse_expression].
  change (tok_eqb _ "[") with false. change (tok_eqb _ "{") with false.
  change (starts_upper _) with true. cbn iota.
  unfold parse_type_constructor. cbn [consume].
  change (tok_eqb _ "[") with true at 1. cbn [negb].
  change (tok_eqb _ "Symbol") with false.
  change (tok_eqb _ "Int" || tok_eqb _ "Long") with false.
  change (tok_eqb _ "Real" || tok_eqb _ "Float") with false.
  change (tok_eqb _ "Bool") with false. change (tok_eqb _ "Func") with false.
  change (tok_eqb _ "LSymbol") with true. cbn iota.
  destruct fuel as [|fuel]; [reflexivity|].
  cbn [lsymbol_loop].
  change (tok_eqb _ "]") with false at 1. cbn [negb].
  change (tok_eqb _ ",") with false at 1. cbn iota. cbn [consume alloc].
  rewrite lsymbol_loop_at_end; [reflexivity|]. apply current_token_None. simpl. lia.
Qed.

(** ** Closed instances of the further properties *)

Lemma tokenize_at_separator_witness :
  word_char "[" = false /\
  exists ta tb,
    tokenize "f" = Ok ta /\ tokenize "x]" = Ok tb /\
    tokenize ("f" ++ String.String "[" "x]")
    = Ok (ta ++ (if char_isspace "[" then [] else [String.String "[" ""]) ++ tb)%list.
Proof.
  split; [reflexivity|]. exact (tokenize_at_separator "f" "x]" "[" eq_refl).
Defined.

Lemma parse_expression_advances_witness :
  parse_expression (F := float_as_text) 3 0 true {| tokens := ["["; "]"; "b"]; pos := 0 |} []
  = Ok (0, {| tokens := ["["; "]"; "b"]; pos := 2 |}, [List []]) /\
  tokens {| tokens := ["["; "]"; "b"]; pos := 2 |}
  = tokens {| tokens := ["["; "]"; "b"]; pos := 0 |} /\
  pos {| tokens := ["["; "]"; "b"]; pos := 0 |} < pos {| tokens := ["["; "]"; "b"]; pos := 2 |}.
Proof.
  split; [reflexivity|].
  exact (parse_expression_advances (F := float_as_text) 3 0 true
           {| tokens := ["["; "]"; "b"]; pos := 0 |} [] 0
           {| tokens := ["["; "]"; "b"]; pos := 2 |} [List []] eq_refl).
Defined.

Lemma parse_adds_fresh_objects_witness :
  parse_expression (F := float_as_text) 10 0 true
    {| tokens := ["["; "a"; ","; "b"; "]"]; pos := 0 |} [Integer 7]
  = Ok (3, {| tokens := ["["; "a"; ","; "b"; "]"]; pos := 5 |},
        [Integer 7; String (Some "a"); String (Some "b"); List [1; 2]]) /\
  (exists new, [Integer 7; String (Some "a"); String (Some "b"); List [1; 2]]
               = ([Integer (F := float_as_text) 7] ++ new)%list) /\
  1 <= 3 /\ 4 = 4 /\
  forall i, 1 <= i < 4 ->
    fresh_node [Integer (F := float_as_text) 7; String (Some "a"); String (Some "b"); List [1; 2]]
      1 i.
Proof.
  split; [reflexivity|].
  exact (parse_adds_fresh_objects (F := float_as_text) 10 0 true
           {| tokens := ["["; "a"; ","; "b"; "]"]; pos := 0 |} [Integer 7] 3
           {| tokens := ["["; "a"; ","; "b"; "]"]; pos := 5 |}
           [Integer 7; String (Some "a"); String (Some "b"); List [1; 2]] eq_refl).
Defined.

Lemma tokenize_join_tokens_witness :
  tokenize "f[x ,y]" = Ok ["f"; "["; "x"; ","; "y"; "]"] /\
  tokenize (join " " ["f"; "["; "x"; ","; "y"; "]"]) = Ok ["f"; "["; "x"; ","; "y"; "]"].
Proof.
  split; [reflexivity|].
  exact (tokenize_join_tokens "f[x ,y]" ["f"; "["; "x"; ","; "y"; "]"] eq_refl).
Defined.

Lemma blank_text_raises_witness :
  str_all char_isspace "  " = true /\
  convert_lisp_to_function_calls (F := float_as_text) 1 "  "
  = Raise (AttributeError "'NoneType' object has no attribute 'isdigit'") /\
  convert_lisp_to_flat_statements (F := float_as_text) 1 "  "
  = Raise (AttributeError "'NoneType' object has no attribute 'isdigit'").
Proof.
  split; [reflexivity|]. exact (blank_text_raises (F := float_as_text) "  " 0 eq_refl).
Defined.

Lemma word_round_trip_witness :
  "Total" <> "" /\ str_all word_char "Total" = true /\
  isdigit (remove_char "." "Total") = false /\
  convert_lisp_to_function_calls (F := float_as_text) 1 "Total" = Ok (Some "Total") /\
  convert_lisp_to_flat_statements (F := float_as_text) 1 "Total" = Ok ("result = " ++ "Total").
Proof.
  assert (Hne : "Total" <> "") by discriminate.
  split; [exact Hne|]. split; [reflexivity|]. split; [reflexivity|].
  exact (word_round_trip (F := float_as_text) "Total" 0 Hne eq_refl eq_refl).
Defined.

Lemma parse_ignores_rest_witness :
  parse_expression (F := float_as_text) 1 0 true {| tokens := ["a"; "b"]; pos := 0 |} []
  = Ok (0, {| tokens := ["a"; "b"]; pos := 1 |}, [String (Some "a")]) /\
  take 2 ["a"; "b"; "]"; "}"] = take 2 ["a"; "b"] /\
  parse_expression (F := float_as_text) 1 0 true
    {| tokens := ["a"; "b"; "]"; "}"]; pos := 0 |} []
  = Ok (0, {| tokens := ["a"; "b"; "]"; "}"]; pos := 1 |}, [String (Some "a")]).
Proof.
  split; [reflexivity|]. split; [reflexivity|].
  exact (parse_ignores_rest (F := float_as_text) 1 0 true
           {| tokens := ["a"; "b"]; pos := 0 |} [] 0
           {| tokens := ["a"; "b"]; pos := 1 |} [String (Some "a")]
           ["a"; "b"; "]"; "}"] eq_refl eq_refl).
Defined.

Lemma transform_ast_assigns_args_only_witness :
  transform_ast 3 sample_store 2
  = Ok (Some "min(a)", [Function (Some "min") [1]; String (Some "a"); List [0; 1]]) /\
  args_only sample_store [Function (Some "min") [1]; String (Some "a"); List [0; 1]].
Proof.
  split; [reflexivity|].
  exact (transform_ast_assigns_args_only (F := float_as_text) 3 sample_store 2
           (Some "min(a)") [Function (Some "min") [1]; String (Some "a"); List [0; 1]]
           eq_refl).
Defined.

Lemma flatten_ast_assigns_args_only_witness :
  flatten_ast 3 {| temp_counter := 0; store := sample_store |} 2
  = Ok (["temp1 = min(a)"], Some "temp1",
        {| temp_counter := 1;
           store := [Function (Some "min") [1]; String (Some "a"); List [0; 1]] |}) /\
  args_only sample_store [Function (Some "min") [1]; String (Some "a"); List [0; 1]].
Proof.
  split; [reflexivity|].
  exact (flatten_ast_assigns_args_only (F := float_as_text) 3
           {| temp_counter := 0; store := sample_store |} 2
           ["temp1 = min(a)"] (Some "temp1")
           {| temp_counter := 1;
              store := [Function (Some "min") [1]; String (Some "a"); List [0; 1]] |}
           eq_refl).
Defined.

Lemma no_func_single_line_witness :
  tokenize "[a, {b, 2}]" = Ok ["["; "a"; ","; "{"; "b"; ","; "2"; "}"; "]"] /\
  Forall (fun t => t <> "Func") ["["; "a"; ","; "{"; "b"; ","; "2"; "}"; "]"] /\
  parse (F := float_as_text) 10 ["["; "a"; ","; "{"; "b"; ","; "2"; "}"; "]"] []
  = Ok (4, {| tokens := ["["; "a"; ","; "{"; "b"; ","; "2"; "}"; "]"]; pos := 9 |},
        [String (Some "a"); String (Some "b"); Integer 2; Dict 1 2; List [0; 3]]) /\
  exists n s, forall fuel', n <= fuel' ->
    convert_lisp_to_function_calls (F := float_as_text) fuel' "[a, {b, 2}]" = Ok (Some s) /\
    convert_lisp_to_flat_statements (F := float_as_text) fuel' "[a, {b, 2}]"
    = Ok ("result = " ++ s).
Proof.
  assert (Hnf : Forall (fun t => t <> "Func") ["["; "a"; ","; "{"; "b"; ","; "2"; "}"; "]"]).
  { repeat (constructor; [discriminate|]). constructor. }
  split; [reflexivity|]. split; [exact Hnf|]. split; [reflexivity|].
  exact (no_func_single_line (F := float_as_text) "[a, {b, 2}]"
           ["["; "a"; ","; "{"; "b"; ","; "2"; "}"; "]"] 10 4
           {| tokens := ["["; "a"; ","; "{"; "b"; ","; "2"; "}"; "]"]; pos := 9 |}
           [String (Some "a"); String (Some "b"); Integer 2; Dict 1 2; List [0; 3]]
           eq_refl Hnf eq_refl).
Defined.

Lemma unknown_constructor_verbatim_witness :
  str_all word_char "Date" = true /\ starts_upper (Some "Date") = true /\
  known_constructor "Date" = false /\ "2020.01.01" <> "" /\
  str_all word_char "2020.01.01" = true /\
  convert_lisp_to_function_calls (F := float_as_text) 1 ("Date" ++ "[" ++ "2020.01.01" ++ "]")
  = Ok (Some ("Date" ++ "[" ++ "2020.01.01" ++ "]")) /\
  convert_lisp_to_flat_statements (F := float_as_text) 1 ("Date" ++ "[" ++ "2020.01.01" ++ "]")
  = Ok ("result = " ++ "Date" ++ "[" ++ "2020.01.01" ++ "]").
Proof.
  assert (Hne : "2020.01.01" <> "") by discriminate.
  split; [reflexivity|]. split; [reflexivity|]. split; [reflexivity|].
  split; [exact Hne|]. split; [reflexivity|].
  exact (unknown_constructor_verbatim (F := float_as_text) "Date" "2020.01.01" 0
           eq_refl eq_refl eq_refl Hne eq_refl).
Defined.

Lemma call_of_elements_witness :
  Forall2 (fun it t => element (F := float_as_text) it.1 t)
    [(["a"], 0); (["b"], 0)] [TString "a"; TString "b"] /\
  exists fuel r self' h' n,
    parse (F := float_as_text) fuel
      ("[" :: body ((["Func"; "["; "-"; "]"], 0) :: [(["a"], 0); (["b"], 0)]) ++ "]" :: [])%list []
    = Ok (r, self', h') /\
    forall fuel', n <= fuel' ->
      (exists h'', transform_ast fuel' h' r
         = Ok (Some (call_text glyph_map_direct (Some "-")
                       (map render [TString (F := float_as_text) "a"; TString "b"])), h'')) /\
      (exists stmts exprs c h'',
         flat_each flat [TString (F := float_as_text) "a"; TString "b"] 0 = (stmts, exprs, c) /\
         let temp_name := "temp" ++ str_nat (c + 1) in
         let statement := temp_name ++ " = " ++ call_text glyph_map_flat (Some "-") exprs in
         flatten fuel' h' r
         = Ok ((stmts ++ [statement])%list,
               Some temp_name, {| temp_counter := c + 1; store := h'' |})).
Proof.
  assert (H : Forall2 (fun it t => element (F := float_as_text) it.1 t)
                [(["a"], 0); (["b"], 0)] [TString "a"; TString "b"]).
  { constructor; [exact word_a|]. constructor; [exact word_b|constructor]. }
  split; [exact H|].
  exact (call_of_elements (F := float_as_text) "-" [(["a"], 0); (["b"], 0)]
           [TString "a"; TString "b"] [] [] H).
Defined.

Lemma lsymbol_renders_witness :
  Forall (fun it : string * nat => it.1 <> "," /\ it.1 <> "]") [("s", 1); ("[", 0)] /\
  exists fuel r self' h' n,
    parse (F := float_as_text) fuel
      ("LSymbol" :: "[" :: replicate 0 "," ++ symbol_body [("s", 1); ("[", 0)] ++ "]" :: [])%list []
    = Ok (r, self', h') /\
    let out := "[" ++ join ", " (map (fun it : string * nat => "`" ++ it.1)
                                  [("s", 1); ("[", 0)]) ++ "]" in
    forall fuel', n <= fuel' ->
      (exists h'', transform_ast fuel' h' r = Ok (Some out, h'')) /\
      (exists self'', flatten fuel' h' r = Ok ([], Some out, self'')).
Proof.
  assert (H : Forall (fun it : string * nat => it.1 <> "," /\ it.1 <> "]")
                [("s", 1); ("[", 0)]).
  { constructor; [done|]. constructor; [done|constructor]. }
  split; [exact H|].
  exact (lsymbol_renders (F := float_as_text) [("s", 1); ("[", 0)] 0 [] [] H).
Defined.

Lemma dict_of_parts_witness :
  tok_eqb (current_token {| tokens := ["{"; "a"; ","; "b"; "}"]; pos := 0 |}) "{" = true /\
  parse_expression (F := float_as_text) 1 0 false
    (consume {| tokens := ["{"; "a"; ","; "b"; "}"]; pos := 0 |}).2 []
  = Ok (0, {| tokens := ["{"; "a"; ","; "b"; "}"]; pos := 2 |}, [String (Some "a")]) /\
  built (F := float_as_text) [] [String (Some "a")] 0 (TString "a") /\
  tok_eqb (current_token {| tokens := ["{"; "a"; ","; "b"; "}"]; pos := 2 |}) "," = true /\
  parse_expression (F := float_as_text) 1 0 false
    (consume {| tokens := ["{"; "a"; ","; "b"; "}"]; pos := 2 |}).2 [String (Some "a")]
  = Ok (1, {| tokens := ["{"; "a"; ","; "b"; "}"]; pos := 4 |},
        [String (Some "a"); String (Some "b")]) /\
  built (F := float_as_text) [String (Some "a")] [String (Some "a"); String (Some "b")] 1
    (TString "b") /\
  tok_eqb (current_token {| tokens := ["{"; "a"; ","; "b"; "}"]; pos := 4 |}) "}" = true /\
  parse_expression (F := float_as_text) 3 0 true
    {| tokens := ["{"; "a"; ","; "b"; "}"]; pos := 0 |} []
  = Ok (2, {| tokens := ["{"; "a"; ","; "b"; "}"]; pos := 5 |},
        [String (Some "a"); String (Some "b"); Dict 0 1]) /\
  forall fuel', 3 <= fuel' ->
    exists h', transform_ast (F := float_as_text) fuel'
                 [String (Some "a"); String (Some "b"); Dict 0 1] 2
               = Ok (Some "{a: b}", h').
Proof.
  assert (Ba : built (F := float_as_text) [] [String (Some "a")] 0 (TString "a")).
  { apply (built_leaf []). intros. by constructor. }
  assert (Bb : built (F := float_as_text) [String (Some "a")]
                 [String (Some "a"); String (Some "b")] 1 (TString "b")).
  { apply (built_leaf [String (Some "a")]). intros. by constructor. }
  split; [reflexivity|]. split; [reflexivity|]. split; [exact Ba|].
  split; [reflexivity|]. split; [reflexivity|]. split; [exact Bb|].
  split; [reflexivity|].
  destruct (dict_of_parts (F := float_as_text) 1 0 true
              {| tokens := ["{"; "a"; ","; "b"; "}"]; pos := 0 |} [] 0
              {| tokens := ["{"; "a"; ","; "b"; "}"]; pos := 2 |} [String (Some "a")] 1
              {| tokens := ["{"; "a"; ","; "b"; "}"]; pos := 4 |}
              [String (Some "a"); String (Some "b")] (TString "a") (TString "b")
              eq_refl eq_refl Ba eq_refl eq_refl Bb eq_refl) as (E & _ & R).
  split; [exact E|]. intros fuel' Hf. exact (proj1 (R fuel' Hf)).
Defined.

(** the same on concrete texts: a call of a glyph, and names that are
    brackets *)
Lemma rendering_examples :
  convert_lisp_to_function_calls (F := float_as_text) 10 "[Func[-], a, b]"
  = Ok (Some "dash(a, b)") /\
  convert_lisp_to_flat_statements (F := float_as_text) 20 "[Func[-], a, [Func[_], 1]]"
  = Ok ("temp1 = underscore(1)" ++ nl ++ "temp2 = dash(a, temp1)" ++ nl ++ "result = temp2") /\
  convert_lisp_to_function_calls (F := float_as_text) 10 "LSymbol[s, [ ]"
  = Ok (Some "[`s, `[]") /\
  convert_lisp_to_function_calls (F := float_as_text) 10 "a b c" = Ok (Some "a").
Proof. repeat split. Qed.
